(** * grand-complication: the watch-face renderer of [src/app/page.tsx]

    A shallow embedding of the time and astronomy computations and of the
    canvas drawing routines of the [Home] component, with the properties
    the specification states about them.

    Numbers.  A JavaScript number is modelled as a real number: the
    arithmetic of the source is read exactly, without IEEE-754 rounding,
    and every value is finite.  Time stamps ([Date.getTime], [Date.now])
    are integral milliseconds and are kept in [Z].  The moon age is
    compared with thresholds and rounded to an index, where the last bit
    of a number decides: its computation is read a second time in
    binary64 arithmetic ([Binary64], [Rounded]), and what is stated of the
    moon age as a number is stated of that reading.

    Effects.  A drawing routine reads the wall clock ([Date.now],
    [new Date()]) and issues calls on the 2D context.  Both are explicit
    here: a routine is a computation in the monad [M], which threads the
    number of clock reads made so far and collects the context calls, in
    order, as a list of [event]s. *)

From Stdlib Require Import Reals Lra Lia ZArith List String Bool.
From Stdlib Require Import DecimalString.
Import ListNotations.

Local Open Scope R_scope.

(* ================================================================== *)
(** * JavaScript number primitives *)

Module JS.

(** [Math.floor]: the greatest integer not above the argument. *)
Definition floor (x : R) : Z := Int_part x.

(** Truncation toward zero, the integral quotient the [%] operator uses. *)
Definition trunc (x : R) : Z :=
  if Rle_dec 0 x then Int_part x else (- Int_part (- x))%Z.

(** The [%] operator on numbers: the remainder takes the sign of the
    dividend, [x % y = x - y * trunc (x / y)]. *)
Definition rem (x y : R) : R := x - y * IZR (trunc (x / y)).

(** [Math.round]: the nearest integer, ties toward plus infinity. *)
Definition round (x : R) : Z := Int_part (x + 0.5).

(** [Math.ceil]. *)
Definition ceil (x : R) : Z := (- Int_part (- x))%Z.

(** [Math.max] on two numbers. *)
Definition max (x y : R) : R := Rmax x y.

(** The normalisation idiom of the source, [((x % n) + n) % n]. *)
Definition wrap (x n : R) : R := rem (rem x n + n) n.

End JS.

(* ================================================================== *)
(** * Dates

    [Date.UTC] and the local-time getters follow ECMAScript: days are
    counted from 1970-01-01, the civil calendar is the proleptic Gregorian
    one, and local time is UTC plus the zone adjustment of the host. *)

Module DateModel.

Local Open Scope Z_scope.

Definition msPerDay : Z := 86400000.
Definition msPerHour : Z := 3600000.
Definition msPerMinute : Z := 60000.
Definition msPerSecond : Z := 1000.

(** Day number of the civil date [y]-[m]-[d], with [m] in 1..12. *)
Definition days_from_civil (y m d : Z) : Z :=
  let y' := if m <=? 2 then y - 1 else y in
  let era := y' / 400 in
  let yoe := y' - era * 400 in
  let mp := (m + 9) mod 12 in
  let doy := (153 * mp + 2) / 5 + d - 1 in
  let doe := yoe * 365 + yoe / 4 - yoe / 100 + doy in
  era * 146097 + doe - 719468.

(** Day of the month (1..31) of day number [z]. *)
Definition day_of_month (z : Z) : Z :=
  let z' := z + 719468 in
  let era := z' / 146097 in
  let doe := z' - era * 146097 in
  let yoe := (doe - doe / 1460 + doe / 36524 - doe / 146096) / 365 in
  let doy := doe - (365 * yoe + yoe / 4 - yoe / 100) in
  let mp := (5 * doy + 2) / 153 in
  doy - (153 * mp + 2) / 5 + 1.

(** [Date.UTC(year, monthIndex, day, hours, minutes)], [monthIndex] in 0..11. *)
Definition UTC (year monthIndex day hours minutes : Z) : Z :=
  days_from_civil year (monthIndex + 1) day * msPerDay
  + hours * msPerHour + minutes * msPerMinute.

(** A [Date] object holds its time value. *)
Record Date : Type := mkDate { getTime : Z }.

Section LocalTime.
(** The zone adjustment of the host, in milliseconds, at a UTC instant. *)
Variable LocalTZA : Z -> Z.

Definition LocalTime (d : Date) : Z := getTime d + LocalTZA (getTime d).

Definition getHours (d : Date) : Z := (LocalTime d / msPerHour) mod 24.
Definition getMinutes (d : Date) : Z := (LocalTime d / msPerMinute) mod 60.
Definition getSeconds (d : Date) : Z := (LocalTime d / msPerSecond) mod 60.
Definition getMilliseconds (d : Date) : Z := LocalTime d mod msPerSecond.
Definition getDate (d : Date) : Z := day_of_month (LocalTime d / msPerDay).

End LocalTime.

End DateModel.

Import DateModel.

(* ================================================================== *)
(** * Time and astronomy *)

Definition LUNAR_CYCLE : R := 29.53059.

(** The new-moon reference, [new Date(Date.UTC(2026, 0, 19, 0, 0))]. *)
Definition ref : Date := mkDate (UTC 2026 0 19 0 0).

(** Days elapsed since the reference, as in [getMoonPhaseAngle],
    [getMoonPhaseIndex] and [drawMoon]. *)
Definition days_since_ref (date : Date) : R :=
  (IZR (getTime date) - IZR (getTime ref)) / (1000 * 60 * 60 * 24).

(** The moon age computed at the head of [drawMoon], in exact arithmetic;
    [Rounded.moonAge] is the same computation in binary64 arithmetic. *)
Definition moonAge (date : Date) : R :=
  JS.wrap (days_since_ref date) LUNAR_CYCLE.

Definition getMoonPhaseAngle (date : Date) : R :=
  let phase := JS.wrap (days_since_ref date) LUNAR_CYCLE in
  (phase / LUNAR_CYCLE) * PI * 2.

(** [getMoonPhaseIndex]: the even division of the cycle into eight parts.
    The renderer never calls it. *)
Definition getMoonPhaseIndex (date : Date) : Z :=
  let phase := JS.wrap (days_since_ref date) LUNAR_CYCLE in
  Z.rem (JS.round ((phase / LUNAR_CYCLE) * 8)) 8.

(** [getMoonPhaseImage]: the stepwise lookup [drawMoon] uses. *)
Definition getMoonPhaseImage (moonAge : R) : Z :=
  if Rlt_dec moonAge 1.84 then 0%Z
  else if Rlt_dec moonAge 7.38 then 1%Z
  else if Rlt_dec moonAge 9.23 then 2%Z
  else if Rlt_dec moonAge 14.77 then 3%Z
  else if Rlt_dec moonAge 16.61 then 4%Z
  else if Rlt_dec moonAge 22.15 then 5%Z
  else if Rlt_dec moonAge 23.99 then 6%Z
  else 7%Z.

Definition getSiderealAngle (date : Date) : R :=
  let JD := IZR (getTime date) / 86400000 + 2440587.5 in
  let D := JD - 2451545.0 in
  let GMST := 280.46061837 + 360.98564736629 * D in
  let GMST := JS.wrap GMST 360 in
  let longitude := -0.1278 in
  let LST := GMST + longitude in
  let LST := JS.wrap LST 360 in
  (LST / 360) * PI * 2.

(* ================================================================== *)
(** * The drawing surface *)

(** A CSS colour: a literal such as ["#b00020"], or an [rgba(...)] value
    whose opacity the source writes out or interpolates. *)
Inductive color : Type :=
| Css (s : string)
| Rgba (r g b : Z) (alpha : R).

(** A gradient object with the colour stops added to it. *)
Inductive gradient : Type :=
| LinearGradient (x0 y0 x1 y1 : R) (stops : list (R * color))
| RadialGradient (x0 y0 r0 x1 y1 r1 : R) (stops : list (R * color)).

Inductive style : Type :=
| Solid (c : color)
| Grad (g : gradient).

(** An [HTMLImageElement]: its source and its [complete] flag. *)
Record Image : Type := mkImage { src : string; complete : bool }.

(** What a frame does to the outside: the calls on the 2D context, in the
    order they are issued, and the debug line of [drawMoon], which carries
    the two values it prints. *)
Inductive event : Type :=
| save
| restore
| translate (x y : R)
| rotate (angle : R)
| beginPath
| closePath
| arc (x y radius startAngle endAngle : R)
| clip
| moveTo (x y : R)
| lineTo (x y : R)
| stroke
| fill
| fillRect (x y w h : R)
| clearRect (x y w h : R)
| fillText (text : string) (x y : R)
| drawImage (img : Image) (dx dy dw dh : R)
| strokeStyle (s : style)
| fillStyle (s : style)
| lineWidth (w : R)
| lineCap (s : string)
| font (s : string)
| textAlign (s : string)
| textBaseline (s : string)
| console_log (moonAge : R) (phaseIndex : Z).

(* ================================================================== *)
(** * The monad of a drawing routine

    The wall clock is an oracle: [clock k] is the value the [k]-th read of
    the time returns.  A computation gets the oracle and the number of
    reads made so far, and yields its result, the new number of reads and
    the events it issued. *)

Definition Clock : Type := nat -> Z.

Definition M (A : Type) : Type := Clock -> nat -> A * nat * list event.

Definition ret {A} (a : A) : M A := fun _ n => (a, n, []).

Definition bind {A B} (m : M A) (f : A -> M B) : M B :=
  fun clk n =>
    let r1 := m clk n in
    let r2 := f (fst (fst r1)) clk (snd (fst r1)) in
    (fst (fst r2), snd (fst r2), snd r1 ++ snd r2).

Notation "x <- m ;; k" := (bind m (fun x => k))
  (at level 61, m at next level, right associativity).
Notation "m ;; k" := (bind m (fun _ => k))
  (at level 61, right associativity).

(** [Date.now()], and the time value of [new Date()]. *)
Definition Date_now : M Z := fun clk n => (clk n, S n, []).

(** One call on the context. *)
Definition ctx (e : event) : M unit := fun _ n => (tt, n, [e]).

(** A [for] loop, or [forEach], over the values of its index. *)
Fixpoint forEach {A} (l : list A) (body : A -> M unit) : M unit :=
  match l with
  | [] => ret tt
  | a :: l' => body a ;; forEach l' body
  end.

(** The result and the events of a computation. *)
Definition result {A} (m : M A) (clk : Clock) (n : nat) : A := fst (fst (m clk n)).
Definition events {A} (m : M A) (clk : Clock) (n : nat) : list event := snd (m clk n).

(** The clock that stands still at [t]. *)
Definition frozen (clk : Clock) (t : Z) : Prop := forall k, clk k = t.

(** [Number.prototype.toString] on an integral value. *)
Definition toString (n : Z) : string := NilZero.string_of_int (Z.to_int n).

(** [Math.atan2]. *)
Definition atan2 (y x : R) : R :=
  if Rlt_dec 0 x then atan (y / x)
  else if Rlt_dec x 0 then
    (if Rle_dec 0 y then atan (y / x) + PI else atan (y / x) - PI)
  else if Rlt_dec 0 y then PI / 2
  else if Rlt_dec y 0 then - PI / 2
  else 0.

(** The integers from [lo] to [hi], both included. *)
Definition Zrange (lo hi : Z) : list Z :=
  map (fun k => (lo + Z.of_nat k)%Z) (seq 0 (Z.to_nat (hi - lo + 1))).

(** Array indexing: a hole and an index past the end both read [undefined]. *)
Definition index {A} (a : list (option A)) (i : Z) : option A :=
  if (i <? 0)%Z then None
  else match nth_error a (Z.to_nat i) with
       | Some (Some x) => Some x
       | _ => None
       end.

(** A string's characters with their positions, as [forEach((ch, i) => ...)]
    visits them. *)
Definition indexed {A} (l : list A) : list (A * nat) :=
  combine l (seq 0 (List.length l)).

(* ================================================================== *)
(** * The layer renderer

    The drawing routines are closures of the drawing effect of [Home]: they
    capture the GMT offset and the images-loaded flag of the render in
    which the effect ran, the table of moon-phase images and the case
    image; the zone of the host is a parameter as well.  The guard
    [if (!ctx) return] at the head of each routine never fires: the effect
    returns before it defines them when there is no context. *)

Section Renderer.

Variable LocalTZA : Z -> Z.
Variable gmtOffset : Z.
Variable moonImagesLoaded : bool.
Variable moonPhaseImages : list (option Image).
Variable caseImage : Image.

Local Open Scope string_scope.

Definition size : R := 560.
Definition c : R := size / 2.
Definition r : R := size * 0.42.

Definition drawGuilloche (breathe : R) : M unit :=
  ctx save ;;
  ctx (translate c c) ;;
  ctx beginPath ;;
  ctx (arc 0 0 (r * 0.92) 0 (PI * 2)) ;;
  ctx clip ;;
  let circleRadius := r * 0.018 in
  let spacing := circleRadius * 1.8 in
  let rows := JS.ceil (r * 2.5 / spacing) in
  let cols := JS.ceil (r * 2.5 / spacing) in
  forEach (Zrange (- rows) rows) (fun row =>
    forEach (Zrange (- cols) cols) (fun col =>
      let x := IZR col * spacing in
      let y := IZR row * spacing in
      let dist := sqrt (x * x + y * y) in
      if Rlt_dec dist (r * 0.92) then
        ctx beginPath ;;
        ctx (arc x y circleRadius 0 (PI * 2)) ;;
        let angle := atan2 y x in
        now <- Date_now ;;
        let shimmerPhase := sin (IZR now / 2000 + angle * 2) * 0.5 + 0.5 in
        let directionalBreathe := breathe * 0.3 + shimmerPhase * 0.15 in
        let baseOpacity := 0.025 in
        ctx (strokeStyle
               (Solid (Rgba 0 0 0 (baseOpacity + directionalBreathe * 0.03)))) ;;
        ctx (lineWidth 0.3) ;;
        ctx stroke
      else ret tt)) ;;
  ctx restore ;;
  ctx save ;;
  ctx (translate c c) ;;
  ctx beginPath ;;
  ctx (arc 0 0 (r * 0.92) 0 (PI * 2)) ;;
  ctx (strokeStyle (Solid (Rgba 0 0 0 0.15))) ;;
  ctx (lineWidth 0.5) ;;
  ctx stroke ;;
  ctx restore.

Definition drawMinuteTrack : M unit :=
  forEach (seq 0 60) (fun i =>
    let a := (INR i * PI) / 30 - PI / 2 in
    let outer := r * 0.985 in
    let inner := r * (if (i mod 5 =? 0)%nat then 0.95 else 0.965) in
    ctx beginPath ;;
    ctx (moveTo (c + cos a * inner) (c + sin a * inner)) ;;
    ctx (lineTo (c + cos a * outer) (c + sin a * outer)) ;;
    ctx (strokeStyle (Solid (Css "#f5f5f0"))) ;;
    ctx (lineWidth (if (i mod 5 =? 0)%nat then 2 else 1)) ;;
    ctx stroke).

(** The sparkle of baton [i] at [time] seconds. *)
Definition batonSparkle (time : R) (i : nat) : R :=
  sin (time * 0.25 + INR i * 1.3) * 0.5 + 0.5.

Definition drawBatons : M unit :=
  let outerRadius := r * 0.88 in
  let normalBatonLength := 20 in
  let shortBatonLength := 12 in
  now <- Date_now ;;
  let time := IZR now / 1000 in
  forEach (seq 0 12) (fun i =>
    let a := (INR i * PI) / 6 - PI / 2 in
    let batonLength :=
      if ((i =? 3) || (i =? 6) || (i =? 9))%nat
      then shortBatonLength else normalBatonLength in
    let outer := outerRadius in
    let inner := outer - batonLength in
    let perpAngle := a + PI / 2 in
    let gradOffset := 2.5 in
    let x1 := c + cos a * ((inner + outer) / 2) + cos perpAngle * gradOffset in
    let y1 := c + sin a * ((inner + outer) / 2) + sin perpAngle * gradOffset in
    let x2 := c + cos a * ((inner + outer) / 2) - cos perpAngle * gradOffset in
    let y2 := c + sin a * ((inner + outer) / 2) - sin perpAngle * gradOffset in
    let batonGradient :=
      LinearGradient x1 y1 x2 y2
        [(0, Css "#a87d45"); (0.3, Css "#d4a574"); (0.5, Css "#f0d4c3");
         (0.7, Css "#d4a574"); (1, Css "#8f6a3a")] in
    ctx beginPath ;;
    ctx (moveTo (c + cos a * inner) (c + sin a * inner)) ;;
    ctx (lineTo (c + cos a * outer) (c + sin a * outer)) ;;
    ctx (strokeStyle (Grad batonGradient)) ;;
    ctx (lineWidth 5) ;;
    ctx (lineCap "square") ;;
    ctx stroke ;;
    let sparkle := batonSparkle time i in
    if Rgt_dec sparkle 0.88 then
      let sparklePos := (inner + outer) / 2 in
      let sx := c + cos a * sparklePos in
      let sy := c + sin a * sparklePos in
      let intensity := (sparkle - 0.88) * 8 in
      ctx (fillStyle (Solid (Rgba 255 255 255 intensity))) ;;
      ctx save ;;
      ctx (translate sx sy) ;;
      ctx (rotate (a + PI / 2)) ;;
      ctx (fillRect (-2) (-0.5) 4 1) ;;
      ctx (fillRect (-0.5) (-2) 1 4) ;;
      ctx restore
    else ret tt).

Definition drawBreguetHand (angle len : R) (col : string) : M unit :=
  ctx save ;;
  ctx (translate c c) ;;
  ctx (rotate (angle - PI / 2)) ;;
  let pommeRadius := 12 in
  let pommePosition := len * 0.75 in
  let handGradient :=
    LinearGradient 0 (-4) 0 4
      [(0, Css "#c89968"); (0.25, Css "#F0D4C3"); (0.5, Css "#fae8d8");
       (0.75, Css "#F0D4C3"); (1, Css "#b88958")] in
  ctx beginPath ;;
  ctx (moveTo 0 (-3.5)) ;;
  ctx (lineTo (pommePosition - pommeRadius) (-1.8)) ;;
  ctx (lineTo (pommePosition - pommeRadius) 1.8) ;;
  ctx (lineTo 0 3.5) ;;
  ctx closePath ;;
  ctx (fillStyle (Grad handGradient)) ;;
  ctx fill ;;
  ctx beginPath ;;
  ctx (moveTo (pommePosition + pommeRadius) (-1.2)) ;;
  ctx (lineTo len (-0.4)) ;;
  ctx (lineTo len 0.4) ;;
  ctx (lineTo (pommePosition + pommeRadius) 1.2) ;;
  ctx closePath ;;
  ctx (fillStyle (Grad handGradient)) ;;
  ctx fill ;;
  ctx beginPath ;;
  ctx (arc pommePosition 0 pommeRadius 0 (PI * 2)) ;;
  let pommeGradient :=
    LinearGradient pommePosition (- pommeRadius) pommePosition pommeRadius
      [(0, Css "#c89968"); (0.5, Css "#fae8d8"); (1, Css "#b88958")] in
  ctx (strokeStyle (Grad pommeGradient)) ;;
  ctx (lineWidth 2.5) ;;
  ctx stroke ;;
  now <- Date_now ;;
  let time := IZR now / 1000 in
  let sparkle1 := JS.max 0 (sin (time * 0.4 + angle * 3.7) * 0.5 + 0.5) in
  let sparkle2 := JS.max 0 (sin (time * 0.3 + angle * 5.1 + 2.5) * 0.5 + 0.5) in
  (if Rgt_dec sparkle1 0.85 then
     let sparklePos := pommePosition * 0.4 in
     ctx (fillStyle (Solid (Rgba 255 255 255 ((sparkle1 - 0.85) * 6)))) ;;
     ctx (fillRect (sparklePos - 1) (-0.5) 2 1) ;;
     ctx (fillRect (sparklePos - 0.5) (-1) 1 2)
   else ret tt) ;;
  (if Rgt_dec sparkle2 0.85 then
     let sparklePos :=
       pommePosition + pommeRadius + (len - pommePosition - pommeRadius) * 0.5 in
     ctx (fillStyle (Solid (Rgba 255 255 255 ((sparkle2 - 0.85) * 6)))) ;;
     ctx (fillRect (sparklePos - 1) (-0.5) 2 1) ;;
     ctx (fillRect (sparklePos - 0.5) (-1) 1 2)
   else ret tt) ;;
  ctx restore.

Definition drawSecondsHand (angle : R) : M unit :=
  let len := r * 0.85 in
  let counterbalanceRadius := 5 in
  ctx save ;;
  ctx (translate c c) ;;
  ctx (rotate (angle - PI / 2)) ;;
  let secondsGradient :=
    LinearGradient 0 (-1) 0 1
      [(0, Css "#c89968"); (0.5, Css "#fae8d8"); (1, Css "#b88958")] in
  ctx beginPath ;;
  ctx (moveTo (- r * 0.15) 0) ;;
  ctx (lineTo len 0) ;;
  ctx (strokeStyle (Grad secondsGradient)) ;;
  ctx (lineWidth 1.5) ;;
  ctx stroke ;;
  let counterbalanceGrad :=
    RadialGradient (- r * 0.15) 0 0 (- r * 0.15) 0 counterbalanceRadius
      [(0, Css "#fae8d8"); (0.6, Css "#F0D4C3"); (1, Css "#b88958")] in
  ctx beginPath ;;
  ctx (arc (- r * 0.15) 0 counterbalanceRadius 0 (PI * 2)) ;;
  ctx (fillStyle (Grad counterbalanceGrad)) ;;
  ctx fill ;;
  now <- Date_now ;;
  let time := IZR now / 1000 in
  let sparkle := sin (time * 0.5 + angle * 1.7) * 0.5 + 0.5 in
  (if Rgt_dec sparkle 0.88 then
     let sparklePos := len * 0.7 in
     ctx (fillStyle (Solid (Rgba 255 255 255 ((sparkle - 0.88) * 8)))) ;;
     ctx (fillRect (sparklePos - 1) (-0.5) 2 1) ;;
     ctx (fillRect (sparklePos - 0.5) (-1) 1 2)
   else ret tt) ;;
  ctx restore.

Definition drawGMTHand (angle : R) : M unit :=
  let len := r * 0.65 in
  let arrowSize := 8 in
  ctx save ;;
  ctx (translate c c) ;;
  ctx (rotate (angle - PI / 2)) ;;
  ctx beginPath ;;
  ctx (moveTo 0 0) ;;
  ctx (lineTo (len - arrowSize) 0) ;;
  ctx (strokeStyle (Solid (Css "#b00020"))) ;;
  ctx (lineWidth 3) ;;
  ctx (lineCap "round") ;;
  ctx stroke ;;
  ctx beginPath ;;
  ctx (moveTo (len - arrowSize) (-5)) ;;
  ctx (lineTo len 0) ;;
  ctx (lineTo (len - arrowSize) 5) ;;
  ctx closePath ;;
  ctx (fillStyle (Solid (Css "#b00020"))) ;;
  ctx fill ;;
  ctx restore.

Definition drawMoon (date : Date) : M unit :=
  let rr := r * 0.18 in
  let y := c + r * 0.56 in
  ctx save ;;
  let moonAge := JS.wrap (days_since_ref date) LUNAR_CYCLE in
  ctx beginPath ;;
  ctx (arc c y rr 0 (PI * 2)) ;;
  ctx clip ;;
  (if moonImagesLoaded && (0 <? List.length moonPhaseImages)%nat then
     let phaseIndex := getMoonPhaseImage moonAge in
     let moonPhaseImg := index moonPhaseImages phaseIndex in
     (if (Z.rem (getTime date / 1000) 10 =? 0)%Z
      then ctx (console_log moonAge phaseIndex) else ret tt) ;;
     let moonSize := rr * 2 in
     match moonPhaseImg with
     | Some img =>
         if complete img
         then ctx (drawImage img (c - rr) (y - rr) moonSize moonSize)
         else ret tt
     | None => ret tt
     end
   else
     ctx (fillStyle (Solid (Css "#1e3a8a"))) ;;
     ctx fill) ;;
  ctx restore ;;
  ctx beginPath ;;
  ctx (arc c y rr 0 (PI * 2)) ;;
  ctx (strokeStyle (Solid (Css "#c0c0c0"))) ;;
  ctx (lineWidth 2.5) ;;
  ctx stroke ;;
  ctx beginPath ;;
  ctx (arc c y (rr - 1.5) 0 (PI * 2)) ;;
  ctx (strokeStyle (Solid (Css "#0b1d3a"))) ;;
  ctx (lineWidth 1) ;;
  ctx stroke.

Definition drawSidereal (date : Date) (breathe : R) : M unit :=
  let rr := r * 0.23 in
  let x := c - r * 0.55 in
  let siderealGradient :=
    RadialGradient x c 0 x c rr
      [(0, Css "#1a2a4a"); (0.7, Css "#0f1a35"); (1, Css "#0a0f20")] in
  ctx beginPath ;;
  ctx (arc x c rr 0 (PI * 2)) ;;
  ctx (fillStyle (Grad siderealGradient)) ;;
  ctx fill ;;
  ctx (strokeStyle (Solid (Css "#F0D4C3"))) ;;
  ctx (lineWidth 2) ;;
  ctx stroke ;;
  ctx (fillStyle (Solid (Css "#F0D4C3"))) ;;
  ctx (font "12px serif") ;;
  ctx (textAlign "center") ;;
  ctx (textBaseline "middle") ;;
  ctx (fillText "12" x (c - rr * 0.65)) ;;
  ctx (fillText "3" (x + rr * 0.65) c) ;;
  ctx (fillText "6" x (c + rr * 0.65)) ;;
  ctx (fillText "9" (x - rr * 0.65) c) ;;
  ctx save ;;
  ctx (translate x c) ;;
  ctx (rotate (getSiderealAngle date + PI / 6)) ;;
  let siderealHandGrad :=
    LinearGradient 0 (-1) 0 1
      [(0, Css "#c89968"); (0.5, Css "#fae8d8"); (1, Css "#b88958")] in
  ctx beginPath ;;
  ctx (moveTo 0 0) ;;
  ctx (lineTo (rr * 0.55) 0) ;;
  ctx (strokeStyle (Grad siderealHandGrad)) ;;
  ctx (lineWidth 2) ;;
  ctx (lineCap "round") ;;
  ctx stroke ;;
  ctx restore.

Definition drawDate (date : Date) : M unit :=
  let w := r * 0.3 in
  let h := r * 0.2 in
  let x := c + r * 0.55 - w / 2 in
  let centerY := c in
  let leftHeight := h * 0.7 in
  let rightHeight := h in
  ctx beginPath ;;
  ctx (moveTo x (centerY - leftHeight / 2)) ;;
  ctx (lineTo (x + w) (centerY - rightHeight / 2)) ;;
  ctx (lineTo (x + w) (centerY + rightHeight / 2)) ;;
  ctx (lineTo x (centerY + leftHeight / 2)) ;;
  ctx closePath ;;
  ctx (fillStyle (Solid (Css "#0f1a35"))) ;;
  ctx fill ;;
  ctx save ;;
  let topShadow :=
    LinearGradient (x + w / 2) (centerY - rightHeight / 2)
                   (x + w / 2) (centerY - rightHeight / 2 + 8)
      [(0, Rgba 0 0 0 0.5); (1, Rgba 0 0 0 0)] in
  ctx beginPath ;;
  ctx (moveTo x (centerY - leftHeight / 2)) ;;
  ctx (lineTo (x + w) (centerY - rightHeight / 2)) ;;
  ctx (lineTo (x + w) (centerY - rightHeight / 2 + 8)) ;;
  ctx (lineTo x (centerY - leftHeight / 2 + 6)) ;;
  ctx closePath ;;
  ctx (fillStyle (Grad topShadow)) ;;
  ctx fill ;;
  let leftShadow :=
    LinearGradient x centerY (x + 6) centerY
      [(0, Rgba 0 0 0 0.4); (1, Rgba 0 0 0 0)] in
  ctx beginPath ;;
  ctx (moveTo x (centerY - leftHeight / 2)) ;;
  ctx (lineTo (x + 6) (centerY - leftHeight / 2 + 3)) ;;
  ctx (lineTo (x + 6) (centerY + leftHeight / 2 - 3)) ;;
  ctx (lineTo x (centerY + leftHeight / 2)) ;;
  ctx closePath ;;
  ctx (fillStyle (Grad leftShadow)) ;;
  ctx fill ;;
  ctx restore ;;
  ctx beginPath ;;
  ctx (moveTo x (centerY - leftHeight / 2)) ;;
  ctx (lineTo (x + w) (centerY - rightHeight / 2)) ;;
  ctx (lineTo (x + w) (centerY + rightHeight / 2)) ;;
  ctx (lineTo x (centerY + leftHeight / 2)) ;;
  ctx closePath ;;
  ctx (strokeStyle (Solid (Css "#F0D4C3"))) ;;
  ctx (lineWidth 2) ;;
  ctx stroke ;;
  ctx (fillStyle (Solid (Css "#F0D4C3"))) ;;
  ctx (font "28px 'Palatino Linotype', serif") ;;
  ctx (textAlign "center") ;;
  ctx (textBaseline "middle") ;;
  ctx (fillText (toString (getDate LocalTZA date)) (x + w / 2) centerY).

(** One word of the marking, laid letter by letter along its arc. *)
Definition arcText (word : string) (start step radius : R) : M unit :=
  forEach (indexed (rev (list_ascii_of_string word))) (fun chi =>
    let ch := fst chi in
    let i := snd chi in
    let a := start + INR i * step in
    ctx save ;;
    ctx (rotate a) ;;
    ctx (translate 0 (- radius)) ;;
    ctx (rotate PI) ;;
    ctx (fillText (String ch EmptyString) 0 0) ;;
    ctx restore).

Definition drawSwissMade : M unit :=
  let swiss := "SWISS" in
  let made := "MADE" in
  let radius := r * 0.82 in
  ctx save ;;
  ctx (translate c c) ;;
  ctx (font "8px serif") ;;
  ctx (fillStyle (Solid (Css "#e5e4e2"))) ;;
  ctx (textAlign "center") ;;
  ctx (textBaseline "middle") ;;
  let swissArcLength := PI / 8 in
  let swissCenter := (7 * PI) / 6 - PI / 12 in
  let swissStart := swissCenter - swissArcLength / 2 in
  let swissStep := swissArcLength / (INR (String.length swiss) - 1) in
  arcText swiss swissStart swissStep radius ;;
  let madeArcLength := PI / 10 in
  let madeCenter := (11 * PI) / 12 in
  let madeStart := madeCenter - madeArcLength / 2 in
  let madeStep := madeArcLength / (INR (String.length made) - 1) in
  arcText made madeStart madeStep radius ;;
  ctx restore.

Definition drawCase : M unit :=
  ctx (drawImage caseImage 0 0 size size).

Definition drawCrystal (breathe : R) : M unit :=
  ctx save ;;
  let edgeGradient :=
    RadialGradient c c (r * 0.85) c c r
      [(0, Rgba 255 255 255 0); (0.7, Rgba 255 255 255 0);
       (0.85, Rgba 255 255 255 0.04); (1, Rgba 255 255 255 0.08)] in
  ctx beginPath ;;
  ctx (arc c c r 0 (PI * 2)) ;;
  ctx (fillStyle (Grad edgeGradient)) ;;
  ctx fill ;;
  let reflectionIntensity := 0.08 + breathe * 0.02 in
  let reflectionGradient :=
    LinearGradient (c - r * 0.6) (c - r * 0.8) (c + r * 0.6) (c + r * 0.3)
      [(0, Rgba 255 255 255 0);
       (0.3, Rgba 255 255 255 reflectionIntensity);
       (0.5, Rgba 255 255 255 (reflectionIntensity * 1.5));
       (0.7, Rgba 255 255 255 reflectionIntensity);
       (1, Rgba 255 255 255 0)] in
  ctx beginPath ;;
  ctx (arc c c r 0 (PI * 2)) ;;
  ctx clip ;;
  ctx (fillStyle (Grad reflectionGradient)) ;;
  ctx (fillRect (c - r) (c - r) (r * 2) (r * 2)) ;;
  now <- Date_now ;;
  let arTint := sin (IZR now / 5000) * 0.5 + 0.5 in
  let arGradient :=
    RadialGradient (c - r * 0.3) (c - r * 0.3) 0 c c r
      [(0, Rgba 100 150 255 (0.015 + arTint * 0.01));
       (0.4, Rgba 150 100 255 (0.01 + arTint * 0.008));
       (1, Rgba 100 150 255 0)] in
  ctx (fillStyle (Grad arGradient)) ;;
  ctx (fillRect (c - r) (c - r) (r * 2) (r * 2)) ;;
  let domeGradient :=
    RadialGradient (c - r * 0.2) (c - r * 0.2) 0 c c (r * 0.6)
      [(0, Rgba 255 255 255 0.03); (0.5, Rgba 255 255 255 0.01);
       (1, Rgba 255 255 255 0)] in
  ctx (fillStyle (Grad domeGradient)) ;;
  ctx (fillRect (c - r) (c - r) (r * 2) (r * 2)) ;;
  ctx restore.

(** The clock reading of [drawWatch]: seconds, minutes and hours with their
    fractions carried through, and the GMT hour. *)
Definition reading_s (now : Date) : R :=
  IZR (getSeconds LocalTZA now) + IZR (getMilliseconds LocalTZA now) / 1000.
Definition reading_m (now : Date) : R :=
  IZR (getMinutes LocalTZA now) + reading_s now / 60.
Definition reading_h (now : Date) : R :=
  IZR (Z.rem (getHours LocalTZA now) 12) + reading_m now / 60.
Definition reading_g (now : Date) : R :=
  JS.rem (IZR (getHours LocalTZA now) + IZR gmtOffset + reading_m now / 60) 24.

(** The angle handed to [drawGMTHand]. *)
Definition gmtAngle (now : Date) : R := (reading_g now * PI) / 12.

(** The breathing phase of a frame. *)
Definition breathing (now : Z) : R := sin (IZR now / 3000) * 0.5 + 0.5.

Definition drawWatch : M unit :=
  ctx (clearRect 0 0 size size) ;;
  t0 <- Date_now ;;
  let breathe := breathing t0 in
  let dialGradient :=
    RadialGradient c c 0 c c r
      [(0, Css "#1a2a4a"); (0.7, Css "#0f1a35"); (1, Css "#0a0f20")] in
  ctx beginPath ;;
  ctx (arc c c r 0 (PI * 2)) ;;
  ctx (fillStyle (Grad dialGradient)) ;;
  ctx fill ;;
  ctx (strokeStyle (Solid (Css "#0a0f20"))) ;;
  ctx (lineWidth 4) ;;
  ctx stroke ;;
  drawMinuteTrack ;;
  drawBatons ;;
  ctx (fillStyle (Solid (Css "#F0D4C3"))) ;;
  ctx (textAlign "center") ;;
  ctx (textBaseline "middle") ;;
  ctx (font "26px serif") ;;
  ctx (fillText "XII" c (c - r * 0.72)) ;;
  ctx (font "22px serif") ;;
  let smallNumerals :=
    [("I", - PI / 2 + PI / 6);
     ("II", - PI / 2 + 2 * PI / 6);
     ("IV", - PI / 2 + 4 * PI / 6);
     ("V", - PI / 2 + 5 * PI / 6);
     ("VII", - PI / 2 + 7 * PI / 6);
     ("VIII", - PI / 2 + 8 * PI / 6);
     ("X", - PI / 2 + 10 * PI / 6);
     ("XI", - PI / 2 + 11 * PI / 6)] in
  forEach smallNumerals (fun numeral =>
    let text := fst numeral in
    let angle := snd numeral in
    let radius := r * 0.70 in
    let x := c + cos angle * radius in
    let y := c + sin angle * radius in
    ctx (fillText text x y)) ;;
  ctx (fillStyle (Solid (Css "#e5e4e2"))) ;;
  ctx (font "18px serif") ;;
  ctx (fillText "David Turner" c (c - r * 0.48)) ;;
  ctx (font "14px serif") ;;
  ctx (fillText "Horology" c (c - r * 0.40)) ;;
  drawSwissMade ;;
  t <- Date_now ;;
  let now := mkDate t in
  let s := reading_s now in
  let m := reading_m now in
  let h := reading_h now in
  let g := reading_g now in
  drawMoon now ;;
  drawSidereal now breathe ;;
  drawDate now ;;
  drawGMTHand ((g * PI) / 12) ;;
  drawBreguetHand ((h * PI) / 6) (r * 0.5) "#F0D4C3" ;;
  drawBreguetHand ((m * PI) / 30) (r * 0.7) "#F0D4C3" ;;
  drawSecondsHand ((s * PI) / 30) ;;
  ctx beginPath ;;
  ctx (arc c c 4 0 (PI * 2)) ;;
  ctx (fillStyle (Solid (Css "#111"))) ;;
  ctx fill ;;
  drawCase ;;
  drawCrystal breathe.

End Renderer.

(* ================================================================== *)
(** * The moon-image loader

    The mount effect of [Home]: the eight files are fetched, each fetch
    that fails is caught, logged and yields [null]; an image element is
    made for every URL obtained and stored at its index; the array is then
    published through [moonPhaseImagesRef].  Afterwards the elements fire
    their load and error events in any order. *)

Module Loader.

Local Open Scope string_scope.

Definition moonPhaseFiles : list string :=
  ["New_Moon.svg"; "Waxing_Crescent.svg"; "First_Quarter.svg";
   "Waxing_Gibbous.svg"; "Full_Moon.svg"; "Waning_Gibbous.svg";
   "Last_Quarter.svg"; "Waning_Crescent.svg"].

Inductive console_entry : Type :=
| error_loading (file : string)
| loaded_moon_phase (index loadedCount : nat)
| all_loaded
| failed_to_create_image (index : nat).

(** The state the effect and the handlers share.  [images] is the array
    the effect fills; [moonPhaseImagesRef] holds the same array once it is
    published, so one field stands for both. *)
Record state : Type := mkState {
  loadedCount : nat;
  images : list (option Image);
  moonImagesLoaded : bool;
  console : list console_entry
}.

(** [a[i] = x] on an array: a write past the end extends it with holes. *)
Fixpoint array_set {A} (a : list (option A)) (i : nat) (x : A)
  : list (option A) :=
  match i, a with
  | O, [] => [Some x]
  | O, _ :: a' => Some x :: a'
  | S i', [] => None :: array_set [] i' x
  | S i', y :: a' => y :: array_set a' i' x
  end.

(** The outcome of the fetch chain of one file: its object URL, or [null]
    with the error logged. *)
Definition fetch_url (fetch_ok : string -> bool) (file : string)
  : option string :=
  if fetch_ok file then Some ("blob:" ++ file) else None.

Definition fetch_log (fetch_ok : string -> bool) (files : list string)
  : list console_entry :=
  map error_loading (filter (fun file => negb (fetch_ok file)) files).

(** The [urls.forEach] of the [then] callback, from index [index] on. *)
Fixpoint make_images (urls : list (option string)) (index : nat)
    (images : list (option Image)) : list (option Image) :=
  match urls with
  | [] => images
  | Some url :: urls' =>
      make_images urls' (S index) (array_set images index (mkImage url false))
  | None :: urls' => make_images urls' (S index) images
  end.

(** The state when the [then] callback has run. *)
Definition fetched (fetch_ok : string -> bool) : state :=
  mkState 0
    (make_images (map (fetch_url fetch_ok) moonPhaseFiles) 0 [])
    false
    (fetch_log fetch_ok moonPhaseFiles).

Inductive image_event : Type :=
| onload (index : nat)
| onerror (index : nat).

(** Marks the element at [i] as completely loaded. *)
Fixpoint set_complete (a : list (option Image)) (i : nat)
  : list (option Image) :=
  match i, a with
  | _, [] => []
  | O, Some img :: a' => Some (mkImage (src img) true) :: a'
  | O, None :: a' => None :: a'
  | S i', y :: a' => y :: set_complete a' i'
  end.

Definition pending (a : list (option Image)) (i : nat) : bool :=
  match nth_error a i with
  | Some (Some img) => negb (complete img)
  | _ => false
  end.

(** One event of an image element.  An element fires its load event once,
    while it is still pending; the handler counts it and raises the flag
    when the count reaches the number of files.  [complete] records here
    that the load event of the element has been delivered.  The attribute
    of the browser is true as well of an element whose load has failed; a
    frame reads the attribute only with the flag up, that is after eight
    load events, when no element of the table is one of those. *)
Definition step (st : state) (e : image_event) : state :=
  match e with
  | onload index =>
      if pending (images st) index then
        let loadedCount' := S (loadedCount st) in
        let all := (loadedCount' =? List.length moonPhaseFiles)%nat in
        mkState loadedCount'
          (set_complete (images st) index)
          (if all then true else moonImagesLoaded st)
          (console st
             ++ [loaded_moon_phase index loadedCount']
             ++ (if all then [all_loaded] else []))
      else st
  | onerror index =>
      if pending (images st) index then
        mkState (loadedCount st) (images st) (moonImagesLoaded st)
          (console st ++ [failed_to_create_image index])
      else st
  end.

Definition run (st : state) (evs : list image_event) : state :=
  fold_left step evs st.

End Loader.

(* ================================================================== *)
(** * Observations on the events of a frame *)

(** The angles of the [rotate] calls, in order. *)
Definition rotations (l : list event) : list R :=
  flat_map (fun e => match e with rotate a => [a] | _ => [] end) l.

Definition is_fill (e : event) : bool :=
  match e with fill => true | _ => false end.

(** The images drawn, in order. *)
Definition drawn_images (l : list event) : list Image :=
  flat_map (fun e => match e with drawImage i _ _ _ _ => [i] | _ => [] end) l.

(** The opacities written into a colour, a style, an event. *)
Definition color_alphas (col : color) : list R :=
  match col with
  | Css _ => []
  | Rgba _ _ _ a => [a]
  end.

Definition gradient_stops (g : gradient) : list (R * color) :=
  match g with
  | LinearGradient _ _ _ _ stops => stops
  | RadialGradient _ _ _ _ _ _ stops => stops
  end.

Definition style_alphas (s : style) : list R :=
  match s with
  | Solid col => color_alphas col
  | Grad g => flat_map (fun st => color_alphas (snd st)) (gradient_stops g)
  end.

Definition event_alphas (e : event) : list R :=
  match e with
  | strokeStyle s => style_alphas s
  | fillStyle s => style_alphas s
  | _ => []
  end.


(** The period of the moon age and the length of a day, in milliseconds. *)
Definition lunar_cycle_ms : Z := 2551442976.
Definition day_ms : Z := 86400000.

(** The instant [ms] milliseconds after the instant of [date]. *)
Definition later (date : Date) (ms : Z) : Date := mkDate (getTime date + ms).

(** The sidereal angle in the words of the specification: the Julian date
    of the epoch milliseconds, the days since J2000, the mean sidereal time
    in degrees reduced modulo 360, the longitude added, the sum reduced
    modulo 360 again, and the degrees turned into radians.  The reduction
    modulo 360 is the mathematical one. *)
Definition mod360 (x : R) : R := x - 360 * IZR (JS.floor (x / 360)).

Definition siderealAngle_spec (ms : Z) : R :=
  let JD := IZR ms / 86400000 + 2440587.5 in
  let daysSinceJ2000 := JD - 2451545.0 in
  let GMST := mod360 (280.46061837 + 360.98564736629 * daysSinceJ2000) in
  let LST := mod360 (GMST + -0.1278) in
  LST / 360 * (2 * PI).

(** The drift of the sidereal angle over one solar day, in radians. *)
Definition daily_drift : R := 0.98564736629 / 360 * (2 * PI).

(** The frame of the moon subdial: the calls of [drawMoon] before and
    after the part that depends on the images. *)
Definition moon_aperture : list event :=
  [save; beginPath; arc c (c + r * 0.56) (r * 0.18) 0 (PI * 2); clip].

Definition moon_rings : list event :=
  [restore;
   beginPath; arc c (c + r * 0.56) (r * 0.18) 0 (PI * 2);
   strokeStyle (Solid (Css "#c0c0c0")); lineWidth 2.5; stroke;
   beginPath; arc c (c + r * 0.56) (r * 0.18 - 1.5) 0 (PI * 2);
   strokeStyle (Solid (Css "#0b1d3a")); lineWidth 1; stroke].

(** The flat fill of the fallback branch. *)
Definition moon_fallback : list event :=
  [fillStyle (Solid (Css "#1e3a8a")); fill].

(** The selected element is missing or is not complete. *)
Definition handle_not_ready (imgs : list (option Image)) (date : Date) : Prop :=
  match index imgs (getMoonPhaseImage (moonAge date)) with
  | Some img => complete img = false
  | None => True
  end.

(** Counting the elements of the table: those present, those complete. *)
Definition slot {A} (a : list (option A)) (i : nat) : option A :=
  match nth_error a i with
  | Some (Some x) => Some x
  | _ => None
  end.

Definition is_present (o : option Image) : bool :=
  match o with Some _ => true | None => false end.

Definition is_complete (o : option Image) : bool :=
  match o with Some img => complete img | None => false end.

Definition present (a : list (option Image)) : nat :=
  List.length (filter is_present a).

Definition completed (a : list (option Image)) : nat :=
  List.length (filter is_complete a).

(** The number of URLs the fetches obtained. *)
Definition count_urls (urls : list (option string)) : nat :=
  List.length (filter (fun u => match u with Some _ => true | None => false end)
                 urls).

(** The invariant of the load events when fewer than eight elements were
    made: the count is the number of complete elements, and the flag is
    down. *)
Definition few_images (st : Loader.state) : Prop :=
  (present (Loader.images st) < List.length Loader.moonPhaseFiles)%nat
  /\ Loader.loadedCount st = completed (Loader.images st)
  /\ Loader.moonImagesLoaded st = false.

(** Every opacity an event carries lies between [lo] and [hi]. *)
Definition alphas_within (lo hi : R) (e : event) : Prop :=
  Forall (fun a => lo <= a <= hi) (event_alphas e).

(** Every opacity an event carries is a valid one. *)
Definition alpha_ok (e : event) : Prop := alphas_within 0 1 e.

(** Every event a computation issues satisfies [P], whatever the clock. *)
Definition emits {A} (P : event -> Prop) (m : M A) : Prop :=
  forall clk n, Forall P (events m clk n).

(** Under any two clocks that stand still at [t], and from any numbers of
    earlier reads, a computation yields the same result and issues the
    same events. *)
Definition frozen_deterministic {A} (t : Z) (m : M A) : Prop :=
  forall clk1 clk2 n1 n2,
    frozen clk1 t -> frozen clk2 t ->
    result m clk1 n1 = result m clk2 n2
    /\ events m clk1 n1 = events m clk2 n2.

(* ================================================================== *)
(** * The host shell: the GMT offset and the keys *)

(** The key handler of the first effect.  Each of its two tests queues an
    updater on the offset; [p] is the offset before the key, the result the
    offset after. *)
Definition handleKey (key : string) (p : Z) : Z :=
  let p := if (key =? "ArrowRight")%string then (p + 1)%Z else p in
  if (key =? "ArrowLeft")%string then (p - 1)%Z else p.

(** The offset after a sequence of key events. *)
Definition pressKeys (keys : list string) (p : Z) : Z :=
  fold_left (fun p key => handleKey key p) keys p.

(** The clean-up of the loading effect: the URL of every element of the
    array that starts with [blob:] is revoked; [forEach] skips the holes. *)
Definition revoked (images : list (option Image)) : list string :=
  flat_map (fun o => match o with
                     | Some img =>
                         if String.prefix "blob:" (src img) then [src img] else []
                     | None => []
                     end) images.

(** The angles [drawWatch] hands to the routines of the three hands. *)
Definition hourAngle (tza : Z -> Z) (now : Date) : R :=
  (reading_h tza now * PI) / 6.
Definition minuteAngle (tza : Z -> Z) (now : Date) : R :=
  (reading_m tza now * PI) / 30.
Definition secondAngle (tza : Z -> Z) (now : Date) : R :=
  (reading_s tza now * PI) / 30.

(** The invariant of the load events: the count is the number of complete
    elements, and the flag is up exactly when the count has reached the
    number of files. *)
Definition counted (st : Loader.state) : Prop :=
  Loader.loadedCount st = completed (Loader.images st)
  /\ Loader.moonImagesLoaded st
     = (List.length Loader.moonPhaseFiles <=? Loader.loadedCount st)%nat.

(* ================================================================== *)
(** * The state of the context

    Two parts of the drawing state of a 2D context are followed through
    the events: the depth of the stack of saved states, with the calls
    that change the coordinate system or the clipping region, and the line
    cap. *)

(** The calls whose effect lasts until the state is restored. *)
Definition transforms (e : event) : bool :=
  match e with
  | translate _ _ | rotate _ | clip => true
  | _ => false
  end.

(** One event at stack depth [d]: [None] when it restores a state that
    was not saved, or transforms or clips outside any saved state. *)
Definition scope_step (e : event) (d : nat) : option nat :=
  match e with
  | save => Some (S d)
  | restore => match d with O => None | S d' => Some d' end
  | _ => if transforms e && (d =? 0)%nat then None else Some d
  end.

Fixpoint scoped (l : list event) (d : nat) : option nat :=
  match l with
  | [] => Some d
  | e :: l' =>
      match scope_step e d with
      | Some d' => scoped l' d'
      | None => None
      end
  end.

(** A computation whose events take the stack from depth [d] to [d']
    without fault. *)
Definition keeps_scope {A} (m : M A) (d d' : nat) : Prop :=
  forall clk n, scoped (events m clk n) d = Some d'.

(** The line cap of the context and the line caps saved on its stack.
    Restoring with nothing saved does nothing. *)
Definition pen : Type := (string * list string)%type.

Definition cap_step (s : pen) (e : event) : pen :=
  match e with
  | save => (fst s, fst s :: snd s)
  | restore => match snd s with
               | [] => s
               | cap :: saved => (cap, saved)
               end
  | lineCap cap => (cap, snd s)
  | _ => s
  end.

Definition cap_run (l : list event) (s : pen) : pen := fold_left cap_step l s.

(** The line cap in effect at each [stroke], in order. *)
Fixpoint stroke_caps (l : list event) (s : pen) : list string :=
  match l with
  | [] => []
  | e :: l' =>
      (match e with stroke => [fst s] | _ => [] end)
      ++ stroke_caps l' (cap_step s e)
  end.

(** A computation whose events take the line cap and its stack from [s]
    to [s']. *)
Definition moves_pen {A} (m : M A) (s s' : pen) : Prop :=
  forall clk n, cap_run (events m clk n) s = s'.

(* ================================================================== *)
(** * The frame driver *)

(** The first [frames] rounds of [animate]: each draws a frame and asks
    for the next one. *)
Fixpoint animate (frames : nat) (frame : M unit) : M unit :=
  match frames with
  | O => ret tt
  | S k => frame ;; animate k frame
  end.

(** A computation that reads the clock exactly [k] times, and whose
    outcome depends on the clock through these [k] reads only. *)
Definition reads_from {A} (k : nat) (m : M A) : Prop :=
  (forall clk n, snd (fst (m clk n)) = (n + k)%nat)
  /\ (forall clk1 clk2 n,
         (forall j, (j < k)%nat -> clk1 (n + j)%nat = clk2 (n + j)%nat) ->
         m clk1 n = m clk2 n).


(* ================================================================== *)
(** * Where things land on the canvas

    The transformation of a 2D context takes the point [(x, y)] of a call
    to the canvas point [(a x + c y + e, b x + d y + f)].  [translate] and
    [rotate] multiply it on the right, [save] and [restore] push and pop
    it; restoring with nothing saved does nothing. *)

Record affine : Type := mkAffine { ma : R; mb : R; mc : R; md : R; me : R; mf : R }.

Definition identity : affine := mkAffine 1 0 0 1 0 0.

Definition apply_x (m : affine) (x y : R) : R := ma m * x + mc m * y + me m.
Definition apply_y (m : affine) (x y : R) : R := mb m * x + md m * y + mf m.

Definition translated (m : affine) (tx ty : R) : affine :=
  mkAffine (ma m) (mb m) (mc m) (md m) (apply_x m tx ty) (apply_y m tx ty).

Definition rotated (m : affine) (angle : R) : affine :=
  mkAffine (ma m * cos angle + mc m * sin angle)
           (mb m * cos angle + md m * sin angle)
           (- ma m * sin angle + mc m * cos angle)
           (- mb m * sin angle + md m * cos angle)
           (me m) (mf m).

(** The transformation and the stack of saved ones. *)
Definition frame_of_reference : Type := (affine * list affine)%type.

Definition xform_step (s : frame_of_reference) (e : event) : frame_of_reference :=
  match e with
  | save => (fst s, fst s :: snd s)
  | restore => match snd s with
               | [] => s
               | m :: saved => (m, saved)
               end
  | translate tx ty => (translated (fst s) tx ty, snd s)
  | rotate angle => (rotated (fst s) angle, snd s)
  | _ => s
  end.

Definition xform_run (l : list event) (s : frame_of_reference)
  : frame_of_reference := fold_left xform_step l s.

(** What is put where: a text with the canvas point of its anchor, the
    end of a line with its canvas point. *)
Inductive mark : Type :=
| text_at (text : string) (x y : R)
| line_to (x y : R).

Fixpoint marks (l : list event) (s : frame_of_reference) : list mark :=
  match l with
  | [] => []
  | e :: l' =>
      (match e with
       | fillText text x y =>
           [text_at text (apply_x (fst s) x y) (apply_y (fst s) x y)]
       | lineTo x y => [line_to (apply_x (fst s) x y) (apply_y (fst s) x y)]
       | _ => []
       end) ++ marks l' (xform_step s e)
  end.

(** The canvas point at distance [len] from the centre of the dial in the
    direction of the clock angle [theta]: 0 is twelve o'clock, and the
    angle grows clockwise. *)
Definition dial_x (len theta : R) : R := c + len * sin theta.
Definition dial_y (len theta : R) : R := c - len * cos theta.

(** A computation whose events take the transformation and its stack
    from [s] to [s']. *)
Definition moves_frame {A} (m : M A) (s s' : frame_of_reference) : Prop :=
  forall clk n, xform_run (events m clk n) s = s'.

(** A letter of the marking, anchored on the circle of radius [0.82 r] in
    the direction of the clock angle [a]. *)
Definition letter_at (text : string) (a : R) : mark :=
  text_at text (dial_x (r * 0.82) a) (dial_y (r * 0.82) a).

(** The canvas abscissa of a mark. *)
Definition mark_x (k : mark) : R :=
  match k with text_at _ x _ => x | line_to x _ => x end.

Definition mark_y (k : mark) : R :=
  match k with text_at _ _ y => y | line_to _ y => y end.

Definition mark_text (k : mark) : string :=
  match k with text_at text _ _ => text | line_to _ _ => EmptyString end.

(** A list of reals in strictly increasing order. *)
Fixpoint increasing (l : list R) : Prop :=
  match l with
  | [] => True
  | x :: l' => match l' with
               | [] => True
               | y :: _ => x < y /\ increasing l'
               end
  end.

(* ================================================================== *)
(** * Numbers as the engine holds them

    A JavaScript number is a binary64 floating-point number.  Wherever a
    value only turns the context or sets an opacity the source is read in
    exact reals, above; the moon age is compared with thresholds and
    rounded to an index, and for it the arithmetic of the source is also
    read as the engine performs it: every literal, sum, difference,
    product and quotient is rounded to the nearest number of 53
    significant bits, ties to the even one.  The exponent is not bounded:
    no value of these computations comes near the greatest or the least
    binary64 number.  The remainder [%] is exact on such numbers, and so
    is [JS.rem]. *)

Module Binary64.

Definition pow2 (e : Z) : R := powerRZ 2 e.

(** The exponent [e] of a number that is not zero:
    [pow2 e <= |x| < pow2 (e + 1)]. *)
Definition mag (x : R) : Z := Int_part (ln (Rabs x) / ln 2).

(** The nearest integer, the even one of two that are equally near. *)
Definition nearest_even (y : R) : Z :=
  let f := Int_part y in
  if Rlt_dec (y - IZR f) (1 / 2) then f
  else if Rlt_dec (1 / 2) (y - IZR f) then (f + 1)%Z
  else if Z.even f then f else (f + 1)%Z.

(** Rounding to 53 significant bits. *)
Definition round (x : R) : R :=
  if Req_dec_T x 0 then 0
  else IZR (nearest_even (x * pow2 (52 - mag x))) * pow2 (mag x - 52).

Definition add (x y : R) : R := round (x + y).
Definition sub (x y : R) : R := round (x - y).
Definition mul (x y : R) : R := round (x * y).
Definition div (x y : R) : R := round (x / y).

End Binary64.

(** The moon age and the two lookups of the source, on rounded numbers. *)
Module Rounded.

Import Binary64.

Definition LUNAR_CYCLE : R := round 29.53059.

(** [1000 * 60 * 60 * 24]. *)
Definition msPerDay : R := mul (mul (mul 1000 60) 60) 24.

Definition days_since_ref (date : Date) : R :=
  div (sub (IZR (getTime date)) (IZR (getTime ref))) msPerDay.

(** [((x % n) + n) % n]: the one addition rounds. *)
Definition wrap (x n : R) : R := JS.rem (add (JS.rem x n) n) n.

Definition moonAge (date : Date) : R :=
  wrap (days_since_ref date) LUNAR_CYCLE.

Definition getMoonPhaseIndex (date : Date) : Z :=
  let phase := wrap (days_since_ref date) LUNAR_CYCLE in
  Z.rem (JS.round (mul (div phase LUNAR_CYCLE) 8)) 8.

Definition getMoonPhaseImage (moonAge : R) : Z :=
  if Rlt_dec moonAge (round 1.84) then 0%Z
  else if Rlt_dec moonAge (round 7.38) then 1%Z
  else if Rlt_dec moonAge (round 9.23) then 2%Z
  else if Rlt_dec moonAge (round 14.77) then 3%Z
  else if Rlt_dec moonAge (round 16.61) then 4%Z
  else if Rlt_dec moonAge (round 22.15) then 5%Z
  else if Rlt_dec moonAge (round 23.99) then 6%Z
  else 7%Z.

End Rounded.

(** The time values a [Date] object can hold. *)
Definition valid (date : Date) : Prop :=
  (Z.abs (getTime date) <= 8640000000000000)%Z.

(** The bound on what rounding does to the moon age of a date, in days:
    it grows with the distance of the date from the reference. *)
Definition rounding_tolerance (date : Date) : R :=
  (2 * Rabs (days_since_ref date) + 150) * Binary64.pow2 (-53).

(** The number [getMoonPhaseIndex] hands to [Math.round]: the moon age in
    eighths of the cycle. *)
Definition eighths (date : Date) : R :=
  Binary64.mul
    (Binary64.div (Rounded.moonAge date) Rounded.LUNAR_CYCLE) 8.

(** The line cap of a context that has just been reset: the drawing effect
    sizes the canvas when it is set up, which resets the drawing state. *)
Definition fresh : pen := ("butt"%string, []).

(* ================================================================== *)
(** * The component

    [Home] holds the GMT offset and the images-loaded flag as state.  The
    drawing effect lists the offset alone as its dependency: it is set up
    again, over the values of that render, when a key has changed the
    offset, and not when the loader raises the flag.  The routines of the
    running loop therefore read the flag of the render in which the effect
    was last set up, [seen_flag]; the table of images is reached through a
    ref and is read as it is.  The component is followed from the moment
    the fetches have settled: until then the flag is down and no key can
    make the loop see it up. *)









(* ================================================================== *)
(** * Facts about the number primitives *)

Section RemFacts.

Lemma floor_spec (x : R) : IZR (JS.floor x) <= x < IZR (JS.floor x) + 1.
Proof.
  unfold JS.floor. destruct (base_Int_part x) as [H1 H2]. lra.
Qed.

Lemma floor_unique (x : R) (z : Z) : IZR z <= x < IZR z + 1 -> JS.floor x = z.
Proof.
  intros [H1 H2]. unfold JS.floor. symmetry. apply Int_part_spec. lra.
Qed.

Lemma trunc_nonneg (x : R) :
  0 <= x -> IZR (JS.trunc x) <= x < IZR (JS.trunc x) + 1.
Proof.
  intros Hx. unfold JS.trunc. destruct (Rle_dec 0 x) as [_ | Hn]; [| lra].
  apply floor_spec.
Qed.

Lemma trunc_neg (x : R) :
  x <= 0 -> IZR (JS.trunc x) - 1 < x <= IZR (JS.trunc x).
Proof.
  intros Hx. unfold JS.trunc. destruct (Rle_dec 0 x) as [Hp | Hn].
  - assert (x = 0) by lra. subst x.
    assert (E : JS.floor 0 = 0%Z) by (apply floor_unique; simpl; lra).
    unfold JS.floor in E. rewrite E. simpl. lra.
  - rewrite opp_IZR. pose proof (floor_spec (- x)) as H.
    unfold JS.floor in H. lra.
Qed.

(** The quotient of a division by a positive number, bracketed. *)
Lemma div_bracket (x y q : R) :
  0 < y -> (q <= x / y <-> q * y <= x) /\ (x / y < q <-> x < q * y).
Proof.
  intros Hy.
  assert (Hxy : x = (x / y) * y) by (field; lra).
  split; split; intros H.
  - rewrite Hxy. apply Rmult_le_compat_r; lra.
  - apply Rmult_le_reg_r with y; [lra |]. rewrite <- Hxy. exact H.
  - rewrite Hxy. apply Rmult_lt_compat_r; lra.
  - apply Rmult_lt_reg_r with y; [lra |]. rewrite <- Hxy. exact H.
Qed.

Lemma rem_nonneg (x y : R) : 0 < y -> 0 <= x -> 0 <= JS.rem x y < y.
Proof.
  intros Hy Hx. unfold JS.rem.
  assert (Hq : 0 <= x / y).
  { apply (proj1 (div_bracket x y 0 Hy)). lra. }
  destruct (trunc_nonneg (x / y) Hq) as [H1 H2].
  apply (proj1 (div_bracket x y _ Hy)) in H1.
  apply (proj2 (div_bracket x y _ Hy)) in H2. lra.
Qed.

Lemma div_bracket' (x y q : R) :
  0 < y -> (x / y <= q <-> x <= q * y) /\ (q < x / y <-> q * y < x).
Proof.
  intros Hy. destruct (div_bracket x y q Hy) as [A B].
  split; split; intros H.
  - destruct (Rle_or_lt x (q * y)) as [L | L]; [exact L |].
    assert (q * y <= x) as L' by lra. apply A in L'.
    destruct (Rle_lt_or_eq_dec _ _ L') as [S | S].
    + lra.
    + rewrite S. right. field. lra.
  - destruct (Rle_or_lt (x / y) q) as [L | L]; [exact L |].
    assert (q <= x / y) as L' by lra. apply A in L'.
    assert (x = q * y) as E by lra. rewrite E. right. field. lra.
  - destruct (Rle_or_lt x (q * y)) as [L | L]; [| exact L].
    destruct (Rle_lt_or_eq_dec _ _ L) as [S | S].
    + apply B in S. lra.
    + assert (x / y = q) by (rewrite S; field; lra). lra.
  - destruct (Rle_or_lt (x / y) q) as [L | L]; [| exact L].
    destruct (Rle_lt_or_eq_dec _ _ L) as [S | S].
    + apply B in S. lra.
    + assert (x = q * y) by (rewrite <- S; field; lra). lra.
Qed.

Lemma rem_nonpos (x y : R) : 0 < y -> x <= 0 -> - y < JS.rem x y <= 0.
Proof.
  intros Hy Hx. unfold JS.rem.
  assert (Hq : x / y <= 0).
  { apply (proj1 (div_bracket' x y 0 Hy)). lra. }
  destruct (trunc_neg (x / y) Hq) as [H1 H2].
  apply (proj2 (div_bracket' x y _ Hy)) in H1.
  apply (proj1 (div_bracket' x y _ Hy)) in H2. lra.
Qed.

Lemma rem_bounds (x y : R) : 0 < y -> - y < JS.rem x y < y.
Proof.
  intros Hy. destruct (Rle_or_lt 0 x) as [H | H].
  - pose proof (rem_nonneg x y Hy H). lra.
  - assert (x <= 0) as H' by lra. pose proof (rem_nonpos x y Hy H'). lra.
Qed.

(** Two numbers of [[0, y)] that differ by a whole multiple of [y] are equal. *)
Lemma congruent_unique (a b y : R) (k : Z) :
  0 < y -> 0 <= a < y -> 0 <= b < y -> a - b = IZR k * y -> a = b.
Proof.
  intros Hy Ha Hb E.
  assert (Hlt : - 1 < IZR k < 1).
  { split.
    - apply Rmult_lt_reg_r with y; [lra |]. lra.
    - apply Rmult_lt_reg_r with y; [lra |]. lra. }
  destruct Hlt as [Hl Hu].
  apply lt_IZR in Hl. apply lt_IZR in Hu.
  assert (k = 0%Z) by lia. subst k. lra.
Qed.

(** The idiom [((x % n) + n) % n] lands in [[0, n)] and moves [x] by a
    whole number of periods. *)
Lemma wrap_range (x y : R) : 0 < y -> 0 <= JS.wrap x y < y.
Proof.
  intros Hy. unfold JS.wrap. apply rem_nonneg; [exact Hy |].
  pose proof (rem_bounds x y Hy). lra.
Qed.

Lemma wrap_congruent (x y : R) : exists k : Z, JS.wrap x y = x + IZR k * y.
Proof.
  unfold JS.wrap, JS.rem.
  exists (1 - JS.trunc (x / y)
          - JS.trunc ((x - y * IZR (JS.trunc (x / y)) + y) / y))%Z.
  rewrite !minus_IZR. lra.
Qed.

Lemma wrap_unique (x y r : R) (k : Z) :
  0 < y -> 0 <= r < y -> r = x + IZR k * y -> JS.wrap x y = r.
Proof.
  intros Hy Hr E. destruct (wrap_congruent x y) as [j Hj].
  apply congruent_unique with (y := y) (k := (j - k)%Z); auto.
  - apply wrap_range; exact Hy.
  - rewrite minus_IZR. lra.
Qed.

Lemma wrap_id (x y : R) : 0 <= x < y -> JS.wrap x y = x.
Proof.
  intros H. apply wrap_unique with (k := 0%Z); lra.
Qed.

Lemma wrap_shift (x y : R) (k : Z) :
  0 < y -> JS.wrap (x + IZR k * y) y = JS.wrap x y.
Proof.
  intros Hy. destruct (wrap_congruent x y) as [j Hj].
  apply wrap_unique with (k := (j - k)%Z).
  - exact Hy.
  - apply wrap_range; exact Hy.
  - rewrite minus_IZR. lra.
Qed.

(** The idiom is the mathematical (floored) modulo. *)
Lemma wrap_floor (x y : R) :
  0 < y -> JS.wrap x y = x - y * IZR (JS.floor (x / y)).
Proof.
  intros Hy. destruct (floor_spec (x / y)) as [H1 H2].
  apply (proj1 (div_bracket x y _ Hy)) in H1.
  assert (H3 : x / y < IZR (JS.floor (x / y) + 1)) by (rewrite plus_IZR; lra).
  apply (proj2 (div_bracket x y _ Hy)) in H3. rewrite plus_IZR in H3.
  apply wrap_unique with (k := (- JS.floor (x / y))%Z).
  - exact Hy.
  - lra.
  - rewrite opp_IZR. lra.
Qed.

(** Normalising, adding and normalising again is normalising the sum. *)
Lemma wrap_wrap_plus (x c y : R) :
  0 < y -> JS.wrap (JS.wrap x y + c) y = JS.wrap (x + c) y.
Proof.
  intros Hy. destruct (wrap_congruent x y) as [j Hj]. rewrite Hj.
  replace (x + IZR j * y + c) with (x + c + IZR j * y) by lra.
  apply wrap_shift; exact Hy.
Qed.

End RemFacts.

(* ================================================================== *)
(** * The moon age and the phase index *)

Lemma days_since_ref_later (ms : Z) :
  days_since_ref (later ref ms) = IZR ms / 86400000.
Proof.
  unfold days_since_ref, later. cbn [getTime]. rewrite plus_IZR. field.
Qed.

Lemma LUNAR_CYCLE_pos : 0 < LUNAR_CYCLE.
Proof. unfold LUNAR_CYCLE. lra. Qed.

Lemma moonAge_range (date : Date) : 0 <= moonAge date < LUNAR_CYCLE.
Proof. apply wrap_range, LUNAR_CYCLE_pos. Qed.

Lemma moonAge_later_ref (ms : Z) :
  0 <= IZR ms / 86400000 < LUNAR_CYCLE ->
  moonAge (later ref ms) = IZR ms / 86400000.
Proof.
  intros H. unfold moonAge. rewrite days_since_ref_later. apply wrap_id, H.
Qed.

(* ================================================================== *)
(** * Reasoning about computations *)

Lemma events_bind {A B} (m : M A) (f : A -> M B) clk n :
  events (bind m f) clk n
  = events m clk n
    ++ events (f (result m clk n)) clk (snd (fst (m clk n))).
Proof. reflexivity. Qed.

Lemma events_ctx e clk n : events (ctx e) clk n = [e].
Proof. reflexivity. Qed.

Lemma events_ret {A} (a : A) clk n : events (ret a) clk n = [].
Proof. reflexivity. Qed.


Lemma rotations_app l1 l2 : rotations (l1 ++ l2) = rotations l1 ++ rotations l2.
Proof. apply flat_map_app. Qed.

(** What [drawMoon] draws into the aperture: the image at the index the
    stepwise lookup gives for the moon age, when the flag is up, the table
    is not empty and the element there is complete; nothing otherwise. *)
Lemma drawMoon_images flag imgs date clk n :
  drawn_images (events (drawMoon flag imgs date) clk n)
  = if flag && (0 <? List.length imgs)%nat
    then match index imgs (getMoonPhaseImage (moonAge date)) with
         | Some img => if complete img then [img] else []
         | None => []
         end
    else [].
Proof.
  unfold drawMoon, moonAge.
  destruct (flag && (0 <? List.length imgs)%nat).
  - destruct (index imgs _) as [img |]; [destruct (complete img) |];
      destruct (Z.rem _ _ =? 0)%Z; reflexivity.
  - reflexivity.
Qed.

Ltac lookup_case :=
  unfold getMoonPhaseImage;
  repeat match goal with
         | |- context [Rlt_dec ?x ?y] => destruct (Rlt_dec x y); try lra
         end;
  try reflexivity.



Lemma moonAge_ref : moonAge ref = 0.
Proof.
  unfold moonAge, days_since_ref.
  replace ((IZR (getTime ref) - IZR (getTime ref)) / (1000 * 60 * 60 * 24))
    with 0 by (field; lra).
  apply wrap_id. unfold LUNAR_CYCLE. lra.
Qed.

(** The scenarios of the specification: at the reference instant the age
    is 0 and the new moon is selected; 14.76 days later the waxing gibbous
    moon, 14.78 days later the full moon. *)
Example scenario_reference_epoch :
  getTime ref = 1768780800000%Z
  /\ moonAge ref = 0 /\ getMoonPhaseImage (moonAge ref) = 0%Z.
Proof.
  split; [reflexivity |]. split; [apply moonAge_ref |].
  rewrite moonAge_ref. lookup_case.
Qed.

Example scenario_gibbous_then_full :
  getMoonPhaseImage (moonAge (later ref 1275264000)) = 3%Z
  /\ getMoonPhaseImage (moonAge (later ref 1276992000)) = 4%Z.
Proof.
  rewrite !moonAge_later_ref by (unfold LUNAR_CYCLE; lra).
  split; lookup_case.
Qed.



Lemma days_since_ref_shift (date : Date) (ms : Z) :
  days_since_ref (later date ms) = days_since_ref date + IZR ms / 86400000.
Proof.
  unfold days_since_ref, later. cbn [getTime]. rewrite plus_IZR. field.
Qed.

(** One day before the reference the first [%] alone leaves a negative
    remainder; the shift brings the age to 28.53059. *)
Lemma moonAge_before_ref :
  JS.rem (days_since_ref (later ref (-86400000))) LUNAR_CYCLE = -1
  /\ moonAge (later ref (-86400000)) = 28.53059.
Proof.
  assert (D : days_since_ref (later ref (-86400000)) = -1).
  { rewrite days_since_ref_later. lra. }
  split.
  - rewrite D. unfold JS.rem.
    replace (JS.trunc (-1 / LUNAR_CYCLE)) with 0%Z; [simpl; lra |].
    unfold JS.trunc. destruct (Rle_dec 0 (-1 / LUNAR_CYCLE)) as [H | H].
    + exfalso. unfold LUNAR_CYCLE in H. lra.
    + assert (E : Int_part (- (-1 / LUNAR_CYCLE)) = 0%Z).
      { symmetry. apply Int_part_spec. unfold LUNAR_CYCLE. simpl. lra. }
      rewrite E. reflexivity.
  - unfold moonAge. rewrite D.
    apply wrap_unique with (k := 1%Z); unfold LUNAR_CYCLE; lra.
Qed.

(* ================================================================== *)
(** * The sidereal angle *)

(** The mean sidereal time in degrees before any reduction, and the local
    sidereal time in degrees that [getSiderealAngle] turns into radians. *)
Lemma getSiderealAngle_degrees (date : Date) :
  getSiderealAngle date
  = JS.wrap
      (280.46061837
       + 360.98564736629
         * (IZR (getTime date) / 86400000 + 2440587.5 - 2451545.0)
       + -0.1278) 360 / 360 * PI * 2.
Proof.
  unfold getSiderealAngle. cbv zeta. rewrite wrap_wrap_plus by lra. reflexivity.
Qed.

Lemma getSiderealAngle_range (date : Date) :
  0 <= getSiderealAngle date < 2 * PI.
Proof.
  rewrite getSiderealAngle_degrees.
  match goal with |- context [JS.wrap ?x 360] =>
    pose proof (wrap_range x 360 ltac:(lra)) as H; set (w := JS.wrap x 360) in *
  end.
  pose proof PI_RGT_0 as HPI.
  split.
  - apply Rmult_le_pos; [| lra]. apply Rmult_le_pos; lra.
  - replace (2 * PI) with (360 / 360 * PI * 2) by field.
    apply Rmult_lt_compat_r; [lra |]. apply Rmult_lt_compat_r; [lra |]. lra.
Qed.

Lemma getSiderealAngle_refines (date : Date) :
  getSiderealAngle date = siderealAngle_spec (getTime date).
Proof.
  unfold getSiderealAngle, siderealAngle_spec, mod360. cbv zeta.
  rewrite !wrap_floor by lra. lra.
Qed.

Lemma getSiderealAngle_drift (date : Date) :
  exists k : Z,
    (k = 0%Z \/ k = (-1)%Z)
    /\ getSiderealAngle (later date day_ms) - getSiderealAngle date
       = daily_drift + IZR k * (2 * PI).
Proof.
  pose proof (getSiderealAngle_range date) as R0.
  pose proof (getSiderealAngle_range (later date day_ms)) as R1.
  revert R0 R1. rewrite !getSiderealAngle_degrees.
  unfold later, day_ms. cbn [getTime]. rewrite plus_IZR.
  set (x := 280.46061837
            + 360.98564736629
              * (IZR (getTime date) / 86400000 + 2440587.5 - 2451545.0)
            + -0.1278).
  replace (280.46061837
           + 360.98564736629
             * ((IZR (getTime date) + 86400000) / 86400000
                + 2440587.5 - 2451545.0)
           + -0.1278)
    with (x + 0.98564736629 + IZR 1 * 360) by (unfold x; simpl; lra).
  rewrite wrap_shift by lra.
  destruct (wrap_congruent x 360) as [k0 E0].
  destruct (wrap_congruent (x + 0.98564736629) 360) as [k1 E1].
  rewrite E0, E1. intros R0 R1.
  pose proof PI_RGT_0 as HPI.
  assert (B0 : 0 <= x + IZR k0 * 360 < 360).
  { rewrite <- E0. apply wrap_range. lra. }
  assert (B1 : 0 <= x + 0.98564736629 + IZR k1 * 360 < 360).
  { rewrite <- E1. apply wrap_range. lra. }
  exists (k1 - k0)%Z. split.
  - assert (L : IZR (k1 - k0) < 1) by (rewrite minus_IZR; lra).
    assert (U : -2 < IZR (k1 - k0)) by (rewrite minus_IZR; lra).
    apply lt_IZR in L. apply lt_IZR in U. lia.
  - unfold daily_drift. rewrite minus_IZR. field.
Qed.

(** C8.  The sidereal angle is the one the specification words: the mean
    sidereal time 280.46061837 + 360.98564736629 * (ms / 86400000 +
    2440587.5 - 2451545.0) reduced modulo 360, the longitude -0.1278
    added, reduced modulo 360 again and turned into radians.  It lies in
    [[0, 2 * PI)].  Twenty-four hours later it has moved forward by
    0.98564736629 degrees, in radians and up to one whole turn: a small
    drift, far from a full rotation. *)
Theorem sidereal_angle_formula_range_drift (date : Date) :
  getSiderealAngle date = siderealAngle_spec (getTime date)
  /\ 0 <= getSiderealAngle date < 2 * PI
  /\ (exists k : Z,
         (k = 0%Z \/ k = (-1)%Z)
         /\ getSiderealAngle (later date day_ms) - getSiderealAngle date
            = daily_drift + IZR k * (2 * PI))
  /\ daily_drift = 0.98564736629 / 360 * (2 * PI)
  /\ 0 < daily_drift < 2 * PI / 365.
Proof.
  split; [apply getSiderealAngle_refines |].
  split; [apply getSiderealAngle_range |].
  split; [apply getSiderealAngle_drift |].
  split; [reflexivity |].
  unfold daily_drift. pose proof PI_RGT_0. lra.
Qed.

(* ================================================================== *)
(** * The rotation of the hands *)

Ltac run_routine :=
  cbv [events result bind ctx ret Date_now fst snd];
  repeat match goal with
         | |- context [Rgt_dec ?x ?y] => destruct (Rgt_dec x y)
         end;
  cbv [events result bind ctx ret Date_now fst snd app rotations flat_map
       drawn_images];
  try reflexivity.

Lemma drawGMTHand_rotations angle clk n :
  rotations (events (drawGMTHand angle) clk n) = [angle - PI / 2].
Proof. unfold drawGMTHand. run_routine. Qed.

Lemma drawBreguetHand_rotations angle len col clk n :
  rotations (events (drawBreguetHand angle len col) clk n) = [angle - PI / 2].
Proof. unfold drawBreguetHand. run_routine. Qed.

Lemma drawSecondsHand_rotations angle clk n :
  rotations (events (drawSecondsHand angle) clk n) = [angle - PI / 2].
Proof. unfold drawSecondsHand. run_routine. Qed.

Lemma drawSidereal_rotations date breathe clk n :
  rotations (events (drawSidereal date breathe) clk n)
  = [getSiderealAngle date + PI / 6].
Proof. unfold drawSidereal. run_routine. Qed.

(** An event that round [a] of a loop issues is an event of the loop. *)
Lemma In_forEach {A} (body : A -> M unit) (l : list A) (a : A) (e : event) :
  In a l ->
  (forall clk n, In e (events (body a) clk n)) ->
  forall clk n, In e (events (forEach l body) clk n).
Proof.
  intros Ha He. induction l as [| b l IH]; [destruct Ha |].
  intros clk n. cbn [forEach]. rewrite events_bind. apply in_or_app.
  destruct Ha as [-> | Ha]; [left; apply He | right; apply IH, Ha].
Qed.

Ltac find_event := repeat first [left; reflexivity | right].

(** The ticks of the minute track sit at their angle less a quarter turn. *)
Lemma drawMinuteTrack_ticks clk n :
  Forall (fun i =>
            let a := INR i * PI / 30 - PI / 2 in
            In (lineTo (c + cos a * (r * 0.985)) (c + sin a * (r * 0.985)))
               (events drawMinuteTrack clk n))
         (seq 0 60).
Proof.
  apply Forall_forall. intros i Hi. cbv zeta. unfold drawMinuteTrack.
  apply In_forEach with (a := i); [exact Hi |].
  intros clk' n'. run_routine. find_event.
Qed.

(** The batons end on the circle of radius [r * 0.88] at their angle less
    a quarter turn. *)
Lemma drawBatons_angles clk n :
  Forall (fun i =>
            let a := INR i * PI / 6 - PI / 2 in
            In (lineTo (c + cos a * (r * 0.88)) (c + sin a * (r * 0.88)))
               (events drawBatons clk n))
         (seq 0 12).
Proof.
  apply Forall_forall. intros i Hi. cbv zeta. unfold drawBatons.
  rewrite events_bind. apply in_or_app. right.
  apply In_forEach with (a := i); [exact Hi |].
  intros clk' n'. run_routine; find_event.
Qed.

Lemma quarter_turn_points_up : cos (0 - PI / 2) = 0 /\ sin (0 - PI / 2) = -1.
Proof.
  replace (0 - PI / 2) with (- (PI / 2)) by lra.
  rewrite cos_neg, sin_neg, cos_PI2, sin_PI2. split; lra.
Qed.

(** The sidereal hand at the reference instant: the context is rotated by
    the sidereal angle plus PI / 6, which is not the sidereal angle less a
    quarter turn plus PI / 6. *)
Lemma sidereal_hand_no_quarter_turn :
  rotations (events (drawSidereal ref 0) (fun _ => 0%Z) 0)
  = [getSiderealAngle ref + PI / 6]
  /\ rotations (events (drawSidereal ref 0) (fun _ => 0%Z) 0)
     <> [getSiderealAngle ref - PI / 2 + PI / 6].
Proof.
  rewrite drawSidereal_rotations. split; [reflexivity |].
  intros E. injection E as E. pose proof PI_RGT_0. lra.
Qed.

(** C2, as the code has it.  The routines of the hour and minute hands
    ([drawBreguetHand]), of the seconds hand and of the GMT hand move the
    origin to the centre, rotate the context by their angle less PI / 2
    and then draw the hand along the positive x axis, with no other
    rotation; so a hand of angle 0 points to twelve o'clock.  The minute
    ticks and the hour batons are placed at their angle less PI / 2 as
    well.  The hand of the sidereal subdial is rotated by the sidereal
    angle plus the fixed correction PI / 6, and by nothing else. *)
Theorem hands_rotate_less_quarter_turn
    (angle len breathe : R) (col : string) (date : Date) (clk : Clock) (n : nat) :
  (exists rest,
      events (drawBreguetHand angle len col) clk n
      = save :: translate c c :: rotate (angle - PI / 2) :: rest
      /\ rotations rest = []
      /\ In (lineTo len (-0.4)) rest /\ In (lineTo len 0.4) rest)
  /\ (exists rest,
         events (drawSecondsHand angle) clk n
         = save :: translate c c :: rotate (angle - PI / 2) :: rest
         /\ rotations rest = []
         /\ In (lineTo (r * 0.85) 0) rest)
  /\ (exists rest,
         events (drawGMTHand angle) clk n
         = save :: translate c c :: rotate (angle - PI / 2) :: rest
         /\ rotations rest = []
         /\ In (lineTo (r * 0.65) 0) rest)
  /\ (cos (0 - PI / 2) = 0 /\ sin (0 - PI / 2) = -1)
  /\ Forall (fun i =>
               let a := INR i * PI / 30 - PI / 2 in
               In (lineTo (c + cos a * (r * 0.985)) (c + sin a * (r * 0.985)))
                  (events drawMinuteTrack clk n))
            (seq 0 60)
  /\ Forall (fun i =>
               let a := INR i * PI / 6 - PI / 2 in
               In (lineTo (c + cos a * (r * 0.88)) (c + sin a * (r * 0.88)))
                  (events drawBatons clk n))
            (seq 0 12)
  /\ (exists before rest,
         events (drawSidereal date breathe) clk n
         = before
           ++ save :: translate (c - r * 0.55) c
              :: rotate (getSiderealAngle date + PI / 6) :: rest
         /\ rotations before = [] /\ rotations rest = []
         /\ In (lineTo (r * 0.23 * 0.55) 0) rest).
Proof.
  split.
  { unfold drawBreguetHand. run_routine;
      (eexists; split; [reflexivity |]; split; [reflexivity |];
       split; find_event). }
  split.
  { unfold drawSecondsHand. run_routine;
      (eexists; split; [reflexivity |]; split; [reflexivity |]; find_event). }
  split.
  { unfold drawGMTHand. run_routine.
    eexists; split; [reflexivity |]; split; [reflexivity |]; find_event. }
  split; [apply quarter_turn_points_up |].
  split; [apply drawMinuteTrack_ticks |].
  split; [apply drawBatons_angles |].
  unfold drawSidereal. run_routine.
  eexists (_ :: _ :: _ :: _ :: _ :: _ :: _ :: _ :: _ :: _ :: _
           :: _ :: _ :: _ :: _ :: []), _.
  split; [reflexivity |]. split; [reflexivity |]. split; [reflexivity |].
  find_event.
Qed.

(* ================================================================== *)
(** * The moon subdial and the readiness of the images *)

(** [drawMoon] is the aperture, a middle part and the rings; the middle
    part is the flat fill when the flag is down or the table is empty. *)
Lemma drawMoon_events flag imgs date clk n :
  exists middle,
    events (drawMoon flag imgs date) clk n
    = moon_aperture ++ middle ++ moon_rings
    /\ (flag && (0 <? List.length imgs)%nat = false -> middle = moon_fallback)
    /\ (flag && (0 <? List.length imgs)%nat = true ->
        filter is_fill middle = []
        /\ (handle_not_ready imgs date -> drawn_images middle = [])).
Proof.
  unfold drawMoon, handle_not_ready, moonAge.
  destruct (flag && (0 <? List.length imgs)%nat).
  - destruct (index imgs _) as [img |]; [destruct (complete img) |];
      destruct (Z.rem _ _ =? 0)%Z;
      (eexists; split; [reflexivity |]; split; [discriminate |];
       intros _; split; [reflexivity |]; intros H;
       first [reflexivity | discriminate H]).
  - eexists; split; [reflexivity |]. split; [reflexivity |]. discriminate.
Qed.

Lemma drawMoon_reads_no_clock flag imgs date clk n :
  snd (fst (drawMoon flag imgs date clk n)) = n.
Proof.
  unfold drawMoon.
  destruct (flag && (0 <? List.length imgs)%nat);
    [destruct (index imgs _) as [img |]; [destruct (complete img) |];
     destruct (Z.rem _ _ =? 0)%Z |]; reflexivity.
Qed.

(** The flag is up, the element selected at the reference instant is there
    but not complete: nothing is filled and nothing is drawn. *)
Lemma moon_no_fallback_when_flag_up :
  let imgs := [Some (mkImage "blob:New_Moon.svg" false)] in
  let evs := events (drawMoon true imgs ref) (fun _ => 0%Z) 0 in
  handle_not_ready imgs ref
  /\ filter is_fill evs = []
  /\ drawn_images evs = []
  /\ ~ In (fillStyle (Solid (Css "#1e3a8a"))) evs.
Proof.
  intros imgs evs.
  assert (E : getMoonPhaseImage (moonAge ref) = 0%Z).
  { rewrite moonAge_ref. lookup_case. }
  assert (H : handle_not_ready imgs ref).
  { unfold handle_not_ready. rewrite E. reflexivity. }
  split; [exact H |].
  subst evs. unfold drawMoon. fold (moonAge ref). rewrite E.
  cbn [index imgs Z.ltb Z.compare Z.to_nat nth_error complete andb Nat.ltb
       Nat.leb List.length].
  destruct (Z.rem _ _ =? 0)%Z;
    (split; [reflexivity |]; split; [reflexivity |];
     cbv [events bind ctx ret fst snd app];
     intros HIn; repeat (destruct HIn as [HIn | HIn]; [discriminate HIn |]);
     exact HIn).
Qed.

(** C3, as the code has it.  When the element selected for the phase is
    missing or not complete, [drawMoon] draws no image.  With the
    images-loaded flag down, or the table empty, it fills the clipped
    aperture with the flat colour; with the flag up and the table not
    empty it fills nothing.  In either state it reads no clock, and goes
    on to restore the context and stroke the two rings. *)
Theorem moon_fallback_follows_the_flag
    (flag : bool) (imgs : list (option Image)) (date : Date)
    (clk : Clock) (n : nat)
    (Hnot : handle_not_ready imgs date) :
  drawn_images (events (drawMoon flag imgs date) clk n) = []
  /\ (flag && (0 <? List.length imgs)%nat = false ->
      events (drawMoon flag imgs date) clk n
      = moon_aperture ++ moon_fallback ++ moon_rings)
  /\ (flag && (0 <? List.length imgs)%nat = true ->
      filter is_fill (events (drawMoon flag imgs date) clk n) = [])
  /\ (exists middle,
         events (drawMoon flag imgs date) clk n
         = moon_aperture ++ middle ++ moon_rings)
  /\ snd (fst (drawMoon flag imgs date clk n)) = n.
Proof.
  destruct (drawMoon_events flag imgs date clk n) as (middle & E & Hoff & Hon).
  split.
  { rewrite drawMoon_images. unfold handle_not_ready in Hnot.
    destruct (flag && _); [| reflexivity].
    destruct (index imgs _) as [img |]; [| reflexivity].
    rewrite Hnot. reflexivity. }
  split.
  { intros Hf. rewrite E, (Hoff Hf). reflexivity. }
  split.
  { intros Hf. destruct (Hon Hf) as [Hfill _].
    rewrite E, !filter_app, Hfill. reflexivity. }
  split; [exists middle; exact E |].
  apply drawMoon_reads_no_clock.
Qed.

Lemma moon_fallback_follows_the_flag_witness :
  handle_not_ready [None] ref
  /\ events (drawMoon false [None] ref) (fun _ => 0%Z) 0
     = moon_aperture ++ moon_fallback ++ moon_rings.
Proof.
  assert (H : handle_not_ready [None] ref).
  { unfold handle_not_ready.
    replace (getMoonPhaseImage (moonAge ref)) with 0%Z; [exact I |].
    rewrite moonAge_ref. lookup_case. }
  split; [exact H |].
  apply (moon_fallback_follows_the_flag false [None] ref (fun _ => 0%Z) 0 H).
  reflexivity.
Defined.

(* ================================================================== *)
(** * The loader: one failed fetch *)

Section LoaderFacts.

Import Loader.


Lemma slot_beyond {A} (a : list (option A)) (i : nat) :
  (List.length a <= i)%nat -> slot a i = None.
Proof.
  intros H. unfold slot. apply nth_error_None in H. rewrite H. reflexivity.
Qed.

Lemma slot_array_set {A} (a : list (option A)) (i : nat) (x : A) (j : nat) :
  slot (array_set a i x) j = if (j =? i)%nat then Some x else slot a j.
Proof.
  revert a j. induction i as [| i IH]; intros [| y a] [| j]; cbn;
    try reflexivity.
  - unfold slot. destruct j; reflexivity.
  - specialize (IH [] j). unfold slot in *. cbn in *. rewrite IH.
    destruct (j =? i)%nat; [reflexivity |]. destruct j; reflexivity.
  - specialize (IH a j). unfold slot in *. cbn in *. exact IH.
Qed.

Lemma length_array_set {A} (a : list (option A)) (i : nat) (x : A) :
  List.length (array_set a i x) = Nat.max (List.length a) (S i).
Proof.
  revert a. induction i as [| i IH]; intros [| y a]; cbn; try reflexivity.
  - f_equal. lia.
  - rewrite IH. reflexivity.
  - rewrite IH. reflexivity.
Qed.

Lemma present_array_set (a : list (option Image)) (i : nat) (x : Image) :
  slot a i = None -> present (array_set a i x) = S (present a).
Proof.
  unfold present. revert a. induction i as [| i IH]; intros [| y a] H; cbn.
  - reflexivity.
  - unfold slot in H. cbn in H. destruct y; [discriminate | reflexivity].
  - rewrite IH; [reflexivity | apply slot_beyond; cbn; lia].
  - unfold slot in *. cbn in H. destruct y; cbn; rewrite IH; auto.
Qed.

(** The table [urls.forEach] builds holds one element for each URL. *)
Lemma make_images_spec (urls : list (option string)) :
  forall (idx : nat) (a : list (option Image)),
    (List.length a <= idx)%nat ->
    present (make_images urls idx a) = (present a + count_urls urls)%nat
    /\ forall j,
        slot (make_images urls idx a) j
        = if (j <? idx)%nat then slot a j
          else match nth_error urls (j - idx) with
               | Some (Some url) => Some (mkImage url false)
               | _ => None
               end.
Proof.
  induction urls as [| [url |] urls IH]; intros idx a Hlen; cbn [make_images].
  - split; [unfold count_urls; cbn; lia |].
    intros j. destruct (Nat.ltb_spec j idx) as [E | E]; [reflexivity |].
    rewrite slot_beyond by lia.
    destruct (j - idx)%nat; reflexivity.
  - destruct (IH (S idx) (array_set a idx (mkImage url false))) as [P Hs].
    { rewrite length_array_set. lia. }
    split.
    + rewrite P, present_array_set by (apply slot_beyond; exact Hlen).
      unfold count_urls. cbn. lia.
    + intros j. rewrite Hs, slot_array_set.
      destruct (Nat.ltb_spec j (S idx)) as [E1 | E1];
        destruct (Nat.ltb_spec j idx) as [E2 | E2];
        destruct (Nat.eqb_spec j idx) as [E3 | E3];
        try lia; try reflexivity.
      * subst j. rewrite Nat.sub_diag. reflexivity.
      * replace (j - idx)%nat with (S (j - S idx)) by lia. reflexivity.
  - destruct (IH (S idx) a ltac:(lia)) as [P Hs].
    split.
    + rewrite P. unfold count_urls. cbn. lia.
    + intros j. rewrite Hs.
      destruct (Nat.ltb_spec j (S idx)) as [E1 | E1];
        destruct (Nat.ltb_spec j idx) as [E2 | E2];
        try lia; try reflexivity.
      * assert (j = idx) by lia. subst j. rewrite Nat.sub_diag.
        apply slot_beyond. exact Hlen.
      * replace (j - idx)%nat with (S (j - S idx)) by lia. reflexivity.
Qed.

Lemma slot_set_complete (a : list (option Image)) (i j : nat) :
  slot (set_complete a i) j
  = match slot a j with
    | Some img => Some (if (j =? i)%nat then mkImage (src img) true else img)
    | None => None
    end.
Proof.
  revert i j. induction a as [| y a IH]; intros i j.
  - destruct i, j; reflexivity.
  - destruct i as [| i], j as [| j]; cbn.
    + destruct y; reflexivity.
    + destruct y; unfold slot; cbn; destruct (nth_error a j) as [[img |] |];
        reflexivity.
    + unfold slot. cbn. destruct y; reflexivity.
    + specialize (IH i j). unfold slot in *. cbn. exact IH.
Qed.

Lemma present_set_complete (a : list (option Image)) (i : nat) :
  present (set_complete a i) = present a.
Proof.
  unfold present. revert i. induction a as [| y a IH]; intros [| i]; cbn;
    try reflexivity.
  - destruct y; reflexivity.
  - destruct y; cbn; rewrite IH; reflexivity.
Qed.

Lemma completed_set_complete (a : list (option Image)) (i : nat) :
  pending a i = true -> completed (set_complete a i) = S (completed a).
Proof.
  unfold completed, pending. revert i.
  induction a as [| y a IH]; intros [| i] H; cbn in *; try discriminate.
  - destruct y as [img |]; [| discriminate]. cbn.
    destruct (complete img); [discriminate | reflexivity].
  - destruct (is_complete y); cbn; rewrite IH; auto.
Qed.

Lemma completed_le_present (a : list (option Image)) :
  (completed a <= present a)%nat.
Proof.
  unfold completed, present. induction a as [| [img |] a IH]; cbn; [lia | | lia].
  destruct (complete img); cbn; lia.
Qed.

Lemma step_few_images (st : state) (e : image_event) :
  few_images st -> few_images (step st e).
Proof.
  intros (HP & HC & HF). destruct e as [i | i]; cbn [step].
  - destruct (pending (images st) i) eqn:Hp; [| repeat split; assumption].
    unfold few_images. cbn [images loadedCount moonImagesLoaded].
    rewrite present_set_complete, completed_set_complete by exact Hp.
    pose proof (completed_le_present (set_complete (images st) i)) as Hle.
    rewrite present_set_complete, completed_set_complete in Hle by exact Hp.
    split; [exact HP |]. split; [congruence |].
    destruct (Nat.eqb_spec (S (loadedCount st)) (List.length moonPhaseFiles))
      as [E | E]; [lia | exact HF].
  - destruct (pending (images st) i); repeat split; assumption.
Qed.

Lemma run_few_images (evs : list image_event) :
  forall st, few_images st -> few_images (run st evs).
Proof.
  induction evs as [| e evs IH]; intros st H; [exact H |].
  apply IH, step_few_images, H.
Qed.

Lemma step_console (st : state) (e : image_event) (x : console_entry) :
  In x (console st) -> In x (console (step st e)).
Proof.
  intros H. destruct e as [i | i]; cbn [step];
    destruct (pending (images st) i); cbn [console]; auto;
    apply in_or_app; left; exact H.
Qed.

Lemma run_console (evs : list image_event) (x : console_entry) :
  forall st, In x (console st) -> In x (console (run st evs)).
Proof.
  induction evs as [| e evs IH]; intros st H; [exact H |].
  apply IH, step_console, H.
Qed.

(** The events neither add nor remove an element, and an element that is
    complete stays so. *)
Lemma step_slot (st : state) (e : image_event) (j : nat) :
  match slot (images st) j with
  | None => slot (images (step st e)) j = None
  | Some img =>
      exists img', slot (images (step st e)) j = Some img'
                   /\ src img' = src img
                   /\ (complete img = true -> complete img' = true)
  end.
Proof.
  destruct e as [i | i]; cbn [step];
    destruct (pending (images st) i); cbn [images];
    try rewrite slot_set_complete;
    destruct (slot (images st) j) as [img |]; try reflexivity.
  - destruct (j =? i)%nat; eexists; repeat split; auto.
  - exists img. repeat split; auto.
  - exists img. repeat split; auto.
  - exists img. repeat split; auto.
Qed.

Lemma run_slot (evs : list image_event) (j : nat) :
  forall st,
    match slot (images st) j with
    | None => slot (images (run st evs)) j = None
    | Some img =>
        exists img', slot (images (run st evs)) j = Some img'
                     /\ src img' = src img
                     /\ (complete img = true -> complete img' = true)
    end.
Proof.
  induction evs as [| e evs IH]; intros st.
  - cbn [run fold_left].
    destruct (slot (images st) j) as [img |]; [| reflexivity].
    exists img. repeat split; auto.
  - cbn [run fold_left]. fold (run (step st e) evs).
    pose proof (step_slot st e j) as Hs. pose proof (IH (step st e)) as Hr.
    destruct (slot (images st) j) as [img |].
    + destruct Hs as (img1 & E1 & S1 & C1). rewrite E1 in Hr.
      destruct Hr as (img2 & E2 & S2 & C2). exists img2.
      repeat split; [exact E2 | congruence | auto].
    + rewrite Hs in Hr. exact Hr.
Qed.

(** Once the load event of an element has fired the element is complete. *)
Lemma step_onload_complete (st : state) (i : nat) :
  match slot (images (step st (onload i))) i with
  | Some img => complete img = true
  | None => True
  end.
Proof.
  cbn [step]. unfold pending, slot.
  destruct (nth_error (images st) i) as [[img |] |] eqn:E; cbn.
  - destruct (complete img) eqn:C; cbn [negb images].
    + rewrite E. exact C.
    + pose proof (slot_set_complete (images st) i i) as H.
      unfold slot in H. rewrite H, E, Nat.eqb_refl. reflexivity.
  - rewrite E. exact I.
  - rewrite E. exact I.
Qed.

Lemma run_onload_complete (evs : list image_event) (i : nat) :
  forall st img,
    In (onload i) evs ->
    slot (images (run st evs)) i = Some img -> complete img = true.
Proof.
  induction evs as [| e evs IH]; intros st img HIn Hs; [destruct HIn |].
  cbn [run fold_left] in Hs. fold (run (step st e) evs) in Hs.
  destruct HIn as [-> | HIn]; [| eapply IH; eauto].
  pose proof (step_onload_complete st i) as H1.
  pose proof (run_slot evs i (step st (onload i))) as H2.
  destruct (slot (images (step st (onload i))) i) as [img1 |].
  - destruct H2 as (img2 & E2 & _ & C2). rewrite E2 in Hs.
    injection Hs as <-. auto.
  - congruence.
Qed.

Lemma count_urls_fetch (fetch_ok : string -> bool) (files : list string) :
  count_urls (map (fetch_url fetch_ok) files)
  = List.length (filter fetch_ok files).
Proof.
  unfold count_urls. induction files as [| f files IH]; [reflexivity |].
  cbn. unfold fetch_url at 1. destruct (fetch_ok f); cbn; rewrite IH; reflexivity.
Qed.

Lemma filter_drops_one {A} (p : A -> bool) (l : list A) (x : A) :
  In x l -> p x = false -> (List.length (filter p l) < List.length l)%nat.
Proof.
  induction l as [| y l IH]; intros HIn Hp; [destruct HIn |].
  cbn. pose proof (filter_length_le p l) as Hle.
  destruct HIn as [-> | HIn].
  - rewrite Hp. lia.
  - specialize (IH HIn Hp). destruct (p y); cbn; lia.
Qed.

Lemma fetched_few_images (fetch_ok : string -> bool) (file : string) :
  In file moonPhaseFiles -> fetch_ok file = false ->
  few_images (fetched fetch_ok).
Proof.
  intros HIn Hf. unfold few_images, fetched. cbn [images loadedCount moonImagesLoaded].
  destruct (make_images_spec (map (fetch_url fetch_ok) moonPhaseFiles) 0 []
              ltac:(cbn; lia)) as [P Hs].
  rewrite P, count_urls_fetch. split; [| split; [| reflexivity]].
  - change (present []) with 0%nat.
    apply (filter_drops_one fetch_ok moonPhaseFiles file HIn Hf).
  - symmetry. apply Nat.le_0_r.
    assert (forall a : list (option Image),
               (forall j, match slot a j with
                          | Some img => complete img = false
                          | None => True
                          end) -> (completed a <= 0)%nat) as Hz.
    { unfold completed. induction a as [| y a IHa]; intros H; [cbn; lia |].
      cbn. pose proof (H 0%nat) as H0. unfold slot in H0. cbn in H0.
      assert (is_complete y = false) as ->.
      { destruct y; [exact H0 | reflexivity]. }
      apply IHa. intros j. apply (H (S j)). }
    apply Hz. intros j. rewrite Hs. cbn [Nat.ltb Nat.leb].
    destruct (nth_error _ _) as [[url |] |]; exact I || reflexivity.
Qed.

Lemma fetched_slot (fetch_ok : string -> bool) (i : nat) (file : string) :
  nth_error moonPhaseFiles i = Some file ->
  slot (images (fetched fetch_ok)) i
  = if fetch_ok file then Some (mkImage ("blob:" ++ file) false) else None.
Proof.
  intros H. unfold fetched. cbn [images].
  destruct (make_images_spec (map (fetch_url fetch_ok) moonPhaseFiles) 0 []
              ltac:(cbn; lia)) as [_ Hs].
  rewrite Hs. cbn [Nat.ltb Nat.leb]. rewrite Nat.sub_0_r, nth_error_map, H.
  cbn. unfold fetch_url. destruct (fetch_ok file); reflexivity.
Qed.

Lemma drawMoon_flag_down imgs date clk n :
  events (drawMoon false imgs date) clk n
  = moon_aperture ++ moon_fallback ++ moon_rings.
Proof. reflexivity. Qed.

(** With the eight files fetched and their eight elements loaded the flag
    goes up, and at the reference instant the new moon is drawn. *)
Example all_eight_loaded :
  let st := run (fetched (fun _ => true))
                [onload 3; onload 0; onload 1; onload 2; onload 7; onload 4;
                 onload 6; onload 5]%nat in
  loadedCount st = 8%nat
  /\ moonImagesLoaded st = true
  /\ drawn_images
       (events (drawMoon (moonImagesLoaded st) (images st) ref) (fun _ => 0%Z) 0)
     = [mkImage "blob:New_Moon.svg" true].
Proof.
  intros st. split; [reflexivity |]. split; [reflexivity |].
  rewrite drawMoon_images, moonAge_ref.
  replace (getMoonPhaseImage 0) with 0%Z by (symmetry; lookup_case).
  reflexivity.
Qed.

(** The fetch of the first file fails, the seven others succeed and their
    elements all load.  The element of the waxing crescent is in the table
    and complete, and two days after the reference new moon it is the one
    selected; yet the flag is down, and the subdial is drawn as the flat
    fill, without any image. *)
Lemma seven_ready_images_not_drawn :
  let fetch_ok := fun file => negb (file =? "New_Moon.svg")%string in
  let st := run (fetched fetch_ok)
                [onload 1; onload 2; onload 3; onload 4; onload 5; onload 6;
                 onload 7]%nat in
  let date := later ref 172800000 in
  slot (images st) 1 = Some (mkImage "blob:Waxing_Crescent.svg" true)
  /\ getMoonPhaseImage (moonAge date) = 1%Z
  /\ loadedCount st = 7%nat
  /\ moonImagesLoaded st = false
  /\ drawn_images
       (events (drawMoon (moonImagesLoaded st) (images st) date)
               (fun _ => 0%Z) 0) = []
  /\ events (drawMoon (moonImagesLoaded st) (images st) date) (fun _ => 0%Z) 0
     = moon_aperture ++ moon_fallback ++ moon_rings.
Proof.
  intros fetch_ok st date.
  assert (F : moonImagesLoaded st = false) by reflexivity.
  split; [reflexivity |]. split.
  { unfold date. rewrite moonAge_later_ref by (unfold LUNAR_CYCLE; lra).
    lookup_case. }
  split; [reflexivity |]. split; [exact F |].
  rewrite F, drawMoon_flag_down. split; reflexivity.
Qed.

(** C4, as the code has it.  When the fetch of one file fails, the failure
    is logged and the loader goes on: the slot of that file stays empty,
    an element is made for every file fetched, and it is complete once its
    load event has fired.  The count of loaded elements then stays below
    eight, the images-loaded flag never goes up, and [drawMoon] draws the
    flat fill, and no image, at every date. *)
Theorem one_failed_fetch_keeps_flag_down
    (fetch_ok : string -> bool) (file : string) (evs : list image_event)
    (Hfile : In file moonPhaseFiles) (Hfail : fetch_ok file = false) :
  let st := run (fetched fetch_ok) evs in
  In (error_loading file) (console st)
  /\ (forall i f, nth_error moonPhaseFiles i = Some f ->
                  fetch_ok f = false -> slot (images st) i = None)
  /\ (forall i f, nth_error moonPhaseFiles i = Some f ->
                  fetch_ok f = true ->
                  exists img, slot (images st) i = Some img
                              /\ src img = ("blob:" ++ f)%string
                              /\ (In (onload i) evs -> complete img = true))
  /\ (loadedCount st < 8)%nat
  /\ moonImagesLoaded st = false
  /\ (forall date clk n,
         events (drawMoon (moonImagesLoaded st) (images st) date) clk n
         = moon_aperture ++ moon_fallback ++ moon_rings).
Proof.
  intros st.
  pose proof (run_few_images evs _ (fetched_few_images fetch_ok file Hfile Hfail))
    as (HP & HC & HF).
  fold st in HP, HC, HF.
  split.
  { apply run_console. unfold fetched, fetch_log. cbn [console].
    apply in_map, filter_In. split; [exact Hfile |]. rewrite Hfail. reflexivity. }
  split.
  { intros i f Hi Hf. pose proof (run_slot evs i (fetched fetch_ok)) as H.
    rewrite (fetched_slot fetch_ok i f Hi), Hf in H. exact H. }
  split.
  { intros i f Hi Hf. pose proof (run_slot evs i (fetched fetch_ok)) as H.
    rewrite (fetched_slot fetch_ok i f Hi), Hf in H.
    destruct H as (img & E & S1 & _). exists img.
    split; [exact E |]. split; [exact S1 |].
    intros HIn. eapply run_onload_complete; eauto. }
  split.
  { rewrite HC. pose proof (completed_le_present (images st)).
    change (List.length moonPhaseFiles) with 8%nat in HP. lia. }
  split; [exact HF |].
  intros date clk n. rewrite HF. apply drawMoon_flag_down.
Qed.

Lemma one_failed_fetch_keeps_flag_down_witness :
  let fetch_ok := fun file => negb (file =? "Full_Moon.svg")%string in
  In "Full_Moon.svg"%string moonPhaseFiles
  /\ fetch_ok "Full_Moon.svg"%string = false
  /\ moonImagesLoaded
       (run (fetched fetch_ok) [onload 0; onload 7; onerror 2; onload 0]%nat)
     = false.
Proof.
  intros fetch_ok.
  assert (H1 : In "Full_Moon.svg"%string moonPhaseFiles)
    by (cbn; repeat first [left; reflexivity | right]).
  assert (H2 : fetch_ok "Full_Moon.svg"%string = false) by reflexivity.
  split; [exact H1 |]. split; [exact H2 |].
  apply (one_failed_fetch_keeps_flag_down fetch_ok "Full_Moon.svg"
           [onload 0; onload 7; onerror 2; onload 0]%nat H1 H2).
Defined.

End LoaderFacts.

(* ================================================================== *)
(** * The opacities of a frame *)

Section Emits.

Context {P : event -> Prop}.

Lemma emits_ret {A} (a : A) : emits P (ret a).
Proof. intros clk n. constructor. Qed.

Lemma emits_Date_now : emits P Date_now.
Proof. intros clk n. constructor. Qed.

Lemma emits_ctx (e : event) : P e -> emits P (ctx e).
Proof. intros H clk n. repeat constructor. exact H. Qed.

Lemma emits_bind {A B} (m : M A) (f : A -> M B) :
  emits P m -> (forall a, emits P (f a)) -> emits P (bind m f).
Proof.
  intros Hm Hf clk n. rewrite events_bind. apply Forall_app. split.
  - apply Hm.
  - apply Hf.
Qed.

Lemma emits_forEach {A} (l : list A) (body : A -> M unit) :
  (forall a, emits P (body a)) -> emits P (forEach l body).
Proof.
  intros H. induction l as [| a l IH]; cbn [forEach].
  - apply emits_ret.
  - apply emits_bind; [apply H | intros _; exact IH].
Qed.

End Emits.

Lemma emits_weaken {A} (P Q : event -> Prop) (m : M A) :
  (forall e, P e -> Q e) -> emits P m -> emits Q m.
Proof.
  intros HPQ H clk n. eapply Forall_impl; [exact HPQ | apply H].
Qed.

Lemma alphas_within_weaken (lo hi lo' hi' : R) (e : event) :
  lo' <= lo -> hi <= hi' -> alphas_within lo hi e -> alphas_within lo' hi' e.
Proof.
  intros Hlo Hhi H. unfold alphas_within in *.
  eapply Forall_impl; [| exact H]. cbv beta. intros a Ha. lra.
Qed.

(** A sine scaled by 0.5 plus 0.5 lies in the unit interval. *)
Lemma half_sine_range (x : R) : 0 <= sin x * 0.5 + 0.5 <= 1.
Proof. pose proof (SIN_bound x). lra. Qed.

Lemma breathing_range (now : Z) : 0 <= breathing now <= 1.
Proof. apply half_sine_range. Qed.

Lemma batonSparkle_range (time : R) (i : nat) : 0 <= batonSparkle time i <= 1.
Proof. apply half_sine_range. Qed.

Ltac sine_bounds :=
  repeat match goal with
         | |- context [sin ?x] =>
             lazymatch goal with
             | _ : -1 <= sin x <= 1 |- _ => fail
             | _ => pose proof (SIN_bound x)
             end
         | _ : context [sin ?x] |- _ =>
             lazymatch goal with
             | _ : -1 <= sin x <= 1 |- _ => fail
             | _ => pose proof (SIN_bound x)
             end
         end.

Ltac numeric :=
  unfold batonSparkle, breathing, JS.max, Rmax in *;
  repeat match goal with
         | |- context [Rle_dec ?a ?b] => destruct (Rle_dec a b)
         | _ : context [Rle_dec ?a ?b] |- _ => destruct (Rle_dec a b)
         end;
  sine_bounds; lra.

Ltac alpha_leaf :=
  unfold alpha_ok, alphas_within;
  cbn [event_alphas style_alphas color_alphas gradient_stops flat_map app snd];
  repeat first [apply Forall_nil | apply Forall_cons; [numeric |]].

Ltac emits_step :=
  cbv beta zeta;
  lazymatch goal with
  | |- emits _ (bind _ _) => apply emits_bind; [| intros ?]
  | |- emits _ (ret _) => apply emits_ret
  | |- emits _ Date_now => apply emits_Date_now
  | |- emits _ (forEach _ _) => apply emits_forEach; intros ?
  | |- emits _ (ctx _) => apply emits_ctx; alpha_leaf
  | |- emits _ (if ?b then _ else _) => destruct b
  | |- emits _ (match ?x with _ => _ end) => destruct x
  end.

Ltac emits_all := repeat emits_step.

Lemma drawBatons_alphas : emits (alphas_within 0 0.96) drawBatons.
Proof. unfold drawBatons. emits_all. Qed.

Lemma drawSecondsHand_alphas angle :
  emits (alphas_within 0 0.96) (drawSecondsHand angle).
Proof. unfold drawSecondsHand. emits_all. Qed.

Lemma drawBreguetHand_alphas angle len col :
  emits (alphas_within 0 0.9) (drawBreguetHand angle len col).
Proof. unfold drawBreguetHand. emits_all. Qed.

Lemma drawCrystal_alphas breathe :
  0 <= breathe <= 1 -> emits (alphas_within 0 0.15) (drawCrystal breathe).
Proof. intros H. unfold drawCrystal. emits_all. Qed.

Lemma drawGuilloche_alphas breathe :
  0 <= breathe <= 1 -> emits alpha_ok (drawGuilloche breathe).
Proof. intros H. unfold drawGuilloche. emits_all. Qed.

Lemma drawMinuteTrack_alphas : emits alpha_ok drawMinuteTrack.
Proof. unfold drawMinuteTrack. emits_all. Qed.

Lemma drawGMTHand_alphas angle : emits alpha_ok (drawGMTHand angle).
Proof. unfold drawGMTHand. emits_all. Qed.

Lemma drawMoon_alphas flag imgs date : emits alpha_ok (drawMoon flag imgs date).
Proof. unfold drawMoon. emits_all. Qed.

Lemma drawSidereal_alphas date breathe :
  emits alpha_ok (drawSidereal date breathe).
Proof. unfold drawSidereal. emits_all. Qed.

Lemma drawDate_alphas tza date : emits alpha_ok (drawDate tza date).
Proof. unfold drawDate. emits_all. Qed.

Lemma drawSwissMade_alphas : emits alpha_ok drawSwissMade.
Proof. unfold drawSwissMade, arcText. emits_all. Qed.

Lemma drawCase_alphas img : emits alpha_ok (drawCase img).
Proof. unfold drawCase. emits_all. Qed.

Lemma alpha_ok_of_within (hi : R) (A : Type) (m : M A) :
  hi <= 1 -> emits (alphas_within 0 hi) m -> emits alpha_ok m.
Proof.
  intros Hhi. apply emits_weaken. intros e.
  apply alphas_within_weaken; lra.
Qed.

Ltac layer_alphas :=
  cbv beta zeta;
  lazymatch goal with
  | |- emits _ drawMinuteTrack => apply drawMinuteTrack_alphas
  | |- emits _ drawBatons =>
      apply (alpha_ok_of_within 0.96), drawBatons_alphas; lra
  | |- emits _ drawSwissMade => apply drawSwissMade_alphas
  | |- emits _ (drawMoon _ _ _) => apply drawMoon_alphas
  | |- emits _ (drawSidereal _ _) => apply drawSidereal_alphas
  | |- emits _ (drawDate _ _) => apply drawDate_alphas
  | |- emits _ (drawGMTHand _) => apply drawGMTHand_alphas
  | |- emits _ (drawBreguetHand _ _ _) =>
      apply (alpha_ok_of_within 0.9), drawBreguetHand_alphas; lra
  | |- emits _ (drawSecondsHand _) =>
      apply (alpha_ok_of_within 0.96), drawSecondsHand_alphas; lra
  | |- emits _ (drawCase _) => apply drawCase_alphas
  | |- emits _ (drawCrystal _) =>
      apply (alpha_ok_of_within 0.15), drawCrystal_alphas;
      [lra | apply breathing_range]
  | |- _ => emits_step
  end.

Lemma drawWatch_alphas tza gmtOffset flag imgs caseImage :
  emits alpha_ok (drawWatch tza gmtOffset flag imgs caseImage).
Proof. unfold drawWatch. repeat layer_alphas. Qed.

(** C10.  The modulation values, each a sine scaled by 0.5 plus 0.5, lie
    in [[0, 1]]: the breathing phase, the sparkle of a baton, and any such
    value.  Every opacity written into a colour of a frame lies in
    [[0, 1]]; those of the batons and of the seconds hand are at most
    (1 - 0.88) * 8 = 0.96, those of the hour and minute hands at most
    (1 - 0.85) * 6 = 0.9, those of the crystal at most 0.15; and the
    guilloche routine, were it called, stays in [[0, 1]] as well. *)
Theorem modulation_and_opacity_bounded
    (tza : Z -> Z) (gmtOffset : Z) (flag : bool) (imgs : list (option Image))
    (caseImage : Image) (clk : Clock) (n : nat)
    (x time angle len : R) (now : Z) (i : nat) (col : string) :
  0 <= sin x * 0.5 + 0.5 <= 1
  /\ 0 <= breathing now <= 1
  /\ 0 <= batonSparkle time i <= 1
  /\ Forall alpha_ok (events (drawWatch tza gmtOffset flag imgs caseImage) clk n)
  /\ Forall (alphas_within 0 0.96) (events drawBatons clk n)
  /\ Forall (alphas_within 0 0.96) (events (drawSecondsHand angle) clk n)
  /\ Forall (alphas_within 0 0.9) (events (drawBreguetHand angle len col) clk n)
  /\ Forall (alphas_within 0 0.15) (events (drawCrystal (breathing now)) clk n)
  /\ Forall alpha_ok (events (drawGuilloche (breathing now)) clk n)
  /\ (1 - 0.88) * 8 = 0.96 /\ (1 - 0.85) * 6 = 0.9.
Proof.
  split; [apply half_sine_range |].
  split; [apply breathing_range |].
  split; [apply batonSparkle_range |].
  split; [apply drawWatch_alphas |].
  split; [apply drawBatons_alphas |].
  split; [apply drawSecondsHand_alphas |].
  split; [apply drawBreguetHand_alphas |].
  split; [apply drawCrystal_alphas, breathing_range |].
  split; [apply drawGuilloche_alphas, breathing_range |].
  split; lra.
Qed.

(* ================================================================== *)
(** * A frame is a function of the instant *)

Section FrozenClock.

Variable t : Z.

Lemma det_ret {A} (a : A) : frozen_deterministic t (ret a).
Proof. intros c1 c2 n1 n2 _ _. split; reflexivity. Qed.

Lemma det_ctx (e : event) : frozen_deterministic t (ctx e).
Proof. intros c1 c2 n1 n2 _ _. split; reflexivity. Qed.

Lemma det_Date_now : frozen_deterministic t Date_now.
Proof.
  intros c1 c2 n1 n2 H1 H2. split; [| reflexivity].
  unfold result, Date_now. cbn. rewrite H1, H2. reflexivity.
Qed.

Lemma det_bind {A B} (m : M A) (f : A -> M B) :
  frozen_deterministic t m ->
  (forall a, frozen_deterministic t (f a)) ->
  frozen_deterministic t (bind m f).
Proof.
  intros Hm Hf c1 c2 n1 n2 H1 H2.
  destruct (Hm c1 c2 n1 n2 H1 H2) as [Er Ee].
  destruct (Hf (result m c1 n1) c1 c2
               (snd (fst (m c1 n1))) (snd (fst (m c2 n2))) H1 H2) as [Fr Fe].
  split.
  - unfold result in *. cbn. rewrite <- Er. exact Fr.
  - rewrite !events_bind, Ee, <- Er. f_equal. exact Fe.
Qed.

Lemma det_forEach {A} (l : list A) (body : A -> M unit) :
  (forall a, frozen_deterministic t (body a)) ->
  frozen_deterministic t (forEach l body).
Proof.
  intros H. induction l as [| a l IH]; cbn [forEach].
  - apply det_ret.
  - apply det_bind; [apply H | intros _; exact IH].
Qed.

End FrozenClock.

Ltac det_step :=
  cbv beta zeta;
  lazymatch goal with
  | |- frozen_deterministic _ (bind _ _) => apply det_bind; [| intros ?]
  | |- frozen_deterministic _ (ret _) => apply det_ret
  | |- frozen_deterministic _ Date_now => apply det_Date_now
  | |- frozen_deterministic _ (forEach _ _) => apply det_forEach; intros ?
  | |- frozen_deterministic _ (ctx _) => apply det_ctx
  | |- frozen_deterministic _ (if ?b then _ else _) => destruct b
  | |- frozen_deterministic _ (match ?x with _ => _ end) => destruct x
  end.

Lemma drawWatch_frozen t tza gmtOffset flag imgs caseImage :
  frozen_deterministic t (drawWatch tza gmtOffset flag imgs caseImage).
Proof.
  unfold drawWatch, drawMinuteTrack, drawBatons, drawSwissMade, arcText,
    drawMoon, drawSidereal, drawDate, drawGMTHand, drawBreguetHand,
    drawSecondsHand, drawCase, drawCrystal.
  repeat det_step.
Qed.

Lemma drawGuilloche_frozen t breathe :
  frozen_deterministic t (drawGuilloche breathe).
Proof. unfold drawGuilloche. repeat det_step. Qed.

(* ================================================================== *)
(** * The hands within the frame *)

Lemma In_bind_left {A B} (m : M A) (f : A -> M B) (e : event) clk n :
  In e (events m clk n) -> In e (events (bind m f) clk n).
Proof. intros H. rewrite events_bind. apply in_or_app. left. exact H. Qed.

Lemma In_bind_right {A B} (m : M A) (f : A -> M B) (e : event) clk n :
  In e (events (f (result m clk n)) clk (snd (fst (m clk n)))) ->
  In e (events (bind m f) clk n).
Proof. intros H. rewrite events_bind. apply in_or_app. right. exact H. Qed.

Lemma In_rotations (a : R) (l : list event) :
  In a (rotations l) -> In (rotate a) l.
Proof.
  unfold rotations. intros H. apply in_flat_map in H.
  destruct H as (e & He & Ha). destruct e; try contradiction.
  destruct Ha as [<- | []]. exact He.
Qed.

(** The frame rendered at the instant of [now] rotates the context, for
    the GMT hand, by the GMT angle of [now] less a quarter turn. *)
Lemma drawWatch_rotates_gmt tza k flag imgs img (now : Date) (n : nat) :
  In (rotate (gmtAngle tza k now - PI / 2))
     (events (drawWatch tza k flag imgs img) (fun _ => getTime now) n).
Proof.
  destruct now as [t]. cbn [getTime]. unfold drawWatch.
  repeat (cbv beta zeta;
          lazymatch goal with
          | |- In _ (events (bind (drawGMTHand _) _) _ _) => fail
          | |- In _ (events (bind _ _) _ _) => apply In_bind_right
          end).
  cbv beta zeta. apply In_bind_left, In_rotations.
  rewrite drawGMTHand_rotations. left. reflexivity.
Qed.

(* ================================================================== *)
(** * The GMT hour and the GMT hand *)

Lemma trunc_small (q : R) : -1 < q < 1 -> JS.trunc q = 0%Z.
Proof.
  intros [L U]. unfold JS.trunc. destruct (Rle_dec 0 q) as [H | H].
  - symmetry. apply Int_part_spec. simpl. lra.
  - replace (Int_part (- q)) with 0%Z; [reflexivity |].
    apply Int_part_spec. simpl. lra.
Qed.

(** A dividend of smaller magnitude than the divisor is its own remainder,
    whatever its sign. *)
Lemma rem_small (x y : R) : 0 < y -> - y < x < y -> JS.rem x y = x.
Proof.
  intros Hy [L U]. unfold JS.rem. rewrite trunc_small; [simpl; lra |].
  split.
  - apply (proj2 (div_bracket' x y (-1) Hy)). lra.
  - apply (proj2 (div_bracket x y 1 Hy)). lra.
Qed.

Lemma rem_congruent (x y : R) : JS.rem x y = x - IZR (JS.trunc (x / y)) * y.
Proof. unfold JS.rem. lra. Qed.

(** Adding one period to the dividend leaves the remainder or, when the
    dividend changes sign, moves it by one period. *)
Lemma rem_plus_period (x y : R) :
  0 < y ->
  exists n : Z, (n = 0%Z \/ n = 1%Z) /\ JS.rem (x + y) y - JS.rem x y = IZR n * y.
Proof.
  intros Hy.
  exists (1 + JS.trunc (x / y) - JS.trunc ((x + y) / y))%Z.
  assert (E : JS.rem (x + y) y - JS.rem x y
              = IZR (1 + JS.trunc (x / y) - JS.trunc ((x + y) / y)) * y).
  { rewrite !rem_congruent, minus_IZR, plus_IZR. simpl. lra. }
  split; [| exact E].
  set (n := (1 + JS.trunc (x / y) - JS.trunc ((x + y) / y))%Z) in *.
  assert (B : -1 < IZR n < 2).
  { destruct (Rle_or_lt 0 x) as [Hx | Hx].
    - pose proof (rem_nonneg x y Hy Hx).
      pose proof (rem_nonneg (x + y) y Hy ltac:(lra)).
      split; apply Rmult_lt_reg_r with y; lra.
    - destruct (Rle_or_lt (x + y) 0) as [Hxy | Hxy].
      + pose proof (rem_nonpos x y Hy ltac:(lra)).
        pose proof (rem_nonpos (x + y) y Hy Hxy).
        split; apply Rmult_lt_reg_r with y; lra.
      + pose proof (rem_nonpos x y Hy ltac:(lra)).
        pose proof (rem_nonneg (x + y) y Hy ltac:(lra)).
        split; apply Rmult_lt_reg_r with y; lra. }
  destruct B as [L U]. apply lt_IZR in L. apply lt_IZR in U. lia.
Qed.

Section GMT.

Variable LocalTZA : Z -> Z.

Lemma gmtAngle_formula (k : Z) (now : Date) :
  gmtAngle LocalTZA k now
  = JS.rem (IZR (getHours LocalTZA now) + IZR k
            + reading_m LocalTZA now / 60) 24
    * (2 * PI / 24).
Proof. unfold gmtAngle, reading_g. field. Qed.

Lemma gmtAngle_plus_24 (k : Z) (now : Date) :
  exists n : Z,
    (n = 0%Z \/ n = 1%Z)
    /\ gmtAngle LocalTZA (k + 24) now - gmtAngle LocalTZA k now
       = IZR n * (2 * PI).
Proof.
  unfold gmtAngle, reading_g. rewrite plus_IZR.
  set (x := IZR (getHours LocalTZA now) + IZR k + reading_m LocalTZA now / 60).
  replace (IZR (getHours LocalTZA now) + (IZR k + 24)
           + reading_m LocalTZA now / 60) with (x + 24) by (unfold x; lra).
  destruct (rem_plus_period x 24 ltac:(lra)) as (n & Hn & E).
  exists n. split; [exact Hn |].
  replace (JS.rem (x + 24) 24) with (JS.rem x 24 + IZR n * 24) by lra.
  field.
Qed.

(** C6.  The angle of the GMT hand is the remainder modulo 24 of local
    hour plus offset plus the minute fraction over 60, times 2 * PI / 24.
    With the offset 24 hours larger the angle is the same rotation: it is
    equal, or one whole turn more, so that the context is rotated to the
    same direction.  It is the angle by which, less a quarter turn, the
    frame of that instant rotates the context for the GMT hand. *)
Theorem gmt_angle_24h_periodic
    (k : Z) (now : Date) (flag : bool) (imgs : list (option Image))
    (img : Image) (reads : nat) :
  gmtAngle LocalTZA k now
  = JS.rem (IZR (getHours LocalTZA now) + IZR k
            + reading_m LocalTZA now / 60) 24
    * (2 * PI / 24)
  /\ (exists n : Z,
         (n = 0%Z \/ n = 1%Z)
         /\ gmtAngle LocalTZA (k + 24) now - gmtAngle LocalTZA k now
            = IZR n * (2 * PI))
  /\ cos (gmtAngle LocalTZA (k + 24) now - PI / 2)
     = cos (gmtAngle LocalTZA k now - PI / 2)
  /\ sin (gmtAngle LocalTZA (k + 24) now - PI / 2)
     = sin (gmtAngle LocalTZA k now - PI / 2)
  /\ In (rotate (gmtAngle LocalTZA k now - PI / 2))
        (events (drawWatch LocalTZA k flag imgs img) (fun _ => getTime now) reads).
Proof.
  split; [apply gmtAngle_formula |].
  split; [apply gmtAngle_plus_24 |].
  rewrite <- !and_assoc. split; [| apply drawWatch_rotates_gmt].
  destruct (gmtAngle_plus_24 k now) as (n & [-> | ->] & E).
  - assert (E' : gmtAngle LocalTZA (k + 24) now = gmtAngle LocalTZA k now)
      by (simpl in E; lra).
    rewrite E'. split; reflexivity.
  - assert (E' : gmtAngle LocalTZA (k + 24) now - PI / 2
                 = gmtAngle LocalTZA k now - PI / 2 + 2 * INR 1 * PI)
      by (simpl in *; lra).
    rewrite E'. split; [apply cos_period | apply sin_period].
Qed.

(** What the single [% 24] of [drawWatch] does give: a GMT hour strictly
    between -24 and 24, of the sign of hour plus offset. *)
Lemma reading_g_bounds (k : Z) (now : Date) :
  -24 < reading_g LocalTZA k now < 24.
Proof. unfold reading_g. apply rem_bounds. lra. Qed.

Lemma reading_m_range (now : Date) : 0 <= reading_m LocalTZA now < 60.
Proof.
  unfold reading_m, reading_s, getMinutes, getSeconds, getMilliseconds, msPerSecond.
  set (lt := LocalTime LocalTZA now).
  pose proof (Z.mod_pos_bound (lt / msPerMinute) 60 ltac:(lia)) as [M0 M1].
  pose proof (Z.mod_pos_bound (lt / 1000) 60 ltac:(lia)) as [S0 S1].
  pose proof (Z.mod_pos_bound lt 1000 ltac:(lia)) as [L0 L1].
  apply IZR_le in M0, S0, L0.
  assert (M1' : (lt / msPerMinute mod 60 <= 59)%Z) by lia.
  assert (S1' : (lt / 1000 mod 60 <= 59)%Z) by lia.
  apply IZR_le in M1', S1'. apply IZR_lt in L1. lra.
Qed.

Lemma reading_g_nonneg (k : Z) (now : Date) :
  (0 <= getHours LocalTZA now + k)%Z -> 0 <= reading_g LocalTZA k now < 24.
Proof.
  intros H. unfold reading_g. apply rem_nonneg; [lra |].
  apply IZR_le in H. rewrite plus_IZR in H.
  pose proof (reading_m_range now). lra.
Qed.

End GMT.

(** C5.  At three in the morning, host on UTC, with the offset lowered to
    -5, the GMT hour the frame computes is -2 and the angle handed to
    [drawGMTHand] is - PI / 6: the value is not reduced into [[0, 24)], and
    the frame rotates the context by - PI / 6 - PI / 2. *)
Theorem gmt_hour_below_zero :
  let now := mkDate (UTC 2026 0 19 3 0) in
  let utc := fun _ : Z => 0%Z in
  getHours utc now = 3%Z
  /\ reading_m utc now = 0
  /\ reading_g utc (-5) now = -2
  /\ ~ (0 <= reading_g utc (-5) now < 24)
  /\ gmtAngle utc (-5) now = - (PI / 6)
  /\ In (rotate (- (PI / 6) - PI / 2))
        (events (drawWatch utc (-5) false [] (mkImage "case" true))
                (fun _ => getTime now) 0).
Proof.
  intros now utc.
  assert (EH : getHours utc now = 3%Z) by reflexivity.
  assert (EM : reading_m utc now = 0).
  { unfold reading_m, reading_s.
    replace (getMinutes utc now) with 0%Z by reflexivity.
    replace (getSeconds utc now) with 0%Z by reflexivity.
    replace (getMilliseconds utc now) with 0%Z by reflexivity.
    lra. }
  assert (EG : reading_g utc (-5) now = -2).
  { unfold reading_g. rewrite EH, EM. rewrite rem_small; lra. }
  split; [exact EH |]. split; [exact EM |]. split; [exact EG |].
  split; [rewrite EG; lra |].
  assert (EA : gmtAngle utc (-5) now = - (PI / 6)).
  { unfold gmtAngle. rewrite EG. lra. }
  split; [exact EA |].
  rewrite <- EA. apply drawWatch_rotates_gmt.
Qed.


(* ================================================================== *)
(** * The clock reading *)

Section ClockReading.

Variable LocalTZA : Z -> Z.

Lemma reading_s_closed (now : Date) :
  reading_s LocalTZA now = IZR (LocalTime LocalTZA now mod 60000) / 1000.
Proof.
  unfold reading_s, getSeconds, getMilliseconds, msPerSecond.
  set (lt := LocalTime LocalTZA now).
  assert (E : (lt mod 60000 = lt mod 1000 + 1000 * ((lt / 1000) mod 60))%Z)
    by (Z.to_euclidean_division_equations; lia).
  rewrite E, plus_IZR, mult_IZR. field.
Qed.

Lemma reading_m_closed (now : Date) :
  reading_m LocalTZA now = IZR (LocalTime LocalTZA now mod 3600000) / 60000.
Proof.
  unfold reading_m. rewrite reading_s_closed. unfold getMinutes, msPerMinute.
  set (lt := LocalTime LocalTZA now).
  assert (E : (lt mod 3600000
               = lt mod 60000 + 60000 * ((lt / 60000) mod 60))%Z)
    by (Z.to_euclidean_division_equations; lia).
  rewrite E, plus_IZR, mult_IZR. field.
Qed.

Lemma reading_h_closed (now : Date) :
  reading_h LocalTZA now = IZR (LocalTime LocalTZA now mod 43200000) / 3600000.
Proof.
  unfold reading_h. rewrite reading_m_closed. unfold getHours, msPerHour.
  set (lt := LocalTime LocalTZA now).
  assert (E : (lt mod 43200000
               = lt mod 3600000
                 + 3600000 * Z.rem ((lt / 3600000) mod 24) 12)%Z)
    by (Z.to_euclidean_division_equations; lia).
  rewrite E, plus_IZR, mult_IZR. field.
Qed.

Lemma IZR_mod_range (x p : Z) :
  (0 < p)%Z -> 0 <= IZR (x mod p) < IZR p.
Proof.
  intros Hp. destruct (Z.mod_pos_bound x p Hp) as [L U].
  split; [apply IZR_le, L | apply IZR_lt, U].
Qed.

(** X1.  The reading of [drawWatch] carries the fractions through: the
    seconds, minutes and hours it computes from the getters are the local
    time within the minute, the hour and the half day, divided by the
    length of the unit.  So they lie in [[0, 60)], [[0, 60)] and
    [[0, 12)], and the three hand angles lie in [[0, 2 * PI)]. *)
Theorem reading_carries_fractions (now : Date) :
  reading_s LocalTZA now = IZR (LocalTime LocalTZA now mod 60000) / 1000
  /\ reading_m LocalTZA now = IZR (LocalTime LocalTZA now mod 3600000) / 60000
  /\ reading_h LocalTZA now
     = IZR (LocalTime LocalTZA now mod 43200000) / 3600000
  /\ 0 <= reading_s LocalTZA now < 60
  /\ 0 <= reading_m LocalTZA now < 60
  /\ 0 <= reading_h LocalTZA now < 12
  /\ 0 <= secondAngle LocalTZA now < 2 * PI
  /\ 0 <= minuteAngle LocalTZA now < 2 * PI
  /\ 0 <= hourAngle LocalTZA now < 2 * PI.
Proof.
  pose proof PI_RGT_0 as HPI.
  pose proof (IZR_mod_range (LocalTime LocalTZA now) 60000 ltac:(lia)) as Hs.
  pose proof (IZR_mod_range (LocalTime LocalTZA now) 3600000 ltac:(lia)) as Hm.
  pose proof (IZR_mod_range (LocalTime LocalTZA now) 43200000 ltac:(lia)) as Hh.
  unfold secondAngle, minuteAngle, hourAngle.
  rewrite reading_s_closed, reading_m_closed, reading_h_closed.
  set (s := IZR (LocalTime LocalTZA now mod 60000)) in *.
  set (m := IZR (LocalTime LocalTZA now mod 3600000)) in *.
  set (h := IZR (LocalTime LocalTZA now mod 43200000)) in *.
  assert (Bs : 0 <= s / 1000 < 60) by lra.
  assert (Bm : 0 <= m / 60000 < 60) by lra.
  assert (Bh : 0 <= h / 3600000 < 12) by lra.
  repeat split; try reflexivity; try lra; nra.
Qed.

Lemma LocalTime_later (now : Date) (d : Z) :
  LocalTZA (getTime now + d) = LocalTZA (getTime now) ->
  LocalTime LocalTZA (later now d) = (LocalTime LocalTZA now + d)%Z.
Proof. intros H. unfold LocalTime, later. cbn [getTime]. rewrite H. lia. Qed.

(** How far a hand of period [p] milliseconds moves in [d] milliseconds:
    its share of the turn, or that less one whole turn when it passes
    twelve. *)
Lemma hand_advance (x d p : Z) :
  (0 <= d < p)%Z ->
  exists k : Z,
    (k = 0%Z \/ k = (-1)%Z)
    /\ IZR ((x + d) mod p) - IZR (x mod p) = IZR d + IZR k * IZR p.
Proof.
  intros Hd.
  assert (H : ((x + d) mod p - x mod p = d
               \/ (x + d) mod p - x mod p = d - p)%Z).
  { pose proof (Z.mod_pos_bound x p ltac:(lia)) as Hr.
    pose proof (Z.div_mod x p ltac:(lia)) as Hx.
    destruct (Z_lt_le_dec (x mod p + d) p) as [Hlt | Hge].
    - left. rewrite <- (Z.mod_unique (x + d) p (x / p) (x mod p + d)); lia.
    - right.
      rewrite <- (Z.mod_unique (x + d) p (x / p + 1) (x mod p + d - p)); lia. }
  destruct H as [H | H]; [exists 0%Z | exists (-1)%Z];
    (split; [auto |]); rewrite <- minus_IZR, H;
    [| rewrite minus_IZR]; simpl; lra.
Qed.

(** X2.  While the zone adjustment of the host does not change, [d]
    milliseconds later (less than a minute) the second hand has advanced
    by [d / 60000] of a turn, the minute hand by [d / 3600000] and the
    hour hand by [d / 43200000], each up to one whole turn: the hands move
    continuously and wrap at twelve.  For one second these are
    2 * PI / 60, 2 * PI / 3600 and 2 * PI / 43200. *)
Theorem hands_advance_continuously (now : Date) (d : Z)
    (Hd : (0 <= d < 60000)%Z)
    (Hzone : LocalTZA (getTime now + d) = LocalTZA (getTime now)) :
  (exists k : Z,
      (k = 0%Z \/ k = (-1)%Z)
      /\ secondAngle LocalTZA (later now d) - secondAngle LocalTZA now
         = IZR d / 60000 * (2 * PI) + IZR k * (2 * PI))
  /\ (exists k : Z,
         (k = 0%Z \/ k = (-1)%Z)
         /\ minuteAngle LocalTZA (later now d) - minuteAngle LocalTZA now
            = IZR d / 3600000 * (2 * PI) + IZR k * (2 * PI))
  /\ (exists k : Z,
         (k = 0%Z \/ k = (-1)%Z)
         /\ hourAngle LocalTZA (later now d) - hourAngle LocalTZA now
            = IZR d / 43200000 * (2 * PI) + IZR k * (2 * PI)).
Proof.
  unfold secondAngle, minuteAngle, hourAngle.
  rewrite !reading_s_closed, !reading_m_closed, !reading_h_closed.
  rewrite (LocalTime_later now d Hzone).
  set (lt := LocalTime LocalTZA now).
  destruct (hand_advance lt d 60000 ltac:(lia)) as (ks & Hks & Es).
  destruct (hand_advance lt d 3600000 ltac:(lia)) as (km & Hkm & Em).
  destruct (hand_advance lt d 43200000 ltac:(lia)) as (kh & Hkh & Eh).
  split; [exists ks | split; [exists km | exists kh]];
    (split; [assumption |]).
  - replace (IZR ((lt + d) mod 60000)) with
      (IZR (lt mod 60000) + (IZR d + IZR ks * 60000)) by lra. field.
  - replace (IZR ((lt + d) mod 3600000)) with
      (IZR (lt mod 3600000) + (IZR d + IZR km * 3600000)) by lra. field.
  - replace (IZR ((lt + d) mod 43200000)) with
      (IZR (lt mod 43200000) + (IZR d + IZR kh * 43200000)) by lra. field.
Qed.

End ClockReading.

Lemma hands_advance_continuously_witness :
  let utc := fun _ : Z => 0%Z in
  (0 <= 1000 < 60000)%Z
  /\ utc (getTime ref + 1000)%Z = utc (getTime ref)
  /\ exists k : Z,
      (k = 0%Z \/ k = (-1)%Z)
      /\ secondAngle utc (later ref 1000) - secondAngle utc ref
         = IZR 1000 / 60000 * (2 * PI) + IZR k * (2 * PI).
Proof.
  intros utc.
  assert (H1 : (0 <= 1000 < 60000)%Z) by lia.
  assert (H2 : utc (getTime ref + 1000)%Z = utc (getTime ref)) by reflexivity.
  split; [exact H1 |]. split; [exact H2 |].
  exact (proj1 (hands_advance_continuously utc ref 1000 H1 H2)).
Defined.

(* ================================================================== *)
(** * The keys and the GMT offset *)

Lemma handleKey_cases (key : string) (p : Z) :
  handleKey key p
  = (p + (if (key =? "ArrowRight")%string then 1 else 0)
     - (if (key =? "ArrowLeft")%string then 1 else 0))%Z.
Proof.
  unfold handleKey.
  destruct (String.eqb_spec key "ArrowRight") as [-> | _]; cbn; [lia |].
  destruct (key =? "ArrowLeft")%string; lia.
Qed.

Lemma pressKeys_count (keys : list string) :
  forall p,
    pressKeys keys p
    = (p + Z.of_nat (count_occ string_dec keys "ArrowRight"%string)
       - Z.of_nat (count_occ string_dec keys "ArrowLeft"%string))%Z.
Proof.
  induction keys as [| key keys IH]; intros p; [cbn; lia |].
  cbn [pressKeys fold_left]. fold (pressKeys keys (handleKey key p)).
  rewrite IH, handleKey_cases. cbn [count_occ].
  destruct (String.eqb_spec key "ArrowRight") as [-> | Hr].
  - cbn. lia.
  - destruct (string_dec key "ArrowRight") as [E | _]; [contradiction |].
    destruct (String.eqb_spec key "ArrowLeft") as [-> | Hl].
    + cbn. lia.
    + destruct (string_dec key "ArrowLeft") as [E | _]; [contradiction |]. lia.
Qed.

(** X3.  After any sequence of key events the GMT offset is the offset
    before, plus the number of [ArrowRight] keys, less the number of
    [ArrowLeft] keys, in whatever order they came: it is not bounded, and
    every other key leaves it as it is. *)
Theorem keys_adjust_offset (keys : list string) (p : Z) :
  pressKeys keys p
  = (p + Z.of_nat (count_occ string_dec keys "ArrowRight"%string)
     - Z.of_nat (count_occ string_dec keys "ArrowLeft"%string))%Z
  /\ (forall key,
         key <> "ArrowRight"%string -> key <> "ArrowLeft"%string ->
         handleKey key p = p)
  /\ handleKey "ArrowLeft" (handleKey "ArrowRight" p) = p
  /\ pressKeys (repeat "ArrowRight"%string 30) 0 = 30%Z.
Proof.
  split; [apply pressKeys_count |]. split.
  - intros key Hr Hl. rewrite handleKey_cases.
    destruct (String.eqb_spec key "ArrowRight"); [contradiction |].
    destruct (String.eqb_spec key "ArrowLeft"); [contradiction |]. lia.
  - split; [rewrite !handleKey_cases; cbn; lia | reflexivity].
Qed.

(** Two angles a whole number of turns apart rotate the context alike. *)
Lemma same_rotation (a b : R) (n : Z) :
  (n = 0%Z \/ n = 1%Z) -> b - a = IZR n * (2 * PI) ->
  cos (b - PI / 2) = cos (a - PI / 2) /\ sin (b - PI / 2) = sin (a - PI / 2).
Proof.
  intros [-> | ->] E.
  - assert (b = a) as -> by (simpl in E; lra). split; reflexivity.
  - assert (E' : b - PI / 2 = a - PI / 2 + 2 * INR 1 * PI) by (simpl in *; lra).
    rewrite E'. split; [apply cos_period | apply sin_period].
Qed.

(** X4.  Twenty-four [ArrowRight] keys, or twenty-four [ArrowLeft] keys,
    bring the GMT hand back to where it was: the offset has moved by 24
    and the context is rotated to the same direction. *)
Theorem full_day_of_keys_keeps_gmt_hand (tza : Z -> Z) (k : Z) (now : Date) :
  let right := pressKeys (repeat "ArrowRight"%string 24) k in
  let left := pressKeys (repeat "ArrowLeft"%string 24) k in
  right = (k + 24)%Z /\ left = (k - 24)%Z
  /\ cos (gmtAngle tza right now - PI / 2) = cos (gmtAngle tza k now - PI / 2)
  /\ sin (gmtAngle tza right now - PI / 2) = sin (gmtAngle tza k now - PI / 2)
  /\ cos (gmtAngle tza left now - PI / 2) = cos (gmtAngle tza k now - PI / 2)
  /\ sin (gmtAngle tza left now - PI / 2) = sin (gmtAngle tza k now - PI / 2).
Proof.
  intros right left.
  assert (Er : right = (k + 24)%Z) by (unfold right; rewrite pressKeys_count; cbn; lia).
  assert (El : left = (k - 24)%Z) by (unfold left; rewrite pressKeys_count; cbn; lia).
  split; [exact Er |]. split; [exact El |]. rewrite Er, El.
  destruct (gmtAngle_plus_24 tza k now) as (n & Hn & E).
  destruct (same_rotation _ _ n Hn E) as [C S1].
  destruct (gmtAngle_plus_24 tza (k - 24) now) as (n' & Hn' & E').
  replace (k - 24 + 24)%Z with k in E' by lia.
  destruct (same_rotation _ _ n' Hn' E') as [C' S'].
  repeat split; congruence.
Qed.

(** X5.  The GMT hour of a frame is the local hour plus the offset plus
    the minute fraction, moved by a whole number of days, and it lies
    strictly between -24 and 24, whatever the offset.  When local hour
    plus offset is not negative it lies in [[0, 24)] and the angle of the
    hand in [[0, 2 * PI)]; when local hour plus offset is negative it is
    above -24 and at most 0, and the angle above [- 2 * PI] and at most
    0. *)
Theorem gmt_hour_range (tza : Z -> Z) (k : Z) (now : Date) :
  (exists j : Z,
      reading_g tza k now
      = IZR (getHours tza now) + IZR k + reading_m tza now / 60 - 24 * IZR j)
  /\ -24 < reading_g tza k now < 24
  /\ ((0 <= getHours tza now + k)%Z ->
      0 <= reading_g tza k now < 24 /\ 0 <= gmtAngle tza k now < 2 * PI)
  /\ ((getHours tza now + k < 0)%Z ->
      -24 < reading_g tza k now <= 0
      /\ - (2 * PI) < gmtAngle tza k now <= 0).
Proof.
  pose proof PI_RGT_0 as HPI.
  split.
  { exists (JS.trunc ((IZR (getHours tza now) + IZR k
                       + reading_m tza now / 60) / 24)).
    unfold reading_g. rewrite rem_congruent. lra. }
  split; [apply reading_g_bounds |]. split.
  - intros Hk. pose proof (reading_g_nonneg tza k now Hk) as Hg.
    split; [exact Hg |]. unfold gmtAngle. split; nra.
  - intros Hk.
    assert (Hg : -24 < reading_g tza k now <= 0).
    { unfold reading_g. apply rem_nonpos; [lra |].
      assert (H1 : (getHours tza now + k <= -1)%Z) by lia.
      apply IZR_le in H1. rewrite plus_IZR in H1.
      pose proof (reading_m_range tza now). lra. }
    split; [exact Hg |]. unfold gmtAngle. split; nra.
Qed.

Lemma gmt_hour_range_witness :
  let utc := fun _ : Z => 0%Z in
  let now := mkDate (UTC 2026 0 19 3 0) in
  ((0 <= getHours utc now + 30)%Z /\ 0 <= reading_g utc 30 now < 24)
  /\ ((getHours utc now + -5 < 0)%Z /\ -24 < reading_g utc (-5) now <= 0).
Proof.
  intros utc now.
  assert (H : (0 <= getHours utc now + 30)%Z) by (vm_compute; discriminate).
  assert (H' : (getHours utc now + -5 < 0)%Z) by (vm_compute; reflexivity).
  split; (split; [assumption |]).
  - exact (proj1 (proj1 (proj2 (proj2 (gmt_hour_range utc 30 now))) H)).
  - exact (proj1 (proj2 (proj2 (proj2 (gmt_hour_range utc (-5) now))) H')).
Defined.

(* ================================================================== *)
(** * The loader: the flag and the table *)

Section LoaderReady.

Import Loader.

Lemma length_set_complete (a : list (option Image)) (i : nat) :
  List.length (set_complete a i) = List.length a.
Proof.
  revert i. induction a as [| y a IH]; intros [| i]; cbn; try reflexivity.
  - destruct y; reflexivity.
  - rewrite IH. reflexivity.
Qed.

Lemma length_make_images (urls : list (option string)) :
  forall idx a,
    (List.length a <= idx)%nat ->
    (List.length (make_images urls idx a) <= idx + List.length urls)%nat.
Proof.
  induction urls as [| [url |] urls IH]; intros idx a H; cbn [make_images].
  - cbn. lia.
  - specialize (IH (S idx) (array_set a idx (mkImage url false))).
    rewrite length_array_set in IH. cbn [List.length]. lia.
  - specialize (IH (S idx) a). cbn [List.length]. lia.
Qed.

Lemma step_counted (st : state) (e : image_event) :
  counted st -> counted (step st e).
Proof.
  intros [HC HF]. destruct e as [i | i]; cbn [step].
  - destruct (pending (images st) i) eqn:Hp; [| split; assumption].
    unfold counted. cbn [images loadedCount moonImagesLoaded].
    rewrite completed_set_complete by exact Hp.
    split; [congruence |].
    change (List.length moonPhaseFiles) with 8%nat in *.
    destruct (Nat.eqb_spec (S (loadedCount st)) 8) as [E | E].
    + rewrite E. reflexivity.
    + rewrite HF.
      destruct (Nat.leb_spec 8 (loadedCount st));
        destruct (Nat.leb_spec 8 (S (loadedCount st))); try reflexivity; lia.
  - destruct (pending (images st) i); split; assumption.
Qed.

Lemma run_counted (evs : list image_event) :
  forall st, counted st -> counted (run st evs).
Proof.
  induction evs as [| e evs IH]; intros st H; [exact H |].
  apply IH, step_counted, H.
Qed.

Lemma completed_fetched (fetch_ok : string -> bool) :
  completed (images (fetched fetch_ok)) = 0%nat.
Proof.
  unfold fetched. cbn [images].
  destruct (make_images_spec (map (fetch_url fetch_ok) moonPhaseFiles) 0 []
              ltac:(cbn; lia)) as [_ Hs].
  assert (forall a : list (option Image),
             (forall j, match slot a j with
                        | Some img => complete img = false
                        | None => True
                        end) -> completed a = 0%nat) as Hz.
  { unfold completed. induction a as [| y a IHa]; intros H; [reflexivity |].
    cbn. pose proof (H 0%nat) as H0. unfold slot in H0. cbn in H0.
    assert (is_complete y = false) as ->.
    { destruct y; [exact H0 | reflexivity]. }
    apply IHa. intros j. apply (H (S j)). }
  apply Hz. intros j. rewrite Hs. cbn [Nat.ltb Nat.leb].
  destruct (nth_error _ _) as [[url |] |]; exact I || reflexivity.
Qed.

Lemma fetched_counted (fetch_ok : string -> bool) : counted (fetched fetch_ok).
Proof.
  split; [rewrite completed_fetched; reflexivity | reflexivity].
Qed.

Lemma step_length (st : state) (e : image_event) :
  List.length (images (step st e)) = List.length (images st).
Proof.
  destruct e as [i | i]; cbn [step]; destruct (pending (images st) i);
    cbn [images]; try reflexivity. apply length_set_complete.
Qed.

Lemma run_length (evs : list image_event) :
  forall st, List.length (images (run st evs)) = List.length (images st).
Proof.
  induction evs as [| e evs IH]; intros st; [reflexivity |].
  cbn [run fold_left]. fold (run (step st e) evs).
  rewrite IH. apply step_length.
Qed.

Lemma fetched_length (fetch_ok : string -> bool) :
  (List.length (images (fetched fetch_ok)) <= 8)%nat.
Proof.
  unfold fetched. cbn [images].
  pose proof (length_make_images (map (fetch_url fetch_ok) moonPhaseFiles) 0 []
                ltac:(cbn; lia)) as H.
  rewrite length_map in H. exact H.
Qed.

Lemma completed_le_length (a : list (option Image)) :
  (completed a <= List.length a)%nat.
Proof. unfold completed. apply filter_length_le. Qed.


(** Conversely, complete elements at the first [n] indices count for [n]. *)
Lemma completed_at_least (n : nat) :
  forall a : list (option Image),
    (forall i, (i < n)%nat ->
               exists img, slot a i = Some img /\ complete img = true) ->
    (n <= completed a)%nat.
Proof.
  unfold completed. induction n as [| n IH]; intros a H; [lia |].
  destruct (H 0%nat ltac:(lia)) as (img & E & C).
  destruct a as [| y a]; [discriminate E |].
  unfold slot in E. cbn in E. destruct y as [img' |]; [| discriminate].
  injection E as ->. cbn. rewrite C. cbn.
  apply le_n_S, IH. intros i Hi. apply (H (S i)). lia.
Qed.

Lemma getMoonPhaseImage_range (a : R) : (0 <= getMoonPhaseImage a <= 7)%Z.
Proof.
  unfold getMoonPhaseImage.
  repeat match goal with
         | |- context [Rlt_dec ?x ?y] => destruct (Rlt_dec x y)
         end; lia.
Qed.


Lemma nth_file (i : nat) :
  (i < 8)%nat -> exists f, nth_error moonPhaseFiles i = Some f.
Proof.
  intros H. destruct (nth_error moonPhaseFiles i) as [f |] eqn:E; [eauto |].
  apply nth_error_None in E. cbn in E. lia.
Qed.



(** X7.  When every fetch succeeds and each of the eight elements fires
    its load event, in any order and among any other events, the count
    reaches eight and the images-loaded flag goes up. *)
Theorem all_loaded_raises_flag
    (fetch_ok : string -> bool) (evs : list image_event)
    (Hok : forall f, In f moonPhaseFiles -> fetch_ok f = true)
    (Hload : forall i, (i < 8)%nat -> In (onload i) evs) :
  loadedCount (run (fetched fetch_ok) evs) = 8%nat
  /\ moonImagesLoaded (run (fetched fetch_ok) evs) = true.
Proof.
  set (st := run (fetched fetch_ok) evs).
  destruct (run_counted evs _ (fetched_counted fetch_ok)) as [HC HF].
  fold st in HC, HF.
  assert (H8 : (8 <= completed (images st))%nat).
  { apply completed_at_least. intros i Hi.
    destruct (nth_file i Hi) as [f Ef].
    pose proof (run_slot evs i (fetched fetch_ok)) as Hs.
    rewrite (fetched_slot fetch_ok i f Ef),
      (Hok f (nth_error_In _ _ Ef)) in Hs.
    destruct Hs as (img & E & _ & _). fold st in E.
    exists img. split; [exact E |].
    apply (run_onload_complete evs i (fetched fetch_ok) img (Hload i Hi) E). }
  pose proof (completed_le_length (images st)) as Hle.
  assert (Hlen : (List.length (images st) <= 8)%nat).
  { unfold st. rewrite run_length. apply fetched_length. }
  assert (E8 : loadedCount st = 8%nat) by lia.
  split; [exact E8 |]. rewrite HF, E8. reflexivity.
Qed.

Lemma all_loaded_raises_flag_witness :
  let evs := [onload 2; onload 0; onload 1; onload 2; onload 3; onerror 9;
              onload 7; onload 6; onload 5; onload 4]%nat in
  (forall f, In f moonPhaseFiles -> (fun _ : string => true) f = true)
  /\ (forall i, (i < 8)%nat -> In (onload i) evs)
  /\ moonImagesLoaded (run (fetched (fun _ => true)) evs) = true.
Proof.
  intros evs.
  assert (H1 : forall f, In f moonPhaseFiles -> (fun _ : string => true) f = true)
    by reflexivity.
  assert (H2 : forall i, (i < 8)%nat -> In (onload i) evs).
  { intros i Hi. do 8 (destruct i as [| i]; [cbn; tauto |]). lia. }
  split; [exact H1 |]. split; [exact H2 |].
  exact (proj2 (all_loaded_raises_flag (fun _ => true) evs H1 H2)).
Defined.

Lemma run_present (evs : list image_event) :
  forall st, present (images (run st evs)) = present (images st).
Proof.
  induction evs as [| e evs IH]; intros st; [reflexivity |].
  cbn [run fold_left]. fold (run (step st e) evs). rewrite IH.
  destruct e as [i | i]; cbn [step]; destruct (pending (images st) i);
    cbn [images]; try reflexivity. apply present_set_complete.
Qed.

(** X8.  At every moment after the fetches the number of load events
    counted never exceeds the number of files fetched, which never exceeds
    eight, and the images-loaded flag is up exactly when the count is
    eight.  The table holds, at the index of each file, an element with
    the object URL of that file when its fetch succeeded and a hole when
    it failed, and nothing from index 8 on; the load and error events
    change none of this. *)
Theorem loader_count_within_the_fetched
    (fetch_ok : string -> bool) (evs : list image_event) :
  let st := run (fetched fetch_ok) evs in
  (loadedCount st <= present (images st))%nat
  /\ present (images st) = List.length (filter fetch_ok moonPhaseFiles)
  /\ (present (images st) <= 8)%nat
  /\ moonImagesLoaded st = (loadedCount st =? 8)%nat
  /\ (forall i f,
         nth_error moonPhaseFiles i = Some f ->
         match slot (images st) i with
         | Some img => fetch_ok f = true /\ src img = ("blob:" ++ f)%string
         | None => fetch_ok f = false
         end)
  /\ (forall i, (8 <= i)%nat -> slot (images st) i = None).
Proof.
  intros st.
  destruct (run_counted evs _ (fetched_counted fetch_ok)) as [HC HF].
  fold st in HC, HF.
  assert (HP : present (images st)
               = List.length (filter fetch_ok moonPhaseFiles)).
  { unfold st. rewrite run_present. unfold fetched. cbn [images].
    destruct (make_images_spec (map (fetch_url fetch_ok) moonPhaseFiles) 0 []
                ltac:(cbn; lia)) as [P _].
    rewrite P, count_urls_fetch. reflexivity. }
  assert (H8 : (present (images st) <= 8)%nat).
  { rewrite HP. apply (filter_length_le fetch_ok moonPhaseFiles). }
  pose proof (completed_le_present (images st)) as Hle.
  split; [lia |]. split; [exact HP |]. split; [exact H8 |].
  split.
  { rewrite HF. change (List.length moonPhaseFiles) with 8%nat.
    destruct (Nat.leb_spec 8 (loadedCount st));
      destruct (Nat.eqb_spec (loadedCount st) 8); try reflexivity; lia. }
  split.
  - intros i f Hi. pose proof (run_slot evs i (fetched fetch_ok)) as Hs.
    rewrite (fetched_slot fetch_ok i f Hi) in Hs. fold st in Hs.
    destruct (fetch_ok f).
    + destruct Hs as (img & E & S1 & _). rewrite E. split; [reflexivity | exact S1].
    + rewrite Hs. reflexivity.
  - intros i Hi. apply slot_beyond. unfold st. rewrite run_length.
    pose proof (fetched_length fetch_ok). lia.
Qed.

Lemma revoked_app (a b : list (option Image)) :
  revoked (a ++ b) = revoked a ++ revoked b.
Proof. apply flat_map_app. Qed.

Lemma revoked_set_complete (a : list (option Image)) (i : nat) :
  revoked (set_complete a i) = revoked a.
Proof.
  revert i. induction a as [| y a IH]; intros [| i]; cbn; try reflexivity.
  - destruct y; reflexivity.
  - rewrite IH. reflexivity.
Qed.

Lemma revoked_array_set (a : list (option Image)) (i : nat) (x : Image) :
  (List.length a <= i)%nat ->
  revoked (array_set a i x) = revoked a ++ revoked [Some x].
Proof.
  revert a. induction i as [| i IH]; intros [| y a] H; cbn in H; try lia.
  - reflexivity.
  - cbn [array_set]. change (None :: array_set [] i x)
      with ([None] ++ array_set [] i x).
    rewrite revoked_app, IH by (cbn; lia). reflexivity.
  - cbn [array_set]. change (y :: array_set a i x)
      with ([y] ++ array_set a i x).
    change (y :: a) with ([y] ++ a).
    rewrite !revoked_app, IH by lia. rewrite app_assoc. reflexivity.
Qed.

Lemma prefix_blob (f : string) : String.prefix "blob:" ("blob:" ++ f) = true.
Proof. cbn. destruct f; reflexivity. Qed.

Lemma revoked_make_images (fetch_ok : string -> bool) (files : list string) :
  forall idx a,
    (List.length a <= idx)%nat ->
    revoked (make_images (map (fetch_url fetch_ok) files) idx a)
    = revoked a ++ map (fun f => ("blob:" ++ f)%string) (filter fetch_ok files).
Proof.
  induction files as [| f files IH]; intros idx a H; cbn [map filter make_images].
  - rewrite app_nil_r. reflexivity.
  - unfold fetch_url at 1. destruct (fetch_ok f).
    + rewrite IH by (rewrite length_array_set; lia).
      rewrite revoked_array_set by exact H.
      cbn [revoked flat_map src app map]. rewrite prefix_blob.
      rewrite <- app_assoc. reflexivity.
    + apply IH. lia.
Qed.

Lemma run_revoked (evs : list image_event) :
  forall st, revoked (images (run st evs)) = revoked (images st).
Proof.
  induction evs as [| e evs IH]; intros st; [reflexivity |].
  cbn [run fold_left]. fold (run (step st e) evs). rewrite IH.
  destruct e as [i | i]; cbn [step]; destruct (pending (images st) i);
    cbn [images]; try reflexivity. apply revoked_set_complete.
Qed.

Lemma NoDup_map_injective {A B} (f : A -> B) (l : list A) :
  (forall x y, f x = f y -> x = y) -> NoDup l -> NoDup (map f l).
Proof.
  intros Hinj H. induction H as [| x l Hx _ IH]; cbn; constructor; [| exact IH].
  intros HIn. apply in_map_iff in HIn. destruct HIn as (y & E & Hy).
  apply Hinj in E. subst y. contradiction.
Qed.

(** X9.  When the component unmounts after the fetches, the clean-up
    revokes exactly the object URLs that were created: one for each file
    fetched, in the order of the files, none twice and none for a failed
    fetch, whichever elements have loaded by then. *)
Theorem cleanup_revokes_created_urls
    (fetch_ok : string -> bool) (evs : list image_event) :
  revoked (images (run (fetched fetch_ok) evs))
  = map (fun f => ("blob:" ++ f)%string) (filter fetch_ok moonPhaseFiles)
  /\ List.length (revoked (images (run (fetched fetch_ok) evs)))
     = present (images (run (fetched fetch_ok) evs))
  /\ NoDup (revoked (images (run (fetched fetch_ok) evs))).
Proof.
  assert (E : revoked (images (run (fetched fetch_ok) evs))
              = map (fun f => ("blob:" ++ f)%string)
                  (filter fetch_ok moonPhaseFiles)).
  { rewrite run_revoked. unfold fetched. cbn [images].
    rewrite revoked_make_images by (cbn; lia). reflexivity. }
  split; [exact E |]. split.
  - rewrite E, length_map, run_present. unfold fetched. cbn [images].
    destruct (make_images_spec (map (fetch_url fetch_ok) moonPhaseFiles) 0 []
                ltac:(cbn; lia)) as [P _].
    rewrite P, count_urls_fetch. reflexivity.
  - rewrite E. apply NoDup_map_injective.
    + intros f g H. cbn in H. congruence.
    + apply NoDup_filter. unfold moonPhaseFiles.
      repeat (constructor; [cbn; intuition discriminate |]). constructor.
Qed.

End LoaderReady.

(* ================================================================== *)
(** * The two phase lookups *)

(** In exact arithmetic the moon age is the same one cycle later. *)
Lemma moonAge_period (date : Date) :
  moonAge (later date lunar_cycle_ms) = moonAge date.
Proof.
  unfold moonAge. rewrite days_since_ref_shift.
  replace (IZR lunar_cycle_ms / 86400000) with (IZR 1 * LUNAR_CYCLE)
    by (unfold lunar_cycle_ms, LUNAR_CYCLE; lra).
  apply wrap_shift, LUNAR_CYCLE_pos.
Qed.

Lemma getMoonPhaseImage_monotone (a b : R) :
  a <= b -> (getMoonPhaseImage a <= getMoonPhaseImage b)%Z.
Proof.
  intros H. unfold getMoonPhaseImage.
  repeat match goal with
         | |- context [Rlt_dec ?x ?y] => destruct (Rlt_dec x y)
         end; try lia; lra.
Qed.

Lemma round_unique (x : R) (k : Z) :
  IZR k - 0.5 <= x < IZR k + 0.5 -> JS.round x = k.
Proof.
  intros H. unfold JS.round. symmetry. apply Int_part_spec. lra.
Qed.

(* ================================================================== *)
(** * Saved states, transformations and clips *)

Lemma scoped_app (l1 l2 : list event) (d : nat) :
  scoped (l1 ++ l2) d
  = match scoped l1 d with
    | Some d' => scoped l2 d'
    | None => None
    end.
Proof.
  revert d. induction l1 as [| e l1 IH]; intros d; [reflexivity |].
  cbn [app scoped]. destruct (scope_step e d); [apply IH | reflexivity].
Qed.

Lemma keeps_ret {A} (a : A) (d : nat) : keeps_scope (ret a) d d.
Proof. intros clk n. reflexivity. Qed.

Lemma keeps_Date_now (d : nat) : keeps_scope Date_now d d.
Proof. intros clk n. reflexivity. Qed.

Lemma keeps_ctx (e : event) (d d' : nat) :
  scope_step e d = Some d' -> keeps_scope (ctx e) d d'.
Proof. intros H clk n. cbn. rewrite H. reflexivity. Qed.

Lemma keeps_bind {A B} (m : M A) (f : A -> M B) (d d1 d' : nat) :
  keeps_scope m d d1 -> (forall a, keeps_scope (f a) d1 d') ->
  keeps_scope (bind m f) d d'.
Proof.
  intros Hm Hf clk n. rewrite events_bind, scoped_app, Hm. apply Hf.
Qed.

Lemma keeps_forEach {A} (l : list A) (body : A -> M unit) (d : nat) :
  (forall a, keeps_scope (body a) d d) -> keeps_scope (forEach l body) d d.
Proof.
  intros H. induction l as [| a l IH]; cbn [forEach].
  - apply keeps_ret.
  - eapply keeps_bind; [apply H | intros _; exact IH].
Qed.

Ltac scope :=
  cbv beta zeta;
  lazymatch goal with
  | |- keeps_scope (bind _ _) _ _ =>
      eapply keeps_bind; [scope | intros ?; scope]
  | |- keeps_scope (ret _) _ _ => apply keeps_ret
  | |- keeps_scope Date_now _ _ => apply keeps_Date_now
  | |- keeps_scope (forEach _ _) _ _ => apply keeps_forEach; intros ?; scope
  | |- keeps_scope (ctx _) _ _ => apply keeps_ctx; reflexivity
  | |- keeps_scope (if ?b then _ else _) _ _ => destruct b; scope
  | |- keeps_scope (match ?x with _ => _ end) _ _ => destruct x; scope
  end.

Lemma drawMinuteTrack_scope d : keeps_scope drawMinuteTrack d d.
Proof. unfold drawMinuteTrack. scope. Qed.

Lemma drawBatons_scope d : keeps_scope drawBatons d d.
Proof. unfold drawBatons. scope. Qed.

Lemma drawSwissMade_scope d : keeps_scope drawSwissMade d d.
Proof. unfold drawSwissMade, arcText. scope. Qed.

Lemma drawMoon_scope flag imgs date d :
  keeps_scope (drawMoon flag imgs date) d d.
Proof. unfold drawMoon. scope. Qed.

Lemma drawSidereal_scope date breathe d :
  keeps_scope (drawSidereal date breathe) d d.
Proof. unfold drawSidereal. scope. Qed.

Lemma drawDate_scope tza date d : keeps_scope (drawDate tza date) d d.
Proof. unfold drawDate. scope. Qed.

Lemma drawGMTHand_scope angle d : keeps_scope (drawGMTHand angle) d d.
Proof. unfold drawGMTHand. scope. Qed.

Lemma drawBreguetHand_scope angle len col d :
  keeps_scope (drawBreguetHand angle len col) d d.
Proof. unfold drawBreguetHand. scope. Qed.

Lemma drawSecondsHand_scope angle d : keeps_scope (drawSecondsHand angle) d d.
Proof. unfold drawSecondsHand. scope. Qed.

Lemma drawCase_scope img d : keeps_scope (drawCase img) d d.
Proof. unfold drawCase. scope. Qed.

Lemma drawCrystal_scope breathe d : keeps_scope (drawCrystal breathe) d d.
Proof. unfold drawCrystal. scope. Qed.

Lemma drawGuilloche_scope breathe d : keeps_scope (drawGuilloche breathe) d d.
Proof. unfold drawGuilloche. scope. Qed.

Ltac layer_scope :=
  cbv beta zeta;
  lazymatch goal with
  | |- keeps_scope drawMinuteTrack _ _ => apply drawMinuteTrack_scope
  | |- keeps_scope drawBatons _ _ => apply drawBatons_scope
  | |- keeps_scope drawSwissMade _ _ => apply drawSwissMade_scope
  | |- keeps_scope (drawMoon _ _ _) _ _ => apply drawMoon_scope
  | |- keeps_scope (drawSidereal _ _) _ _ => apply drawSidereal_scope
  | |- keeps_scope (drawDate _ _) _ _ => apply drawDate_scope
  | |- keeps_scope (drawGMTHand _) _ _ => apply drawGMTHand_scope
  | |- keeps_scope (drawBreguetHand _ _ _) _ _ => apply drawBreguetHand_scope
  | |- keeps_scope (drawSecondsHand _) _ _ => apply drawSecondsHand_scope
  | |- keeps_scope (drawCase _) _ _ => apply drawCase_scope
  | |- keeps_scope (drawCrystal _) _ _ => apply drawCrystal_scope
  | |- keeps_scope (bind _ _) _ _ =>
      eapply keeps_bind; [layer_scope | intros ?; layer_scope]
  | |- keeps_scope (ret _) _ _ => apply keeps_ret
  | |- keeps_scope Date_now _ _ => apply keeps_Date_now
  | |- keeps_scope (forEach _ _) _ _ =>
      apply keeps_forEach; intros ?; layer_scope
  | |- keeps_scope (ctx _) _ _ => apply keeps_ctx; reflexivity
  end.

Lemma drawWatch_scope tza gmtOffset flag imgs img d :
  keeps_scope (drawWatch tza gmtOffset flag imgs img) d d.
Proof. unfold drawWatch. layer_scope. Qed.

(** X12.  A frame leaves the coordinate system and the clipping region of
    the context as it found them: every [save] of [drawWatch] is matched
    by a later [restore], no [restore] comes without its [save], and every
    [translate], [rotate] and [clip] is issued between a [save] and its
    [restore].  The same holds of the guilloche routine, which the frame
    does not call. *)
Theorem frame_restores_what_it_saves
    (tza : Z -> Z) (gmtOffset : Z) (flag : bool) (imgs : list (option Image))
    (img : Image) (breathe : R) (clk : Clock) (n : nat) :
  scoped (events (drawWatch tza gmtOffset flag imgs img) clk n) 0 = Some 0%nat
  /\ scoped (events (drawGuilloche breathe) clk n) 0 = Some 0%nat
  /\ In clip (events (drawWatch tza gmtOffset flag imgs img) clk n)
  /\ scoped [clip] 0 = None /\ scoped [restore] 0 = None
  /\ scoped [save; rotate 1; restore; rotate 1] 0 = None.
Proof.
  split; [apply drawWatch_scope |]. split; [apply drawGuilloche_scope |].
  split; [| repeat split; reflexivity].
  unfold drawWatch.
  repeat (cbv beta zeta;
          lazymatch goal with
          | |- In _ (events (bind (drawCrystal _) _) _ _) => fail
          | |- In _ (events (drawCrystal _) _ _) => fail
          | |- In _ (events (bind _ _) _ _) => apply In_bind_right
          end).
  cbv beta zeta. unfold drawCrystal.
  repeat (cbv beta zeta;
          lazymatch goal with
          | |- In _ (events (bind (ctx clip) _) _ _) => fail
          | |- In _ (events (bind _ _) _ _) => apply In_bind_right
          end).
  apply In_bind_left. left. reflexivity.
Qed.

(* ================================================================== *)
(** * The line cap *)

Lemma cap_run_app (l1 l2 : list event) (s : pen) :
  cap_run (l1 ++ l2) s = cap_run l2 (cap_run l1 s).
Proof. apply fold_left_app. Qed.

Lemma stroke_caps_app (l1 l2 : list event) (s : pen) :
  stroke_caps (l1 ++ l2) s
  = stroke_caps l1 s ++ stroke_caps l2 (cap_run l1 s).
Proof.
  revert s. induction l1 as [| e l1 IH]; intros s; [reflexivity |].
  cbn [app stroke_caps cap_run fold_left]. rewrite IH, app_assoc. reflexivity.
Qed.

Lemma moves_ret {A} (a : A) (s : pen) : moves_pen (ret a) s s.
Proof. intros clk n. reflexivity. Qed.

Lemma moves_Date_now (s : pen) : moves_pen Date_now s s.
Proof. intros clk n. reflexivity. Qed.

Lemma moves_ctx (e : event) (s s' : pen) :
  cap_step s e = s' -> moves_pen (ctx e) s s'.
Proof. intros <- clk n. reflexivity. Qed.

Lemma moves_bind {A B} (m : M A) (f : A -> M B) (s s1 s' : pen) :
  moves_pen m s s1 -> (forall a, moves_pen (f a) s1 s') ->
  moves_pen (bind m f) s s'.
Proof.
  intros Hm Hf clk n. rewrite events_bind, cap_run_app, Hm. apply Hf.
Qed.

Lemma moves_forEach {A} (l : list A) (body : A -> M unit) (s : pen) :
  (forall a, moves_pen (body a) s s) -> moves_pen (forEach l body) s s.
Proof.
  intros H. induction l as [| a l IH]; cbn [forEach].
  - apply moves_ret.
  - eapply moves_bind; [apply H | intros _; exact IH].
Qed.

(** A loop of at least one round whose body sets the pen to [s']. *)
Lemma moves_forEach_to {A} (l : list A) (body : A -> M unit) (s s' : pen) :
  l <> [] ->
  (forall a, moves_pen (body a) s s') ->
  (forall a, moves_pen (body a) s' s') ->
  moves_pen (forEach l body) s s'.
Proof.
  intros Hne H1 H2. destruct l as [| a l]; [contradiction |].
  cbn [forEach]. eapply moves_bind; [apply H1 |].
  intros _. apply moves_forEach, H2.
Qed.

Ltac pen_step :=
  cbv beta zeta;
  lazymatch goal with
  | |- moves_pen (bind _ _) _ _ =>
      eapply moves_bind; [pen_step | intros ?; pen_step]
  | |- moves_pen (ret _) _ _ => apply moves_ret
  | |- moves_pen Date_now _ _ => apply moves_Date_now
  | |- moves_pen (forEach _ _) _ _ => apply moves_forEach; intros ?; pen_step
  | |- moves_pen (ctx _) _ _ =>
      apply moves_ctx; cbv [cap_step fst snd]; reflexivity
  | |- moves_pen (if ?b then _ else _) _ _ => destruct b; pen_step
  | |- moves_pen (match ?x with _ => _ end) _ _ => destruct x; pen_step
  end.

Section Pen.

Variables (cap : string) (saved : list string).

Lemma drawMinuteTrack_pen :
  moves_pen drawMinuteTrack (cap, saved) (cap, saved).
Proof. unfold drawMinuteTrack. pen_step. Qed.

Lemma drawSwissMade_pen : moves_pen drawSwissMade (cap, saved) (cap, saved).
Proof. unfold drawSwissMade, arcText. pen_step. Qed.

Lemma drawMoon_pen flag imgs date :
  moves_pen (drawMoon flag imgs date) (cap, saved) (cap, saved).
Proof. unfold drawMoon. pen_step. Qed.

Lemma drawSidereal_pen date breathe :
  moves_pen (drawSidereal date breathe) (cap, saved) (cap, saved).
Proof. unfold drawSidereal. pen_step. Qed.

Lemma drawDate_pen tza date :
  moves_pen (drawDate tza date) (cap, saved) (cap, saved).
Proof. unfold drawDate. pen_step. Qed.

Lemma drawGMTHand_pen angle :
  moves_pen (drawGMTHand angle) (cap, saved) (cap, saved).
Proof. unfold drawGMTHand. pen_step. Qed.

Lemma drawBreguetHand_pen angle len col :
  moves_pen (drawBreguetHand angle len col) (cap, saved) (cap, saved).
Proof. unfold drawBreguetHand. pen_step. Qed.

Lemma drawSecondsHand_pen angle :
  moves_pen (drawSecondsHand angle) (cap, saved) (cap, saved).
Proof. unfold drawSecondsHand. pen_step. Qed.

Lemma drawCase_pen img : moves_pen (drawCase img) (cap, saved) (cap, saved).
Proof. unfold drawCase. pen_step. Qed.

Lemma drawCrystal_pen breathe :
  moves_pen (drawCrystal breathe) (cap, saved) (cap, saved).
Proof. unfold drawCrystal. pen_step. Qed.

(** The batons set the line cap outside any saved state. *)
Lemma drawBatons_pen :
  moves_pen drawBatons (cap, saved) ("square"%string, saved).
Proof.
  unfold drawBatons. cbv beta zeta.
  eapply moves_bind; [apply moves_Date_now |]. intros now.
  apply moves_forEach_to; [discriminate | |]; intros i; pen_step.
Qed.

End Pen.

Ltac layer_pen :=
  cbv beta zeta;
  lazymatch goal with
  | |- moves_pen drawMinuteTrack _ _ => apply drawMinuteTrack_pen
  | |- moves_pen drawBatons _ _ => apply drawBatons_pen
  | |- moves_pen drawSwissMade _ _ => apply drawSwissMade_pen
  | |- moves_pen (drawMoon _ _ _) _ _ => apply drawMoon_pen
  | |- moves_pen (drawSidereal _ _) _ _ => apply drawSidereal_pen
  | |- moves_pen (drawDate _ _) _ _ => apply drawDate_pen
  | |- moves_pen (drawGMTHand _) _ _ => apply drawGMTHand_pen
  | |- moves_pen (drawBreguetHand _ _ _) _ _ => apply drawBreguetHand_pen
  | |- moves_pen (drawSecondsHand _) _ _ => apply drawSecondsHand_pen
  | |- moves_pen (drawCase _) _ _ => apply drawCase_pen
  | |- moves_pen (drawCrystal _) _ _ => apply drawCrystal_pen
  | |- moves_pen (bind _ _) _ _ =>
      eapply moves_bind; [layer_pen | intros ?; layer_pen]
  | |- moves_pen (ret _) _ _ => apply moves_ret
  | |- moves_pen Date_now _ _ => apply moves_Date_now
  | |- moves_pen (forEach _ _) _ _ => apply moves_forEach; intros ?; layer_pen
  | |- moves_pen (ctx _) _ _ =>
      apply moves_ctx; cbv [cap_step fst snd]; reflexivity
  end.

Lemma drawWatch_pen tza gmtOffset flag imgs img cap saved :
  moves_pen (drawWatch tza gmtOffset flag imgs img)
            (cap, saved) ("square"%string, saved).
Proof. unfold drawWatch. layer_pen. Qed.

Lemma stroke_caps_bind {A B} (m : M A) (f : A -> M B) (s : pen) clk n :
  stroke_caps (events (bind m f) clk n) s
  = stroke_caps (events m clk n) s
    ++ stroke_caps (events (f (result m clk n)) clk (snd (fst (m clk n))))
         (cap_run (events m clk n) s).
Proof. rewrite events_bind. apply stroke_caps_app. Qed.

(** A loop whose rounds each stroke once, with the pen they found and
    without changing it. *)
Lemma stroke_caps_forEach {A} (l : list A) (body : A -> M unit)
    (cap : string) (saved : list string) :
  (forall a clk n,
      stroke_caps (events (body a) clk n) (cap, saved) = [cap]
      /\ cap_run (events (body a) clk n) (cap, saved) = (cap, saved)) ->
  forall clk n,
    stroke_caps (events (forEach l body) clk n) (cap, saved)
    = repeat cap (List.length l).
Proof.
  intros H. induction l as [| a l IH]; intros clk n; [reflexivity |].
  cbn [forEach]. rewrite stroke_caps_bind.
  destruct (H a clk n) as [-> ->]. rewrite IH. reflexivity.
Qed.

Lemma drawMinuteTrack_caps (cap : string) (saved : list string) clk n :
  stroke_caps (events drawMinuteTrack clk n) (cap, saved) = repeat cap 60.
Proof.
  unfold drawMinuteTrack.
  rewrite stroke_caps_forEach with (cap := cap) (saved := saved);
    [reflexivity |].
  intros i clk' n'. split; reflexivity.
Qed.

Lemma drawWatch_first_strokes tza gmtOffset flag imgs img cap clk n :
  exists rest,
    stroke_caps (events (drawWatch tza gmtOffset flag imgs img) clk n) (cap, [])
    = repeat cap 61 ++ rest.
Proof.
  unfold drawWatch.
  do 10 (rewrite stroke_caps_bind; cbv beta zeta).
  cbn [events ctx Date_now fst snd stroke_caps cap_run fold_left cap_step app].
  rewrite drawMinuteTrack_caps. eexists. reflexivity.
Qed.

(** X13.  The batons set the line cap to square outside any saved state,
    and nothing sets it back: a frame ends with the line cap square,
    whatever it began with.  The ring of the dial and the sixty ticks of
    the minute track, the first sixty-one strokes of a frame, are stroked
    with the line cap the frame began with.  So in the first frame on a
    fresh context, whose line cap is butt, they are stroked with butt
    caps, and in the frame that follows with square caps. *)
Theorem frame_leaves_square_line_cap
    (tza : Z -> Z) (gmtOffset : Z) (flag : bool) (imgs : list (option Image))
    (img : Image) (cap : string) (clk : Clock) (n n' : nat) :
  let frame := drawWatch tza gmtOffset flag imgs img in
  cap_run (events frame clk n) (cap, []) = ("square"%string, [])
  /\ (exists rest,
         stroke_caps (events frame clk n) (cap, []) = repeat cap 61 ++ rest)
  /\ (exists rest,
         stroke_caps (events frame clk n) ("butt"%string, [])
         = repeat "butt"%string 61 ++ rest)
  /\ (exists rest,
         stroke_caps (events frame clk n')
                     (cap_run (events frame clk n) ("butt"%string, []))
         = repeat "square"%string 61 ++ rest).
Proof.
  intros frame.
  split; [apply drawWatch_pen |].
  split; [apply drawWatch_first_strokes |].
  split; [apply drawWatch_first_strokes |].
  unfold frame. rewrite drawWatch_pen. apply drawWatch_first_strokes.
Qed.

(* ================================================================== *)
(** * The clock reads of a frame *)

Lemma reads_ret {A} (a : A) : reads_from 0 (ret a).
Proof. split; intros; cbn; [lia | reflexivity]. Qed.

Lemma reads_ctx (e : event) : reads_from 0 (ctx e).
Proof. split; intros; cbn; [lia | reflexivity]. Qed.

Lemma reads_Date_now : reads_from 1 Date_now.
Proof.
  split; intros; cbn; [lia |]. unfold Date_now.
  specialize (H 0%nat ltac:(lia)). rewrite Nat.add_0_r in H. rewrite H.
  reflexivity.
Qed.

Lemma reads_bind {A B} (m : M A) (f : A -> M B) (k1 k2 : nat) :
  reads_from k1 m -> (forall a, reads_from k2 (f a)) ->
  reads_from (k1 + k2) (bind m f).
Proof.
  intros [Rm Lm] Hf. split.
  - intros clk n. cbn. destruct (Hf (fst (fst (m clk n)))) as [Rf _].
    rewrite Rf, Rm. lia.
  - intros clk1 clk2 n H. unfold bind.
    assert (E : m clk1 n = m clk2 n).
    { apply Lm. intros j Hj. apply H. lia. }
    rewrite E. destruct (Hf (fst (fst (m clk2 n)))) as [_ Lf].
    rewrite (Lf clk1 clk2 (snd (fst (m clk2 n)))); [reflexivity |].
    intros j Hj. rewrite Rm, <- Nat.add_assoc. apply H. lia.
Qed.

Lemma reads_forEach {A} (l : list A) (body : A -> M unit) :
  (forall a, reads_from 0 (body a)) -> reads_from 0 (forEach l body).
Proof.
  intros H. induction l as [| a l IH]; cbn [forEach].
  - apply reads_ret.
  - apply (reads_bind (body a) (fun _ => forEach l body) 0 0);
      [apply H | intros _; exact IH].
Qed.

Lemma reads_eq {A} (k k' : nat) (m : M A) :
  reads_from k m -> k = k' -> reads_from k' m.
Proof. intros H <-. exact H. Qed.

Ltac reads :=
  cbv beta zeta;
  lazymatch goal with
  | |- reads_from _ (bind _ _) =>
      eapply reads_eq;
      [eapply reads_bind; [reads | intros ?; reads] | reflexivity]
  | |- reads_from _ (ret _) => apply reads_ret
  | |- reads_from _ Date_now => apply reads_Date_now
  | |- reads_from _ (forEach _ _) => apply reads_forEach; intros ?; reads
  | |- reads_from _ (ctx _) => apply reads_ctx
  | |- reads_from _ (if ?b then _ else _) => destruct b; reads
  | |- reads_from _ (match ?x with _ => _ end) => destruct x; reads
  end.

Lemma drawMinuteTrack_reads : reads_from 0 drawMinuteTrack.
Proof. unfold drawMinuteTrack. reads. Qed.

Lemma drawBatons_reads : reads_from 1 drawBatons.
Proof. unfold drawBatons. reads. Qed.

Lemma drawSwissMade_reads : reads_from 0 drawSwissMade.
Proof. unfold drawSwissMade, arcText. reads. Qed.

Lemma drawMoon_reads flag imgs date : reads_from 0 (drawMoon flag imgs date).
Proof. unfold drawMoon. reads. Qed.

Lemma drawSidereal_reads date breathe : reads_from 0 (drawSidereal date breathe).
Proof. unfold drawSidereal. reads. Qed.

Lemma drawDate_reads tza date : reads_from 0 (drawDate tza date).
Proof. unfold drawDate. reads. Qed.

Lemma drawGMTHand_reads angle : reads_from 0 (drawGMTHand angle).
Proof. unfold drawGMTHand. reads. Qed.

Lemma drawBreguetHand_reads angle len col :
  reads_from 1 (drawBreguetHand angle len col).
Proof. unfold drawBreguetHand. reads. Qed.

Lemma drawSecondsHand_reads angle : reads_from 1 (drawSecondsHand angle).
Proof. unfold drawSecondsHand. reads. Qed.

Lemma drawCase_reads img : reads_from 0 (drawCase img).
Proof. unfold drawCase. reads. Qed.

Lemma drawCrystal_reads breathe : reads_from 1 (drawCrystal breathe).
Proof. unfold drawCrystal. reads. Qed.

Ltac layer_reads :=
  cbv beta zeta;
  lazymatch goal with
  | |- reads_from _ drawMinuteTrack => apply drawMinuteTrack_reads
  | |- reads_from _ drawBatons => apply drawBatons_reads
  | |- reads_from _ drawSwissMade => apply drawSwissMade_reads
  | |- reads_from _ (drawMoon _ _ _) => apply drawMoon_reads
  | |- reads_from _ (drawSidereal _ _) => apply drawSidereal_reads
  | |- reads_from _ (drawDate _ _) => apply drawDate_reads
  | |- reads_from _ (drawGMTHand _) => apply drawGMTHand_reads
  | |- reads_from _ (drawBreguetHand _ _ _) => apply drawBreguetHand_reads
  | |- reads_from _ (drawSecondsHand _) => apply drawSecondsHand_reads
  | |- reads_from _ (drawCase _) => apply drawCase_reads
  | |- reads_from _ (drawCrystal _) => apply drawCrystal_reads
  | |- reads_from _ (bind _ _) =>
      eapply reads_eq;
      [eapply reads_bind; [layer_reads | intros ?; layer_reads] | reflexivity]
  | |- reads_from _ (ret _) => apply reads_ret
  | |- reads_from _ Date_now => apply reads_Date_now
  | |- reads_from _ (forEach _ _) =>
      apply reads_forEach; intros ?; layer_reads
  | |- reads_from _ (ctx _) => apply reads_ctx
  end.

Lemma drawWatch_reads tza gmtOffset flag imgs img :
  reads_from 7 (drawWatch tza gmtOffset flag imgs img).
Proof. unfold drawWatch. layer_reads. Qed.

Lemma flat_map_seq_shift {B} (f : nat -> list B) (k : nat) :
  forall s, flat_map f (seq (S s) k) = flat_map (fun j => f (S j)) (seq s k).
Proof.
  induction k as [| k IH]; intros s; [reflexivity |].
  cbn [seq flat_map]. rewrite IH. reflexivity.
Qed.

Lemma animate_events (r : nat) (frame : M unit) :
  reads_from r frame ->
  forall k clk n,
    events (animate k frame) clk n
    = flat_map (fun j => events frame clk (n + r * j)%nat) (seq 0 k)
    /\ snd (fst (animate k frame clk n)) = (n + r * k)%nat.
Proof.
  intros [Rf _]. induction k as [| k IH]; intros clk n.
  - cbn. split; [reflexivity | lia].
  - cbn [animate]. rewrite events_bind. cbn [bind snd fst].
    destruct (IH clk (snd (fst (frame clk n)))) as [E1 E2].
    rewrite E1, E2, Rf. split; [| lia].
    cbn [seq flat_map]. rewrite Nat.mul_0_r, Nat.add_0_r. f_equal.
    rewrite flat_map_seq_shift.
    apply flat_map_ext. intros j. f_equal. lia.
Qed.

(** X14.  A frame reads the clock exactly seven times (the breathing
    phase, the batons, the date, the hour hand, the minute hand, the
    seconds hand, the crystal) and what it draws depends on the clock
    through these seven reads only: two clocks that agree on them give the
    same frame.  In the animation loop the frames are independent of one
    another in the calls they issue: those of round [j] are the calls of
    [drawWatch] run on the reads 7 * j to 7 * j + 6. *)
Theorem frame_reads_clock_seven_times
    (tza : Z -> Z) (gmtOffset : Z) (flag : bool) (imgs : list (option Image))
    (img : Image) (clk1 clk2 : Clock) (n k : nat)
    (Hagree : forall j, (j < 7)%nat -> clk1 (n + j)%nat = clk2 (n + j)%nat) :
  let frame := drawWatch tza gmtOffset flag imgs img in
  events frame clk1 n = events frame clk2 n
  /\ snd (fst (frame clk1 n)) = (n + 7)%nat
  /\ events (animate k frame) clk1 n
     = flat_map (fun j => events frame clk1 (n + 7 * j)%nat) (seq 0 k)
  /\ snd (fst (animate k frame clk1 n)) = (n + 7 * k)%nat.
Proof.
  intros frame.
  pose proof (drawWatch_reads tza gmtOffset flag imgs img) as HR.
  fold frame in HR. destruct HR as [Rf Lf].
  split; [unfold events; rewrite (Lf clk1 clk2 n Hagree); reflexivity |].
  split; [apply Rf |].
  apply (animate_events 7 frame (conj Rf Lf)).
Qed.

Lemma frame_reads_clock_seven_times_witness :
  let utc := fun _ : Z => 0%Z in
  let clk1 : Clock := fun j => if (j <? 7)%nat then 1768824000000%Z else 0%Z in
  let clk2 : Clock := fun _ => 1768824000000%Z in
  let img := mkImage "case" true in
  (forall j, (j < 7)%nat -> clk1 (0 + j)%nat = clk2 (0 + j)%nat)
  /\ events (drawWatch utc 0 false [] img) clk1 0
     = events (drawWatch utc 0 false [] img) clk2 0.
Proof.
  intros utc clk1 clk2 img.
  assert (H : forall j, (j < 7)%nat -> clk1 (0 + j)%nat = clk2 (0 + j)%nat).
  { intros j Hj. do 7 (destruct j as [| j]; [reflexivity |]). lia. }
  split; [exact H |].
  exact (proj1 (frame_reads_clock_seven_times utc 0 false [] img clk1 clk2 0 3 H)).
Defined.

(* ================================================================== *)
(** * The images of a frame *)

Section Yields.

Variable clk : Clock.







End Yields.


Section Silent.

Variables (clk : Clock) (n : nat).












End Silent.




(* ================================================================== *)
(** * The hands, the ticks and the batons on the canvas *)

Lemma marks_app (l1 l2 : list event) (s : frame_of_reference) :
  marks (l1 ++ l2) s = marks l1 s ++ marks l2 (xform_run l1 s).
Proof.
  revert s. induction l1 as [| e l1 IH]; intros s; [reflexivity |].
  cbn [app marks xform_run fold_left]. rewrite IH, app_assoc. reflexivity.
Qed.

Lemma quarter_turn_back (theta : R) :
  cos (theta - PI / 2) = sin theta /\ sin (theta - PI / 2) = - cos theta.
Proof.
  rewrite cos_minus, sin_minus, cos_PI2, sin_PI2. split; ring.
Qed.

(** A point at [x] on the axis of a hand rotated by its angle less a
    quarter turn about the centre. *)
Lemma hand_point (theta x y : R) :
  let m := rotated (translated identity c c) (theta - PI / 2) in
  apply_x m x y = c + x * sin theta + y * cos theta
  /\ apply_y m x y = c - x * cos theta + y * sin theta.
Proof.
  destruct (quarter_turn_back theta) as [C S1].
  cbv [rotated translated identity apply_x apply_y ma mb mc md me mf].
  rewrite C, S1. split; ring.
Qed.

Lemma hand_tip (theta len : R) :
  apply_x (rotated (translated identity c c) (theta - PI / 2)) len 0
  = dial_x len theta
  /\ apply_y (rotated (translated identity c c) (theta - PI / 2)) len 0
     = dial_y len theta.
Proof.
  destruct (hand_point theta len 0) as [Ex Ey]. cbv zeta in Ex, Ey.
  rewrite Ex, Ey. unfold dial_x, dial_y. split; ring.
Qed.

Lemma plain_point (x y : R) :
  apply_x identity x y = x /\ apply_y identity x y = y.
Proof. cbv [apply_x apply_y identity ma mb mc md me mf]. split; ring. Qed.

(** A point written as centre plus radius times the cosine and sine of a
    clock angle less a quarter turn is the dial point of that angle. *)
Lemma dial_point (len theta : R) :
  c + cos (theta - PI / 2) * len = dial_x len theta
  /\ c + sin (theta - PI / 2) * len = dial_y len theta.
Proof.
  destruct (quarter_turn_back theta) as [-> ->]. unfold dial_x, dial_y.
  split; ring.
Qed.

Lemma xform_run_app (l1 l2 : list event) (s : frame_of_reference) :
  xform_run (l1 ++ l2) s = xform_run l2 (xform_run l1 s).
Proof. apply fold_left_app. Qed.

Lemma frame_ret {A} (a : A) s : moves_frame (ret a) s s.
Proof. intros clk n. reflexivity. Qed.

Lemma frame_Date_now s : moves_frame Date_now s s.
Proof. intros clk n. reflexivity. Qed.

Lemma frame_ctx (e : event) s s' :
  xform_step s e = s' -> moves_frame (ctx e) s s'.
Proof. intros <- clk n. reflexivity. Qed.

Lemma frame_bind {A B} (m : M A) (f : A -> M B) s s1 s' :
  moves_frame m s s1 -> (forall a, moves_frame (f a) s1 s') ->
  moves_frame (bind m f) s s'.
Proof.
  intros Hm Hf clk n. rewrite events_bind, xform_run_app, Hm. apply Hf.
Qed.

Lemma frame_forEach {A} (l : list A) (body : A -> M unit) s :
  (forall a, moves_frame (body a) s s) -> moves_frame (forEach l body) s s.
Proof.
  intros H. induction l as [| a l IH]; cbn [forEach].
  - apply frame_ret.
  - eapply frame_bind; [apply H | intros _; exact IH].
Qed.

Ltac frame_step :=
  cbv beta zeta;
  lazymatch goal with
  | |- moves_frame (bind _ _) _ _ =>
      eapply frame_bind; [frame_step | intros ?; frame_step]
  | |- moves_frame (ret _) _ _ => apply frame_ret
  | |- moves_frame Date_now _ _ => apply frame_Date_now
  | |- moves_frame (forEach _ _) _ _ =>
      apply frame_forEach; intros ?; frame_step
  | |- moves_frame (ctx _) _ _ =>
      apply frame_ctx; cbv [xform_step fst snd]; reflexivity
  | |- moves_frame (if ?b then _ else _) _ _ => destruct b; frame_step
  | |- moves_frame (match ?x with _ => _ end) _ _ => destruct x; frame_step
  end.

Lemma In_marks_bind_left {A B} (m : M A) (f : A -> M B) x s clk n :
  In x (marks (events m clk n) s) ->
  In x (marks (events (bind m f) clk n) s).
Proof.
  intros H. rewrite events_bind, marks_app. apply in_or_app. left. exact H.
Qed.

Lemma In_marks_bind_right {A B} (m : M A) (f : A -> M B) x s s1 clk n :
  moves_frame m s s1 ->
  In x (marks (events (f (result m clk n)) clk (snd (fst (m clk n)))) s1) ->
  In x (marks (events (bind m f) clk n) s).
Proof.
  intros Hm H. rewrite events_bind, marks_app, Hm.
  apply in_or_app. right. exact H.
Qed.

Lemma In_marks_forEach {A} (l : list A) (body : A -> M unit) (a : A) x s :
  In a l ->
  (forall a', moves_frame (body a') s s) ->
  (forall clk n, In x (marks (events (body a) clk n) s)) ->
  forall clk n, In x (marks (events (forEach l body) clk n) s).
Proof.
  intros Ha Hs Hx. induction l as [| b l IH]; [destruct Ha |].
  intros clk n. cbn [forEach]. destruct Ha as [-> | Ha].
  - apply In_marks_bind_left, Hx.
  - eapply In_marks_bind_right; [apply Hs | apply IH, Ha].
Qed.

Ltac run_marks :=
  cbv [events result bind ctx ret Date_now fst snd];
  repeat match goal with
         | |- context [Rgt_dec ?x ?y] => destruct (Rgt_dec x y)
         end;
  cbv [events result bind ctx ret Date_now app];
  cbn [marks xform_step fst snd app].

Lemma drawGMTHand_tip theta clk n :
  In (line_to (dial_x (r * 0.65) theta) (dial_y (r * 0.65) theta))
     (marks (events (drawGMTHand theta) clk n) (identity, [])).
Proof.
  destruct (hand_tip theta (r * 0.65)) as [<- <-].
  unfold drawGMTHand. run_marks. find_event.
Qed.

Lemma drawSecondsHand_tip theta clk n :
  In (line_to (dial_x (r * 0.85) theta) (dial_y (r * 0.85) theta))
     (marks (events (drawSecondsHand theta) clk n) (identity, [])).
Proof.
  destruct (hand_tip theta (r * 0.85)) as [<- <-].
  unfold drawSecondsHand. run_marks; find_event.
Qed.

Lemma hand_corner (theta len y : R) :
  apply_x (rotated (translated identity c c) (theta - PI / 2)) len y
  = dial_x len theta + y * cos theta
  /\ apply_y (rotated (translated identity c c) (theta - PI / 2)) len y
     = dial_y len theta + y * sin theta.
Proof.
  destruct (hand_point theta len y) as [Ex Ey]. cbv zeta in Ex, Ey.
  rewrite Ex, Ey. unfold dial_x, dial_y. split; ring.
Qed.

Lemma drawBreguetHand_tip theta len col clk n :
  In (line_to (dial_x len theta + -0.4 * cos theta)
              (dial_y len theta + -0.4 * sin theta))
     (marks (events (drawBreguetHand theta len col) clk n) (identity, []))
  /\ In (line_to (dial_x len theta + 0.4 * cos theta)
                 (dial_y len theta + 0.4 * sin theta))
        (marks (events (drawBreguetHand theta len col) clk n) (identity, [])).
Proof.
  destruct (hand_corner theta len (-0.4)) as [<- <-].
  destruct (hand_corner theta len 0.4) as [<- <-].
  unfold drawBreguetHand. run_marks; split; find_event.
Qed.

Lemma drawMinuteTrack_frame s : moves_frame drawMinuteTrack s s.
Proof. unfold drawMinuteTrack. frame_step. Qed.

Lemma drawMinuteTrack_tick (i : nat) clk n :
  In i (seq 0 60) ->
  In (line_to (dial_x (r * 0.985) (INR i * PI / 30))
              (dial_y (r * 0.985) (INR i * PI / 30)))
     (marks (events drawMinuteTrack clk n) (identity, [])).
Proof.
  intros Hi. destruct (dial_point (r * 0.985) (INR i * PI / 30)) as [<- <-].
  unfold drawMinuteTrack. revert clk n.
  apply In_marks_forEach with (a := i); [exact Hi | |].
  - intros a. frame_step.
  - intros clk n. run_marks.
    rewrite !(proj1 (plain_point _ _)), !(proj2 (plain_point _ _)).
    find_event.
Qed.

Lemma drawBatons_baton (i : nat) clk n :
  In i (seq 0 12) ->
  In (line_to (dial_x (r * 0.88) (INR i * PI / 6))
              (dial_y (r * 0.88) (INR i * PI / 6)))
     (marks (events drawBatons clk n) (identity, [])).
Proof.
  intros Hi. destruct (dial_point (r * 0.88) (INR i * PI / 6)) as [<- <-].
  unfold drawBatons. cbv beta zeta.
  eapply In_marks_bind_right; [apply frame_Date_now |]. cbv beta.
  generalize (result Date_now clk n) (snd (fst (Date_now clk n))).
  intros now reads. revert clk reads.
  apply In_marks_forEach with (a := i); [exact Hi | |].
  - intros a. frame_step.
  - intros clk reads. run_marks;
      rewrite !(proj1 (plain_point _ _)), !(proj2 (plain_point _ _));
      find_event.
Qed.

Lemma drawSidereal_tip date breathe clk n :
  In (line_to (c - r * 0.55
               + r * 0.23 * 0.55 * cos (getSiderealAngle date + PI / 6))
              (c + r * 0.23 * 0.55 * sin (getSiderealAngle date + PI / 6)))
     (marks (events (drawSidereal date breathe) clk n) (identity, [])).
Proof.
  set (sigma := getSiderealAngle date + PI / 6).
  assert (E : apply_x (rotated (translated identity (c - r * 0.55) c) sigma)
                      (r * 0.23 * 0.55) 0
              = c - r * 0.55 + r * 0.23 * 0.55 * cos sigma
              /\ apply_y (rotated (translated identity (c - r * 0.55) c) sigma)
                         (r * 0.23 * 0.55) 0
                 = c + r * 0.23 * 0.55 * sin sigma).
  { cbv [rotated translated identity apply_x apply_y ma mb mc md me mf].
    split; ring. }
  destruct E as [<- <-]. unfold drawSidereal. run_marks. find_event.
Qed.

Lemma dial_turn (len theta : R) (k : Z) :
  (k = 0%Z \/ k = 1%Z) ->
  dial_x len (theta + IZR k * (2 * PI)) = dial_x len theta
  /\ dial_y len (theta + IZR k * (2 * PI)) = dial_y len theta.
Proof.
  unfold dial_x, dial_y. intros [-> | ->].
  - replace (theta + IZR 0 * (2 * PI)) with theta by (simpl; lra).
    split; reflexivity.
  - replace (theta + IZR 1 * (2 * PI)) with (theta + 2 * INR 1 * PI)
      by (simpl; lra).
    rewrite sin_period, cos_period. split; reflexivity.
Qed.

(** X16.  On the canvas a hand of clock angle [theta] reaches from the
    centre of the dial to the point at its length in the direction
    [theta], where 0 is twelve o'clock and the angle grows clockwise: the
    GMT hand ends at [0.65 r], the seconds hand at [0.85 r], and the hour
    and minute hands end in two corners 0.4 to either side of the point at
    their length.  The sixty ticks end at [0.985 r] in the directions
    [i * PI / 30] and the twelve batons at [0.88 r] in the directions
    [i * PI / 6], so a hand of that angle points at its tick or baton.
    The GMT hand ends at the same point for an offset 24 hours larger.
    The sidereal hand ends at its length from the centre of its subdial at
    the sidereal angle plus PI / 6, measured from three o'clock. *)
Theorem hands_point_in_clock_direction
    (tza : Z -> Z) (k : Z) (now date : Date) (theta len breathe : R)
    (col : string) (clk : Clock) (n : nat) :
  In (line_to (dial_x (r * 0.65) theta) (dial_y (r * 0.65) theta))
     (marks (events (drawGMTHand theta) clk n) (identity, []))
  /\ In (line_to (dial_x (r * 0.85) theta) (dial_y (r * 0.85) theta))
        (marks (events (drawSecondsHand theta) clk n) (identity, []))
  /\ In (line_to (dial_x len theta + -0.4 * cos theta)
                 (dial_y len theta + -0.4 * sin theta))
        (marks (events (drawBreguetHand theta len col) clk n) (identity, []))
  /\ In (line_to (dial_x len theta + 0.4 * cos theta)
                 (dial_y len theta + 0.4 * sin theta))
        (marks (events (drawBreguetHand theta len col) clk n) (identity, []))
  /\ Forall (fun i =>
               In (line_to (dial_x (r * 0.985) (INR i * PI / 30))
                           (dial_y (r * 0.985) (INR i * PI / 30)))
                  (marks (events drawMinuteTrack clk n) (identity, [])))
            (seq 0 60)
  /\ Forall (fun i =>
               In (line_to (dial_x (r * 0.88) (INR i * PI / 6))
                           (dial_y (r * 0.88) (INR i * PI / 6)))
                  (marks (events drawBatons clk n) (identity, [])))
            (seq 0 12)
  /\ (dial_x len 0 = c /\ dial_y len 0 = c - len
      /\ dial_x len (PI / 2) = c + len /\ dial_y len (PI / 2) = c)
  /\ (dial_x len (gmtAngle tza (k + 24) now) = dial_x len (gmtAngle tza k now)
      /\ dial_y len (gmtAngle tza (k + 24) now)
         = dial_y len (gmtAngle tza k now))
  /\ In (line_to (c - r * 0.55
                  + r * 0.23 * 0.55 * cos (getSiderealAngle date + PI / 6))
                 (c + r * 0.23 * 0.55 * sin (getSiderealAngle date + PI / 6)))
        (marks (events (drawSidereal date breathe) clk n) (identity, [])).
Proof.
  split; [apply drawGMTHand_tip |].
  split; [apply drawSecondsHand_tip |].
  split; [apply drawBreguetHand_tip |].
  split; [apply drawBreguetHand_tip |].
  split; [apply Forall_forall; intros i Hi; apply drawMinuteTrack_tick, Hi |].
  split; [apply Forall_forall; intros i Hi; apply drawBatons_baton, Hi |].
  split.
  { unfold dial_x, dial_y.
    rewrite sin_0, cos_0, sin_PI2, cos_PI2. repeat split; ring. }
  split; [| apply drawSidereal_tip].
  destruct (gmtAngle_plus_24 tza k now) as (j & Hj & E).
  replace (gmtAngle tza (k + 24) now)
    with (gmtAngle tza k now + IZR j * (2 * PI)) by lra.
  apply dial_turn, Hj.
Qed.

(* ================================================================== *)
(** * The marking along the bottom of the dial *)

Lemma marks_bind {A B} (m : M A) (f : A -> M B) s clk n :
  marks (events (bind m f) clk n) s
  = marks (events m clk n) s
    ++ marks (events (f (result m clk n)) clk (snd (fst (m clk n))))
         (xform_run (events m clk n) s).
Proof. rewrite events_bind. apply marks_app. Qed.

Lemma marks_forEach {A} (l : list A) (body : A -> M unit)
    (g : A -> list mark) s :
  (forall a clk n,
      marks (events (body a) clk n) s = g a
      /\ xform_run (events (body a) clk n) s = s) ->
  forall clk n,
    marks (events (forEach l body) clk n) s = flat_map g l
    /\ xform_run (events (forEach l body) clk n) s = s.
Proof.
  intros H. induction l as [| a l IH]; intros clk n; [split; reflexivity |].
  cbn [forEach flat_map]. rewrite marks_bind, events_bind, xform_run_app.
  destruct (H a clk n) as [-> ->]. destruct (IH clk (snd (fst (body a clk n))))
    as [E1 E2].
  split; [rewrite E1; reflexivity | exact E2].
Qed.

Lemma flat_map_singleton {A B} (f : A -> B) (l : list A) :
  flat_map (fun x => [f x]) l = map f l.
Proof.
  induction l as [| x l IH];
    [reflexivity | cbn [flat_map map app]; rewrite IH; reflexivity].
Qed.

(** The anchor of a letter: the context is rotated by the angle of the
    letter, moved up by the radius and turned by half a turn. *)
Lemma arc_letter (a radius : R) :
  let m := rotated (translated (rotated (translated identity c c) a)
                               0 (- radius)) PI in
  apply_x m 0 0 = dial_x radius a /\ apply_y m 0 0 = dial_y radius a.
Proof.
  cbv [rotated translated identity apply_x apply_y ma mb mc md me mf
       dial_x dial_y].
  split; ring.
Qed.

(** [arcText] draws one letter for each character of the word, the last
    character first, the [i]-th drawn at the angle [start + i * step]. *)
Lemma arcText_marks (word : string) (start step radius : R)
    (saved : list affine) clk n :
  marks (events (arcText word start step radius) clk n)
        (translated identity c c, saved)
  = map (fun chi =>
           text_at (String (fst chi) EmptyString)
                   (dial_x radius (start + INR (snd chi) * step))
                   (dial_y radius (start + INR (snd chi) * step)))
        (indexed (rev (list_ascii_of_string word)))
  /\ xform_run (events (arcText word start step radius) clk n)
               (translated identity c c, saved)
     = (translated identity c c, saved).
Proof.
  unfold arcText.
  destruct (marks_forEach (indexed (rev (list_ascii_of_string word)))
              (fun chi =>
                 ctx save ;;
                 ctx (rotate (start + INR (snd chi) * step)) ;;
                 ctx (translate 0 (- radius)) ;;
                 ctx (rotate PI) ;;
                 ctx (fillText (String (fst chi) EmptyString) 0 0) ;;
                 ctx restore)
              (fun chi =>
                 [text_at (String (fst chi) EmptyString)
                          (dial_x radius (start + INR (snd chi) * step))
                          (dial_y radius (start + INR (snd chi) * step))])
              (translated identity c c, saved)) with (clk := clk) (n := n)
    as [E1 E2].
  - intros [ch i] clk' n'. cbn [fst snd].
    destruct (arc_letter (start + INR i * step) radius) as [Ex Ey].
    cbv zeta in Ex, Ey. split; [| reflexivity].
    cbv [events bind ctx fst snd app]. cbn [marks xform_step fst snd app].
    rewrite Ex, Ey. reflexivity.
  - split; [| exact E2]. rewrite E1. apply flat_map_singleton.
Qed.

(** The letters of the marking as [drawSwissMade] issues them. *)
Lemma drawSwissMade_marks clk n :
  marks (events drawSwissMade clk n) (identity, [])
  = [ letter_at "S" (49 * PI / 48);
      letter_at "S" (49 * PI / 48 + PI / 32);
      letter_at "I" (49 * PI / 48 + 2 * (PI / 32));
      letter_at "W" (49 * PI / 48 + 3 * (PI / 32));
      letter_at "S" (49 * PI / 48 + 4 * (PI / 32));
      letter_at "E" (13 * PI / 15);
      letter_at "D" (13 * PI / 15 + PI / 30);
      letter_at "A" (13 * PI / 15 + 2 * (PI / 30));
      letter_at "M" (13 * PI / 15 + 3 * (PI / 30)) ].
Proof.
  unfold drawSwissMade. cbv zeta.
  repeat (rewrite marks_bind;
          cbn [events ctx marks xform_run xform_step fold_left fst snd app]).
  repeat rewrite events_bind, xform_run_app.
  cbn [events ctx marks xform_run xform_step fold_left fst snd app].
  repeat match goal with
  | |- context [xform_run (events (arcText ?w ?a ?b ?d) ?k ?j)
                          (translated identity c c, ?saved)] =>
      rewrite (proj2 (arcText_marks w a b d saved k j))
  | |- context [fold_left xform_step (events (arcText ?w ?a ?b ?d) ?k ?j) ?s] =>
      change (fold_left xform_step (events (arcText w a b d) k j) s)
        with (xform_run (events (arcText w a b d) k j) s)
  | |- context [marks (events (arcText ?w ?a ?b ?d) ?k ?j)
                      (translated identity c c, ?saved)] =>
      rewrite (proj1 (arcText_marks w a b d saved k j))
  end.
  cbn [indexed rev list_ascii_of_string combine seq Datatypes.length
       String.length app map fst snd marks xform_step].
  unfold letter_at.
  repeat (f_equal; try (cbn [INR]; field)).
Qed.

Lemma text_radius_pos : 0 < r * 0.82.
Proof. unfold r, size. lra. Qed.

(** On the lower half of the dial a larger clock angle lies further to
    the left. *)
Lemma lower_half_right_to_left (a b : R) :
  PI / 2 <= a -> a < b -> b <= 3 * (PI / 2) ->
  dial_x (r * 0.82) b < dial_x (r * 0.82) a.
Proof.
  intros Ha Hab Hb. unfold dial_x.
  pose proof text_radius_pos as Hr.
  assert (sin b < sin a) by (apply sin_decreasing_1; lra).
  nra.
Qed.

Lemma lower_half_below_centre (a : R) :
  PI / 2 < a -> a < 3 * (PI / 2) -> c < dial_y (r * 0.82) a.
Proof.
  intros Ha Hb. unfold dial_y.
  pose proof text_radius_pos as Hr.
  pose proof (cos_lt_0 a Ha Hb). nra.
Qed.

Lemma left_half_left_of_centre (a : R) :
  PI < a -> a < 2 * PI -> dial_x (r * 0.82) a < c.
Proof.
  intros Ha Hb. unfold dial_x.
  pose proof text_radius_pos as Hr.
  pose proof (sin_lt_0 a Ha Hb). nra.
Qed.

Lemma right_half_right_of_centre (a : R) :
  0 < a -> a < PI -> c < dial_x (r * 0.82) a.
Proof.
  intros Ha Hb. unfold dial_x.
  pose proof text_radius_pos as Hr.
  pose proof (sin_gt_0 a Ha Hb). nra.
Qed.

(** X17.  The marking along the bottom of the dial.  [arcText] draws one
    letter for each character of its word, the last character first, each
    anchored on the circle of the given radius at the clock angle
    [start + i * step] of its place [i] in the drawing order, and leaves
    the frame of reference as it found it.  For the two words of
    [drawSwissMade] this puts every letter below the centre of the dial,
    the five letters of the first word left of the centre and the four of
    the second right of it, and, taken from left to right across the
    canvas, the letters spell SWISS and then MADE: each word is drawn
    backwards along an angle that grows clockwise, which on the lower half
    of the dial runs from right to left. *)
Theorem marking_reads_left_to_right (clk : Clock) (n : nat) :
  (forall word start step radius saved,
      marks (events (arcText word start step radius) clk n)
            (translated identity c c, saved)
      = map (fun chi =>
               text_at (String (fst chi) EmptyString)
                       (dial_x radius (start + INR (snd chi) * step))
                       (dial_y radius (start + INR (snd chi) * step)))
            (indexed (rev (list_ascii_of_string word)))
      /\ xform_run (events (arcText word start step radius) clk n)
                   (translated identity c c, saved)
         = (translated identity c c, saved))
  /\ let letters := marks (events drawSwissMade clk n) (identity, []) in
     let reading := rev (firstn 5 letters) ++ rev (skipn 5 letters) in
     map mark_text reading
     = ["S"; "W"; "I"; "S"; "S"; "M"; "A"; "D"; "E"]%string
     /\ increasing (map mark_x reading)
     /\ Forall (fun k => c < mark_y k) letters
     /\ Forall (fun k => mark_x k < c) (firstn 5 letters)
     /\ Forall (fun k => c < mark_x k) (skipn 5 letters).
Proof.
  split; [intros; apply arcText_marks |].
  cbv zeta. rewrite drawSwissMade_marks.
  cbn [firstn skipn rev app map letter_at mark_text mark_x mark_y increasing].
  pose proof PI_RGT_0 as Hpi.
  split; [reflexivity |].
  split.
  { repeat split; apply lower_half_right_to_left; lra. }
  split.
  { repeat constructor; apply lower_half_below_centre; lra. }
  split.
  { repeat constructor; apply left_half_left_of_centre; lra. }
  repeat constructor; apply right_half_right_of_centre; lra.
Qed.

(* ================================================================== *)
(** * Rounding to 53 bits

    The powers of two, the exponent of a number, and what rounding does:
    it moves a number by at most the fraction [pow2 (-53)] of it, keeps
    the numbers of 53 bits, and is computed here from the exponent and the
    integral significand. *)

Import Binary64.

Lemma Rabs_bound (a b : R) : Rabs a <= b -> - b <= a <= b.
Proof. unfold Rabs. destruct (Rcase_abs a); lra. Qed.

Lemma pow2_pos (e : Z) : 0 < pow2 e.
Proof. apply powerRZ_lt. lra. Qed.

Lemma pow2_add (a b : Z) : pow2 (a + b) = pow2 a * pow2 b.
Proof. apply powerRZ_add. lra. Qed.

Lemma pow2_0 : pow2 0 = 1.
Proof. reflexivity. Qed.

Lemma pow2_succ (a : Z) : pow2 (a + 1) = 2 * pow2 a.
Proof. rewrite pow2_add. unfold pow2 at 2. simpl. lra. Qed.

Lemma pow2_opp (a : Z) : pow2 (- a) = / pow2 a.
Proof. apply powerRZ_neg'. Qed.

Lemma pow2_ln (e : Z) : ln (pow2 e) = IZR e * ln 2.
Proof.
  unfold pow2. rewrite powerRZ_Rpower by lra. apply ln_Rpower.
Qed.

Lemma ln2_pos : 0 < ln 2.
Proof. pose proof ln_lt_2. lra. Qed.

Lemma pow2_lt (a b : Z) : (a < b)%Z -> pow2 a < pow2 b.
Proof.
  intros H. apply ln_lt_inv; try apply pow2_pos.
  rewrite !pow2_ln. apply Rmult_lt_compat_r; [apply ln2_pos | now apply IZR_lt].
Qed.

Lemma pow2_le (a b : Z) : (a <= b)%Z -> pow2 a <= pow2 b.
Proof.
  intros H. destruct (Z.eq_dec a b) as [-> | N]; [lra |].
  left. apply pow2_lt. lia.
Qed.

Lemma pow2_lt_inv (a b : Z) : pow2 a < pow2 b -> (a < b)%Z.
Proof.
  intros H. destruct (Z_lt_le_dec a b) as [L | L]; [exact L |].
  apply pow2_le in L. lra.
Qed.

Lemma pow2_nat (n : nat) : pow2 (Z.of_nat n) = IZR (2 ^ Z.of_nat n).
Proof.
  unfold pow2. rewrite <- pow_powerRZ. rewrite <- pow_IZR. reflexivity.
Qed.

Lemma pow2_IZR (k : Z) : (0 <= k)%Z -> IZR (2 ^ k) = pow2 k.
Proof.
  intros Hk. rewrite <- (Z2Nat.id k Hk). symmetry. apply pow2_nat.
Qed.

(** The exponent brackets the number between two powers of two. *)
Lemma mag_spec (x : R) :
  x <> 0 -> pow2 (mag x) <= Rabs x < pow2 (mag x + 1).
Proof.
  intros Hx. assert (Hp : 0 < Rabs x) by now apply Rabs_pos_lt.
  pose proof ln2_pos as L2.
  destruct (base_Int_part (ln (Rabs x) / ln 2)) as [H1 H2].
  fold (mag x) in H1, H2.
  assert (B1 : IZR (mag x) * ln 2 <= ln (Rabs x)).
  { apply (proj1 (div_bracket (ln (Rabs x)) (ln 2) (IZR (mag x)) L2)), H1. }
  assert (B2 : ln (Rabs x) < IZR (mag x + 1) * ln 2).
  { rewrite plus_IZR.
    apply (proj2 (div_bracket (ln (Rabs x)) (ln 2) (IZR (mag x) + 1) L2)).
    lra. }
  rewrite <- !pow2_ln in *.
  split.
  - destruct (Rle_lt_dec (pow2 (mag x)) (Rabs x)) as [G | G]; [exact G |].
    apply ln_increasing in G; [lra | exact Hp].
  - apply ln_lt_inv; [exact Hp | apply pow2_pos | exact B2].
Qed.

Lemma mag_unique (x : R) (e : Z) :
  pow2 e <= Rabs x < pow2 (e + 1) -> mag x = e.
Proof.
  intros [H1 H2]. pose proof (pow2_pos e) as Hp.
  assert (Hx : x <> 0).
  { intros ->. rewrite Rabs_R0 in H1. lra. }
  destruct (mag_spec x Hx) as [M1 M2].
  assert (mag x < e + 1)%Z by (apply pow2_lt_inv; lra).
  assert (e < mag x + 1)%Z by (apply pow2_lt_inv; lra).
  lia.
Qed.

Lemma nearest_even_error (y : R) : Rabs (IZR (nearest_even y) - y) <= 1 / 2.
Proof.
  unfold nearest_even. destruct (base_Int_part y) as [H1 H2].
  destruct (Rlt_dec _ _) as [A | A].
  - apply Rabs_le. lra.
  - destruct (Rlt_dec _ _) as [B | B].
    + rewrite plus_IZR. apply Rabs_le. lra.
    + destruct (Z.even _); [| rewrite plus_IZR]; apply Rabs_le; lra.
Qed.

Lemma nearest_even_near (y : R) (m : Z) :
  Rabs (y - IZR m) < 1 / 2 -> nearest_even y = m.
Proof.
  intros H. apply Rabs_def2 in H. destruct H as [H1 H2].
  unfold nearest_even. destruct (base_Int_part y) as [I1 I2].
  set (f := Int_part y) in *.
  destruct (Rlt_dec _ _) as [A | A].
  - assert (f - m < 1)%Z by (apply lt_IZR; rewrite minus_IZR; lra).
    assert (m - f < 1)%Z by (apply lt_IZR; rewrite minus_IZR; lra).
    lia.
  - destruct (Rlt_dec _ _) as [B | B].
    + assert (f + 1 - m < 1)%Z
        by (apply lt_IZR; rewrite minus_IZR, plus_IZR; lra).
      assert (m - (f + 1) < 1)%Z
        by (apply lt_IZR; rewrite minus_IZR, plus_IZR; lra).
      lia.
    + exfalso. assert (E : y - IZR f = 1 / 2) by lra.
      assert (m - f < 1)%Z by (apply lt_IZR; rewrite minus_IZR; lra).
      assert (f - m < 0)%Z by (apply lt_IZR; rewrite minus_IZR; lra).
      lia.
Qed.

Lemma round_0 : round 0 = 0.
Proof. unfold round. destruct (Req_dec_T 0 0); [reflexivity | contradiction]. Qed.

(** The relative error of rounding is at most [pow2 (-53)]. *)
Lemma round_error (x : R) : Rabs (round x - x) <= Rabs x * pow2 (-53).
Proof.
  unfold round. destruct (Req_dec_T x 0) as [-> | Hx].
  - rewrite Rminus_0_r, Rabs_R0. lra.
  - destruct (mag_spec x Hx) as [M1 _].
    set (e := mag x) in *.
    pose proof (nearest_even_error (x * pow2 (52 - e))) as N.
    set (m := nearest_even (x * pow2 (52 - e))) in *.
    pose proof (pow2_pos (e - 52)) as P1.
    assert (E : IZR m * pow2 (e - 52) - x
                = (IZR m - x * pow2 (52 - e)) * pow2 (e - 52)).
    { rewrite Rmult_minus_distr_r, Rmult_assoc, <- pow2_add.
      replace (52 - e + (e - 52))%Z with 0%Z by lia. rewrite pow2_0. ring. }
    rewrite E, Rabs_mult, (Rabs_right (pow2 (e - 52))) by lra.
    apply Rle_trans with (1 / 2 * pow2 (e - 52)).
    + apply Rmult_le_compat_r; lra.
    + replace (e - 52)%Z with (e + -53 + 1)%Z by lia.
      rewrite pow2_succ, pow2_add.
      pose proof (pow2_pos (-53)). nra.
Qed.

(** What a number rounds to, from its exponent [e] and the integer [m]
    nearest to its significand. *)
Lemma round_eq (x : R) (e m : Z) :
  pow2 e <= Rabs x < pow2 (e + 1) ->
  Rabs (x * pow2 (52 - e) - IZR m) < 1 / 2 ->
  round x = IZR m * pow2 (e - 52).
Proof.
  intros He Hm. pose proof (pow2_pos e) as Hp.
  unfold round. destruct (Req_dec_T x 0) as [-> | Hx].
  - rewrite Rabs_R0 in He. lra.
  - rewrite (mag_unique x e He), (nearest_even_near _ m Hm). reflexivity.
Qed.

(** A number of 53 bits is not moved. *)
Lemma round_representable (m e : Z) :
  (Z.abs m < 2 ^ 53)%Z -> round (IZR m * pow2 e) = IZR m * pow2 e.
Proof.
  intros Hm. destruct (Z.eq_dec m 0) as [-> | Nm].
  { rewrite Rmult_0_l. apply round_0. }
  set (x := IZR m * pow2 e).
  assert (Hx : x <> 0).
  { unfold x. pose proof (pow2_pos e). apply Rmult_integral_contrapositive.
    split; [apply not_0_IZR, Nm | lra]. }
  destruct (mag_spec x Hx) as [M1 M2].
  assert (Ax : Rabs x = IZR (Z.abs m) * pow2 e).
  { unfold x. rewrite Rabs_mult, (Rabs_right (pow2 e)), abs_IZR;
      [reflexivity | pose proof (pow2_pos e); lra]. }
  assert (L : (mag x <= 52 + e)%Z).
  { assert (G : pow2 (mag x) < pow2 (53 + e)); [| apply pow2_lt_inv in G; lia].
    apply Rle_lt_trans with (Rabs x); [exact M1 |].
    rewrite Ax, pow2_add. replace 53%Z with (Z.of_nat 53) by reflexivity.
    rewrite pow2_nat. apply Rmult_lt_compat_r; [apply pow2_pos |].
    apply IZR_lt. exact Hm. }
  set (k := (52 + e - mag x)%Z).
  assert (Hk : (0 <= k)%Z) by (unfold k; lia).
  assert (Ek : IZR (m * 2 ^ k) = x * pow2 (52 - mag x)).
  { rewrite mult_IZR, pow2_IZR by exact Hk.
    replace (x * pow2 (52 - mag x))
      with (IZR m * (pow2 e * pow2 (52 - mag x))) by (unfold x; ring).
    rewrite <- pow2_add. f_equal. f_equal. unfold k. lia. }
  rewrite (round_eq x (mag x) (m * 2 ^ k)%Z).
  - rewrite Ek, Rmult_assoc, <- pow2_add.
    replace (52 - mag x + (mag x - 52))%Z with 0%Z by lia.
    rewrite pow2_0. ring.
  - split; assumption.
  - rewrite Ek, Rminus_diag, Rabs_R0. lra.
Qed.

Lemma round_int (z : Z) : (Z.abs z < 2 ^ 53)%Z -> round (IZR z) = IZR z.
Proof.
  intros H. pose proof (round_representable z 0 H) as E.
  rewrite pow2_0, Rmult_1_r in E. exact E.
Qed.

Lemma round_nonneg (x : R) : 0 <= x -> 0 <= round x.
Proof.
  intros H. pose proof (round_error x) as E.
  rewrite (Rabs_right x) in E by lra.
  apply Rabs_bound in E.
  assert (pow2 (-53) < 1).
  { rewrite <- pow2_0. apply pow2_lt. lia. }
  pose proof (pow2_pos (-53)). nra.
Qed.

(** Half way between two integers the even one is taken. *)
Lemma nearest_even_tie (y : R) (f : Z) :
  y = IZR f + 1 / 2 ->
  nearest_even y = if Z.even f then f else (f + 1)%Z.
Proof.
  intros ->. unfold nearest_even.
  assert (E : Int_part (IZR f + 1 / 2) = f).
  { symmetry. apply Int_part_spec. lra. }
  rewrite E.
  destruct (Rlt_dec _ _) as [A | A]; [lra |].
  destruct (Rlt_dec _ _) as [B | B]; [lra | reflexivity].
Qed.

Lemma round_near (x : R) (e m : Z) :
  pow2 e <= x < pow2 (e + 1) ->
  - (1 / 2) < x * pow2 (52 - e) - IZR m < 1 / 2 ->
  round x = IZR m * pow2 (e - 52).
Proof.
  intros He Hm. pose proof (pow2_pos e) as Hp.
  apply round_eq.
  - rewrite Rabs_right by lra. exact He.
  - apply Rabs_def1; lra.
Qed.

Lemma round_tie (x : R) (e f : Z) :
  pow2 e <= x < pow2 (e + 1) ->
  x * pow2 (52 - e) = IZR f + 1 / 2 ->
  round x = IZR (if Z.even f then f else (f + 1)%Z) * pow2 (e - 52).
Proof.
  intros He Hf. pose proof (pow2_pos e) as Hp.
  unfold round. destruct (Req_dec_T x 0) as [-> | Hx]; [lra |].
  assert (M : mag x = e).
  { apply mag_unique. rewrite Rabs_right by lra. exact He. }
  rewrite M, (nearest_even_tie _ f Hf). reflexivity.
Qed.

Lemma pow2_Zpos (p : positive) : pow2 (Zpos p) = IZR (2 ^ Zpos p).
Proof. symmetry. apply pow2_IZR. lia. Qed.

Lemma pow2_Zneg (p : positive) : pow2 (Zneg p) = / IZR (2 ^ Zpos p).
Proof.
  change (Zneg p) with (- Zpos p)%Z. rewrite pow2_opp, pow2_Zpos. reflexivity.
Qed.

(** Writes the powers of two of the goal as numerals. *)
Ltac numerals :=
  repeat match goal with
  | |- context [pow2 ?e] =>
      let e' := eval vm_compute in e in
      lazymatch e' with
      | Z0 => change (pow2 e) with 1
      | Zpos ?p =>
          let v := eval vm_compute in (2 ^ Zpos p)%Z in
          replace (pow2 e) with (IZR v) by (symmetry; apply (pow2_Zpos p))
      | Zneg ?p =>
          let v := eval vm_compute in (2 ^ Zpos p)%Z in
          replace (pow2 e) with (/ IZR v) by (symmetry; apply (pow2_Zneg p))
      end
  end.

(** Rounds the number of the goal, given its exponent and the integer
    nearest to its significand. *)
Ltac eval_round e m :=
  rewrite (round_near _ e m); [| numerals; lra | numerals; lra].

Lemma LUNAR_CYCLE_value :
  Rounded.LUNAR_CYCLE = 8312122132501931 / 281474976710656.
Proof.
  unfold Rounded.LUNAR_CYCLE. eval_round 4%Z 8312122132501931%Z.
  numerals. lra.
Qed.

Lemma unit_roundoff : pow2 (-53) = / 9007199254740992.
Proof. numerals. reflexivity. Qed.

Lemma round_bounds (x : R) :
  0 <= x -> x * (1 - pow2 (-53)) <= round x <= x * (1 + pow2 (-53)).
Proof.
  intros H. pose proof (round_error x) as E.
  rewrite (Rabs_right x) in E by lra. apply Rabs_bound in E. lra.
Qed.

Lemma round_close (x b : R) :
  Rabs x <= b -> Rabs (round x - x) <= b * pow2 (-53).
Proof.
  intros H. pose proof (round_error x) as E. pose proof (pow2_pos (-53)).
  apply Rle_trans with (1 := E). apply Rmult_le_compat_r; lra.
Qed.

Lemma rounded_wrap_range (x n : R) : 0 < n -> 0 <= Rounded.wrap x n < n.
Proof.
  intros Hn. unfold Rounded.wrap, add.
  apply rem_nonneg; [exact Hn |]. apply round_nonneg.
  pose proof (rem_bounds x n Hn). lra.
Qed.

Lemma rem_quotient (x y : R) : exists q : Z, JS.rem x y = x - IZR q * y.
Proof. exists (JS.trunc (x / y)). unfold JS.rem. ring. Qed.

(** The idiom on rounded numbers moves its argument by a whole multiple
    of the period and by the rounding error of its one addition. *)
Lemma rounded_wrap_congruent (x n : R) :
  0 < n ->
  exists (k : Z) (err : R),
    Rounded.wrap x n = x + IZR k * n + err
    /\ Rabs err <= 2 * n * pow2 (-53).
Proof.
  intros Hn. unfold Rounded.wrap, add.
  destruct (rem_quotient x n) as [q Eq].
  destruct (rem_quotient (round (JS.rem x n + n)) n) as [q2 Eq2].
  exists (1 - q - q2)%Z, (round (JS.rem x n + n) - (JS.rem x n + n)).
  split.
  - rewrite Eq2, Eq, !minus_IZR. ring.
  - apply Rle_trans with (2 := Req_le _ _ eq_refl). apply round_close.
    pose proof (rem_bounds x n Hn). apply Rabs_le. lra.
Qed.

Lemma msPerDay_value : Rounded.msPerDay = 86400000.
Proof.
  unfold Rounded.msPerDay, mul.
  replace (1000 * 60) with (IZR 60000) by lra.
  rewrite round_int by (vm_compute; reflexivity).
  replace (IZR 60000 * 60) with (IZR 3600000) by lra.
  rewrite round_int by (vm_compute; reflexivity).
  replace (IZR 3600000 * 24) with (IZR 86400000) by lra.
  apply round_int. vm_compute. reflexivity.
Qed.

Lemma ref_time : getTime ref = 1768780800000%Z.
Proof. vm_compute. reflexivity. Qed.

(** For a date a [Date] object can hold, the days since the reference are
    the exact quotient, rounded once. *)
Lemma rounded_days (date : Date) :
  valid date ->
  Rounded.days_since_ref date = round (days_since_ref date).
Proof.
  intros H. unfold Rounded.days_since_ref, div, sub, days_since_ref, valid in *.
  rewrite msPerDay_value, <- minus_IZR, round_int.
  - rewrite minus_IZR. f_equal. lra.
  - rewrite ref_time. change (2 ^ 53)%Z with 9007199254740992%Z. lia.
Qed.

Lemma valid_days (date : Date) :
  valid date -> Rabs (days_since_ref date) <= 100020473.
Proof.
  unfold valid, days_since_ref. rewrite ref_time. intros H.
  assert (H1 : (-8640000000000000 <= getTime date)%Z) by lia.
  assert (H2 : (getTime date <= 8640000000000000)%Z) by lia.
  apply IZR_le in H1, H2. apply Rabs_le. lra.
Qed.

Lemma rounded_moonAge_range (date : Date) :
  0 <= Rounded.moonAge date < Rounded.LUNAR_CYCLE.
Proof.
  apply rounded_wrap_range. rewrite LUNAR_CYCLE_value. lra.
Qed.

Lemma rounded_moonAge_period (date : Date) :
  valid date -> valid (later date lunar_cycle_ms) ->
  exists k : Z,
    (-1 <= k <= 1)%Z
    /\ Rabs (Rounded.moonAge (later date lunar_cycle_ms)
             - Rounded.moonAge date - IZR k * Rounded.LUNAR_CYCLE)
       <= rounding_tolerance date.
Proof.
  intros V V'. pose proof (rounded_moonAge_range date) as R1.
  pose proof (rounded_moonAge_range (later date lunar_cycle_ms)) as R2.
  unfold Rounded.moonAge in *. rewrite !rounded_days in * by assumption.
  assert (HP : 0 < Rounded.LUNAR_CYCLE) by (rewrite LUNAR_CYCLE_value; lra).
  destruct (rounded_wrap_congruent (round (days_since_ref date)) _ HP)
    as (k1 & e1 & E1 & B1).
  destruct (rounded_wrap_congruent
              (round (days_since_ref (later date lunar_cycle_ms))) _ HP)
    as (k2 & e2 & E2 & B2).
  rewrite E1, E2 in *. clear E1 E2.
  pose proof (round_error (days_since_ref date)) as D1.
  pose proof (round_error (days_since_ref (later date lunar_cycle_ms))) as D2.
  rewrite days_since_ref_shift in *.
  replace (IZR lunar_cycle_ms / 86400000) with 29.53059 in *
    by (unfold lunar_cycle_ms; lra).
  unfold rounding_tolerance.
  set (D := days_since_ref date) in *.
  set (x := round D) in *. set (x' := round (D + 29.53059)) in *.
  pose proof (valid_days date V) as VD. fold D in VD.
  assert (A' : Rabs (D + 29.53059) <= Rabs D + 29.53059).
  { apply Rle_trans with (1 := Rabs_triang _ _).
    rewrite (Rabs_right 29.53059) by lra. lra. }
  rewrite unit_roundoff in *. rewrite LUNAR_CYCLE_value in *.
  pose proof (Rabs_pos D) as PD.
  apply Rabs_bound in B1, B2, D1, D2.
  set (j := (k2 - k1 + 1)%Z).
  assert (Ej : IZR k2 - IZR k1 + 1 = IZR j)
    by (unfold j; rewrite plus_IZR, minus_IZR; reflexivity).
  set (P := 8312122132501931 / 281474976710656) in *.
  set (E := (x' - (D + 29.53059)) - (x - D) + (e2 - e1) + (29.53059 - P)).
  assert (BE : - ((2 * Rabs D + 150) * / 9007199254740992) <= E
               <= (2 * Rabs D + 150) * / 9007199254740992).
  { unfold E, P in *. split; lra. }
  assert (Ediff : x' + IZR k2 * P + e2 - (x + IZR k1 * P + e1)
                  = IZR j * P + E).
  { rewrite <- Ej. unfold E. ring. }
  rewrite Ediff in *.
  assert (Hj : (-1 <= j <= 1)%Z).
  { assert (-2 < j)%Z by (apply lt_IZR; unfold P in *; lra).
    assert (j < 2)%Z by (apply lt_IZR; unfold P in *; lra).
    lia. }
  exists j. split; [exact Hj |].
  replace (IZR j * P + E - IZR j * P) with E by ring.
  apply Rabs_le. exact BE.
Qed.

Lemma rem_eval (x y : R) (q : Z) :
  0 < y -> 0 <= x -> IZR q * y <= x < (IZR q + 1) * y ->
  JS.rem x y = x - IZR q * y.
Proof.
  intros Hy Hx [L U]. rewrite rem_congruent. f_equal. f_equal. f_equal.
  unfold JS.trunc. destruct (Rle_dec 0 (x / y)) as [H | H].
  - symmetry. apply Int_part_spec. split.
    + assert (x / y < IZR q + 1)
        by (apply (proj2 (div_bracket x y (IZR q + 1) Hy)); lra).
      lra.
    + apply (proj1 (div_bracket x y (IZR q) Hy)). lra.
  - exfalso. apply H. apply (proj1 (div_bracket x y 0 Hy)). lra.
Qed.

Lemma valid_later_ref (ms : Z) :
  (Z.abs (1768780800000 + ms) <= 8640000000000000)%Z -> valid (later ref ms).
Proof. intros H. unfold valid, later. cbn [getTime]. rewrite ref_time. exact H. Qed.

(** The steps of the moon age at [ms] milliseconds after the reference:
    the days, then the innermost remainder or rounding that is left. *)
Ltac eval_days ms e m :=
  unfold Rounded.moonAge;
  rewrite rounded_days by (apply valid_later_ref; vm_compute; discriminate);
  rewrite days_since_ref_later;
  replace (round (IZR ms / 86400000)) with (IZR m * pow2 (e - 52))
    by (symmetry; apply round_near; numerals; lra);
  unfold Rounded.wrap, add; rewrite LUNAR_CYCLE_value.

Ltac eval_rem q :=
  match goal with
  | |- context [JS.rem ?x ?y] =>
      lazymatch x with
      | context [round] => fail
      | context [JS.rem] => fail
      | _ => rewrite (rem_eval x y q) by (numerals; lra)
      end
  end.

Ltac eval_near e m :=
  match goal with
  | |- context [round ?x] =>
      lazymatch x with
      | context [round] => fail
      | context [JS.rem] => fail
      | _ => rewrite (round_near x e m) by (numerals; lra)
      end
  end.

Ltac eval_tie e f :=
  match goal with
  | |- context [round ?x] =>
      lazymatch x with
      | context [round] => fail
      | context [JS.rem] => fail
      | _ => rewrite (round_tie x e f) by (numerals; lra); cbn [Z.even]
      end
  end.

Lemma rounded_moonAge_at_22_15 :
  Rounded.moonAge (later ref 1913760000)
  = 6234670734141029 / 281474976710656.
Proof.
  eval_days 1913760000%Z 4%Z 6234670734141030%Z.
  eval_rem 0%Z.
  eval_tie (5)%Z 7273396433321480%Z. eval_rem 1%Z.
  numerals. lra.
Qed.

Lemma rounded_moonAge_one_cycle_after_22_15 :
  Rounded.moonAge (later (later ref 1913760000) lunar_cycle_ms)
  = 6234670734141031 / 281474976710656.
Proof.
  replace (later (later ref 1913760000) lunar_cycle_ms)
    with (later ref 4465202976) by reflexivity.
  eval_days 4465202976%Z 5%Z 7273396433321481%Z.
  eval_rem 1%Z.
  eval_near (5)%Z 7273396433321481%Z.
  eval_rem 1%Z.
  numerals. lra.
Qed.

Lemma thresholds_value :
  round 1.84 = 8286623314361713 / 4503599627370496
  /\ round 7.38 = 8309141312498565 / 1125899906842624
  /\ round 9.23 = 2598014035039355 / 281474976710656
  /\ round 14.77 = 4157385406016389 / 281474976710656
  /\ round 16.61 = 1168824840790999 / 70368744177664
  /\ round 22.15 = 3117335367070515 / 140737488355328
  /\ round 23.99 = 6752584691288637 / 281474976710656.
Proof.
  repeat split.
  - eval_round 0%Z 8286623314361713%Z. numerals. lra.
  - eval_round 2%Z 8309141312498565%Z. numerals. lra.
  - eval_round 3%Z 5196028070078710%Z. numerals. lra.
  - eval_round 3%Z 8314770812032778%Z. numerals. lra.
  - eval_round 4%Z 4675299363163996%Z. numerals. lra.
  - eval_round 4%Z 6234670734141030%Z. numerals. lra.
  - eval_round 4%Z 6752584691288637%Z. numerals. lra.
Qed.

(** Decides a goal on the lookup by its thresholds. *)
Ltac rounded_lookup :=
  unfold Rounded.getMoonPhaseImage;
  destruct thresholds_value as (-> & -> & -> & -> & -> & -> & ->);
  repeat destruct (Rlt_dec _ _); try lra; try lia.

Lemma rounded_lookup_range (a : R) :
  (0 <= Rounded.getMoonPhaseImage a <= 7)%Z.
Proof. rounded_lookup. Qed.

Lemma rounded_lookup_monotone (a b : R) :
  a <= b -> (Rounded.getMoonPhaseImage a <= Rounded.getMoonPhaseImage b)%Z.
Proof. intros H. rounded_lookup. Qed.

Lemma rounded_lookup_neighbours (a a' : R) (k : Z) :
  0 <= a < Rounded.LUNAR_CYCLE -> 0 <= a' < Rounded.LUNAR_CYCLE ->
  (-1 <= k <= 1)%Z ->
  Rabs (a' - a - IZR k * Rounded.LUNAR_CYCLE) <= 1 / 10 ->
  In ((Rounded.getMoonPhaseImage a' - Rounded.getMoonPhaseImage a) mod 8)%Z
     [0; 1; 7]%Z.
Proof.
  rewrite LUNAR_CYCLE_value. intros Ha Ha' Hk H. apply Rabs_bound in H.
  assert (C : k = (-1)%Z \/ k = 0%Z \/ k = 1%Z) by lia.
  destruct C as [-> | [-> | ->]]; rounded_lookup;
    cbn; auto.
Qed.

Lemma rounded_lookup_steps_at_22_15 :
  Rounded.getMoonPhaseImage (Rounded.moonAge (later ref 1913760000)) = 5%Z
  /\ Rounded.getMoonPhaseImage
       (Rounded.moonAge (later (later ref 1913760000) lunar_cycle_ms)) = 6%Z.
Proof.
  rewrite rounded_moonAge_at_22_15, rounded_moonAge_one_cycle_after_22_15.
  split; rounded_lookup.
Qed.

Lemma rounded_moonAge_half_eighth :
  Rounded.moonAge (later ref 3029838534)
  = 1558522899844113 / 281474976710656
  /\ Rounded.moonAge (later (later ref 3029838534) lunar_cycle_ms)
     = 1558522899844109 / 281474976710656.
Proof.
  split.
  - eval_days 3029838534%Z 5%Z 4935322516173022%Z.
    eval_rem 1%Z.
    eval_near (5)%Z 4935322516173022%Z.
    eval_rem 1%Z. numerals. lra.
  - replace (later (later ref 3029838534) lunar_cycle_ms)
      with (later ref 5581281510) by reflexivity.
    eval_days 5581281510%Z 6%Z 4545691791211993%Z.
    eval_rem 2%Z.
    eval_tie (5)%Z 4935322516173020%Z. eval_rem 1%Z. numerals. lra.
Qed.

Lemma rounded_index_eighths (date : Date) :
  Rounded.getMoonPhaseIndex date = Z.rem (JS.round (eighths date)) 8.
Proof. reflexivity. Qed.

Lemma rounded_index_half_eighth :
  Rounded.getMoonPhaseIndex (later ref 3029838534) = 2%Z
  /\ Rounded.getMoonPhaseIndex
       (later (later ref 3029838534) lunar_cycle_ms) = 1%Z.
Proof.
  rewrite !rounded_index_eighths. unfold eighths, mul, div.
  destruct rounded_moonAge_half_eighth as [-> ->].
  rewrite LUNAR_CYCLE_value. split.
  - eval_near ((-3))%Z 6755399441055748%Z.
    eval_near (0)%Z 6755399441055748%Z.
    rewrite (round_unique _ 2); [reflexivity | numerals; lra].
  - eval_near ((-3))%Z 6755399441055731%Z.
    eval_near (0)%Z 6755399441055731%Z.
    rewrite (round_unique _ 1); [reflexivity | numerals; lra].
Qed.

Lemma eighths_range (date : Date) : 0 <= eighths date < 8.5.
Proof.
  pose proof (rounded_moonAge_range date) as [A1 A2].
  unfold eighths, mul, div. rewrite LUNAR_CYCLE_value in *.
  set (a := Rounded.moonAge date) in *.
  set (P := 8312122132501931 / 281474976710656) in *.
  assert (HP : 0 < P) by (unfold P; lra).
  assert (Q : 0 <= a / P < 1).
  { split; [apply (proj1 (div_bracket a P 0 HP)) |
            apply (proj2 (div_bracket a P 1 HP))]; lra. }
  pose proof (round_nonneg (a / P) (proj1 Q)) as N1.
  pose proof (round_close (a / P) 1) as C1.
  rewrite Rabs_right in C1 by lra. specialize (C1 (Rlt_le _ _ (proj2 Q))).
  apply Rabs_bound in C1. rewrite unit_roundoff in C1.
  set (d := round (a / P)) in *.
  pose proof (round_close (d * 8) 9) as C2.
  rewrite Rabs_right in C2 by lra.
  assert (d * 8 <= 9) by lra. specialize (C2 H).
  apply Rabs_bound in C2. rewrite unit_roundoff in C2.
  split; [apply round_nonneg; lra | lra].
Qed.

Lemma eighths_error (date : Date) :
  Rabs (eighths date - Rounded.moonAge date / Rounded.LUNAR_CYCLE * 8)
  <= 1 / 10 ^ 14.
Proof.
  pose proof (rounded_moonAge_range date) as [A1 A2].
  unfold eighths, mul, div. rewrite LUNAR_CYCLE_value in *.
  set (a := Rounded.moonAge date) in *.
  set (P := 8312122132501931 / 281474976710656) in *.
  assert (HP : 0 < P) by (unfold P; lra).
  assert (Q : 0 <= a / P < 1).
  { split; [apply (proj1 (div_bracket a P 0 HP)) |
            apply (proj2 (div_bracket a P 1 HP))]; lra. }
  pose proof (round_close (a / P) 1) as C1.
  rewrite Rabs_right in C1 by lra. specialize (C1 (Rlt_le _ _ (proj2 Q))).
  apply Rabs_bound in C1. rewrite unit_roundoff in C1.
  pose proof (round_nonneg (a / P) (proj1 Q)) as N1.
  set (d := round (a / P)) in *.
  pose proof (round_close (d * 8) 9) as C2.
  rewrite Rabs_right in C2 by lra.
  assert (d * 8 <= 9) by lra. specialize (C2 H).
  apply Rabs_bound in C2. rewrite unit_roundoff in C2.
  apply Rabs_le. lra.
Qed.

(* ================================================================== *)
(** * The moon age as the engine computes it *)

Lemma rounding_tolerance_small (date : Date) :
  valid date -> rounding_tolerance date <= 3 / 10 ^ 8.
Proof.
  intros V. pose proof (valid_days date V) as B.
  unfold rounding_tolerance. rewrite unit_roundoff. lra.
Qed.

(** The rounded moon age against the floored modulo of the exact days
    since the reference: they differ by the rounding tolerance, taken
    around the cycle. *)
Lemma rounded_moonAge_near_exact (date : Date) :
  valid date ->
  exists k : Z,
    (-1 <= k <= 1)%Z
    /\ Rabs (Rounded.moonAge date - moonAge date - IZR k * 29.53059)
       <= rounding_tolerance date.
Proof.
  intros V. pose proof (rounded_moonAge_range date) as R1.
  pose proof (moonAge_range date) as R2.
  destruct (wrap_congruent (days_since_ref date) LUNAR_CYCLE) as [k0 E0].
  fold (moonAge date) in E0. rewrite E0 in *. clear E0.
  unfold Rounded.moonAge in *. rewrite rounded_days in * by exact V.
  assert (HP : 0 < Rounded.LUNAR_CYCLE) by (rewrite LUNAR_CYCLE_value; lra).
  destruct (rounded_wrap_congruent (round (days_since_ref date)) _ HP)
    as (k1 & e1 & E1 & B1).
  rewrite E1 in *. clear E1.
  pose proof (round_error (days_since_ref date)) as D1.
  pose proof (valid_days date V) as VD.
  unfold rounding_tolerance, LUNAR_CYCLE in *.
  rewrite unit_roundoff, LUNAR_CYCLE_value in *.
  set (D := days_since_ref date) in *. set (x := round D) in *.
  pose proof (Rabs_pos D) as PD.
  assert (AD : - Rabs D <= D <= Rabs D) by (apply Rabs_bound; lra).
  apply Rabs_bound in B1, D1.
  set (j := (k1 - k0)%Z).
  assert (Ej : IZR k1 - IZR k0 = IZR j) by (unfold j; rewrite minus_IZR; reflexivity).
  set (E := (x - D) + e1 + IZR k1 * (103 / 879609302220800000)).
  assert (BE : - ((2 * Rabs D + 150) * / 9007199254740992) <= E
               <= (2 * Rabs D + 150) * / 9007199254740992).
  { unfold E. split; lra. }
  assert (Ediff : x + IZR k1 * (8312122132501931 / 281474976710656) + e1
                  - (D + IZR k0 * 29.53059)
                  = IZR j * 29.53059 + E).
  { rewrite <- Ej. unfold E. lra. }
  assert (Hj : (-1 <= j <= 1)%Z).
  { assert (-2 < j)%Z by (apply lt_IZR; lra).
    assert (j < 2)%Z by (apply lt_IZR; lra).
    lia. }
  exists j. split; [exact Hj |].
  rewrite Ediff. replace (IZR j * 29.53059 + E - IZR j * 29.53059) with E by ring.
  apply Rabs_le. exact BE.
Qed.

Lemma rounded_moonAge_before_ref :
  JS.rem (Rounded.days_since_ref (later ref (-86400000))) Rounded.LUNAR_CYCLE
  = -1
  /\ Rounded.moonAge (later ref (-86400000)) = Rounded.LUNAR_CYCLE - 1.
Proof.
  assert (D : Rounded.days_since_ref (later ref (-86400000)) = -1).
  { rewrite rounded_days by (apply valid_later_ref; vm_compute; discriminate).
    rewrite days_since_ref_later.
    replace (IZR (-86400000) / 86400000) with (IZR (-1)) by lra.
    apply round_int. vm_compute. reflexivity. }
  assert (E : JS.rem (-1) Rounded.LUNAR_CYCLE = -1).
  { rewrite LUNAR_CYCLE_value. apply rem_small; lra. }
  split; [rewrite D; exact E |].
  unfold Rounded.moonAge, Rounded.wrap, add. rewrite D, E, LUNAR_CYCLE_value.
  eval_near 4%Z 8030647155791275%Z.
  rewrite rem_small by (numerals; lra). numerals. lra.
Qed.

(** A rounded number that reaches [pow2 e] is a whole multiple of
    [pow2 (e - 52)]. *)
Lemma round_grid (x : R) (e : Z) :
  0 < x -> pow2 e <= round x ->
  exists n : Z, round x = IZR n * pow2 (e - 52).
Proof.
  intros Hx He. assert (Nx : x <> 0) by lra.
  destruct (mag_spec x Nx) as [M1 M2]. rewrite Rabs_right in M1, M2 by lra.
  unfold round in *. destruct (Req_dec_T x 0) as [C | _]; [contradiction |].
  set (g := mag x) in *. set (y := x * pow2 (52 - g)) in *.
  set (m := nearest_even y) in *.
  destruct (Z_le_gt_dec e g) as [L | L].
  - exists (m * 2 ^ (g - e))%Z.
    rewrite mult_IZR, pow2_IZR by lia. rewrite Rmult_assoc, <- pow2_add.
    f_equal. f_equal. lia.
  - exists (2 ^ 52)%Z.
    pose proof (nearest_even_error y) as N. fold m in N.
    apply Rabs_bound in N.
    pose proof (pow2_pos (52 - g)) as P1. pose proof (pow2_pos (g - 52)) as P2.
    assert (Y : y < IZR (2 ^ 53)).
    { unfold y. rewrite pow2_IZR by lia.
      replace 53%Z with (g + 1 + (52 - g))%Z by lia. rewrite pow2_add.
      apply Rmult_lt_compat_r; lra. }
    assert (Hm : (m <= 2 ^ 53)%Z).
    { assert (m < 2 ^ 53 + 1)%Z; [| lia].
      apply lt_IZR. rewrite plus_IZR. lra. }
    assert (U : IZR m * pow2 (g - 52) <= pow2 e).
    { apply Rle_trans with (IZR (2 ^ 53) * pow2 (g - 52)).
      - apply Rmult_le_compat_r; [lra | apply IZR_le, Hm].
      - rewrite pow2_IZR, <- pow2_add by lia. apply pow2_le. lia. }
    rewrite pow2_IZR, <- pow2_add by lia.
    replace (52 + (e - 52))%Z with e by lia. lra.
Qed.

Lemma rem_nonneg_quotient (x y : R) :
  0 < y -> 0 <= x ->
  exists q : Z, (0 <= q)%Z /\ JS.rem x y = x - IZR q * y.
Proof.
  intros Hy Hx. exists (JS.trunc (x / y)). split; [| apply rem_congruent].
  assert (Q : 0 <= x / y) by (apply (proj1 (div_bracket x y 0 Hy)); lra).
  destruct (trunc_nonneg (x / y) Q) as [_ U].
  assert (-1 < JS.trunc (x / y))%Z by (apply lt_IZR; lra). lia.
Qed.

(** The rounded moon age lies below 29.53059 itself: it is below the
    rounded period, and between 29.53059 and the rounded period there is
    no number it can be. *)
Lemma rounded_moonAge_below_period (date : Date) :
  Rounded.moonAge date < 29.53059.
Proof.
  pose proof (rounded_moonAge_range date) as [A1 A2].
  destruct (Rlt_le_dec (Rounded.moonAge date) 16) as [S | S]; [lra |].
  unfold Rounded.moonAge, Rounded.wrap, add in *.
  rewrite LUNAR_CYCLE_value in *.
  set (P := 8312122132501931 / 281474976710656) in *.
  assert (HP : 0 < P) by (unfold P; lra).
  pose proof (rem_bounds (Rounded.days_since_ref date) P HP) as B.
  set (y := JS.rem (Rounded.days_since_ref date) P + P) in *.
  assert (Hy : 0 < y) by (unfold y; lra).
  pose proof (round_bounds y (Rlt_le _ _ Hy)) as [R1 R2].
  rewrite unit_roundoff in R1, R2.
  set (s := round y) in *.
  assert (Hs : 0 <= s) by (apply round_nonneg; lra).
  destruct (rem_nonneg_quotient s P HP Hs) as (q & Hq & Eq).
  rewrite Eq in *.
  assert (Hq2 : (q < 3)%Z).
  { apply lt_IZR. unfold y, P in *. lra. }
  assert (G : exists n : Z, s - IZR q * P = IZR n * pow2 (-48)).
  { assert (C : q = 0%Z \/ q = 1%Z \/ q = 2%Z) by lia.
    destruct C as [-> | [-> | ->]].
    - destruct (round_grid y 4 Hy) as [n En].
      + fold s. numerals. lra.
      + exists n. fold s in En. rewrite En. change (4 - 52)%Z with (-48)%Z. lra.
    - destruct (round_grid y 5 Hy) as [n En].
      + fold s. numerals. unfold P in *. lra.
      + exists (2 * n - 8312122132501931)%Z. fold s in En. rewrite En.
        rewrite minus_IZR, mult_IZR. change (5 - 52)%Z with (-47)%Z.
        numerals. unfold P. lra.
    - exfalso. unfold y, P in *. lra. }
  destruct G as [n En]. rewrite En in *.
  assert (Hn : (n < 8312122132501931)%Z).
  { apply lt_IZR. revert A2. numerals. unfold P. lra. }
  assert (Hn' : (n <= 8312122132501930)%Z) by lia.
  apply IZR_le in Hn'. numerals. lra.
Qed.

(** C7.  For every instant the moon age the source computes lies in
    [[0, 29.53059)], also before the reference epoch, where the first
    remainder is negative and the period is added before the second: one
    day before the reference the age is the period less one.  The period
    of the source, [LUNAR_CYCLE], is the binary64 number nearest to
    29.53059, which is larger by about 1.2e-16.  The age is the floored
    modulo 29.53059 of the exact days since the reference, and it is the
    same 29.53059 days (2551442976 ms) later, both only up to rounding and
    around the cycle: for a date a [Date] object can hold the difference
    is, after a whole number of cycles (none, one more or one less), at
    most the rounding tolerance of the date, which is below 3e-8 days. *)
Theorem moonAge_range_and_period (date : Date) :
  0 <= Rounded.moonAge date < 29.53059
  /\ Rounded.LUNAR_CYCLE = 29.53059 + 103 / 879609302220800000
  /\ (valid date ->
      rounding_tolerance date <= 3 / 10 ^ 8
      /\ (exists k : Z,
             (-1 <= k <= 1)%Z
             /\ Rabs (Rounded.moonAge date
                      - (days_since_ref date
                         - 29.53059
                           * IZR (JS.floor (days_since_ref date / 29.53059)))
                      - IZR k * 29.53059)
                <= rounding_tolerance date)
      /\ (valid (later date lunar_cycle_ms) ->
          exists k : Z,
            (-1 <= k <= 1)%Z
            /\ Rabs (Rounded.moonAge (later date lunar_cycle_ms)
                     - Rounded.moonAge date - IZR k * Rounded.LUNAR_CYCLE)
               <= rounding_tolerance date))
  /\ JS.rem (Rounded.days_since_ref (later ref (-86400000)))
            Rounded.LUNAR_CYCLE = -1
  /\ Rounded.moonAge (later ref (-86400000)) = Rounded.LUNAR_CYCLE - 1.
Proof.
  split.
  { split; [apply rounded_moonAge_range | apply rounded_moonAge_below_period]. }
  split; [rewrite LUNAR_CYCLE_value; lra |].
  split; [| apply rounded_moonAge_before_ref].
  intros V. split; [apply rounding_tolerance_small, V |]. split.
  - destruct (rounded_moonAge_near_exact date V) as (k & Hk & B).
    exists k. split; [exact Hk |].
    replace (days_since_ref date
             - 29.53059 * IZR (JS.floor (days_since_ref date / 29.53059)))
      with (moonAge date); [exact B |].
    unfold moonAge, LUNAR_CYCLE. apply wrap_floor. lra.
  - intros V'. apply rounded_moonAge_period; assumption.
Qed.

Lemma moonAge_range_and_period_witness :
  let date := later ref 1913760000 in
  valid date /\ valid (later date lunar_cycle_ms)
  /\ exists k : Z,
       (-1 <= k <= 1)%Z
       /\ Rabs (Rounded.moonAge (later date lunar_cycle_ms)
                - Rounded.moonAge date - IZR k * Rounded.LUNAR_CYCLE)
          <= rounding_tolerance date.
Proof.
  intros date.
  assert (V : valid date) by (apply valid_later_ref; vm_compute; discriminate).
  assert (V' : valid (later date lunar_cycle_ms))
    by (apply (valid_later_ref 4465202976); vm_compute; discriminate).
  split; [exact V |]. split; [exact V' |].
  exact (proj2 (proj2 (proj1 (proj2 (proj2 (moonAge_range_and_period date))) V))
           V').
Defined.

(** The moon age of the source is not the same one cycle later: 22.15
    days after the reference it is 22.149999999999995, the binary64
    number next below the threshold 22.15 of the source, and 29.53059 days
    after that it is 22.150000000000002, the one next above it. *)
Lemma moonAge_not_exactly_periodic :
  Rounded.moonAge (later ref 1913760000)
  = 6234670734141029 / 281474976710656
  /\ Rounded.moonAge (later (later ref 1913760000) lunar_cycle_ms)
     = 6234670734141031 / 281474976710656
  /\ Rounded.moonAge (later (later ref 1913760000) lunar_cycle_ms)
     <> Rounded.moonAge (later ref 1913760000).
Proof.
  rewrite rounded_moonAge_at_22_15, rounded_moonAge_one_cycle_after_22_15.
  repeat split. lra.
Qed.

(* ================================================================== *)
(** * The two phase lookups on rounded numbers *)

Lemma rounded_lookup_ends (a : R) :
  (a < 0 -> Rounded.getMoonPhaseImage a = 0%Z)
  /\ (Rounded.LUNAR_CYCLE <= a -> Rounded.getMoonPhaseImage a = 7%Z).
Proof.
  rewrite LUNAR_CYCLE_value. split; intros H; rounded_lookup.
Qed.

(** X10.  The stepwise lookup, with its thresholds as the engine holds
    them, never decreases with the age and always gives an index of the
    table, 0 to 7, also for an age that is negative (index 0) or beyond
    the cycle (index 7); the same holds with the thresholds read as exact
    decimals.  One lunar cycle later the index of the moon age is the
    same or a neighbouring one around the cycle, and it need not be the
    same: 22.15 days after the reference the age is just below the
    threshold 22.15 and the index is 5, one cycle later the age is just
    above it and the index is 6. *)
Theorem stepwise_lookup_monotone (a b : R) :
  (a <= b ->
   (Rounded.getMoonPhaseImage a <= Rounded.getMoonPhaseImage b)%Z
   /\ (getMoonPhaseImage a <= getMoonPhaseImage b)%Z)
  /\ (0 <= Rounded.getMoonPhaseImage a <= 7)%Z
  /\ (0 <= getMoonPhaseImage a <= 7)%Z
  /\ (a < 0 -> Rounded.getMoonPhaseImage a = 0%Z)
  /\ (Rounded.LUNAR_CYCLE <= b -> Rounded.getMoonPhaseImage b = 7%Z)
  /\ (forall date,
         valid date -> valid (later date lunar_cycle_ms) ->
         In ((Rounded.getMoonPhaseImage
                (Rounded.moonAge (later date lunar_cycle_ms))
              - Rounded.getMoonPhaseImage (Rounded.moonAge date)) mod 8)%Z
            [0; 1; 7]%Z)
  /\ Rounded.getMoonPhaseImage (Rounded.moonAge (later ref 1913760000)) = 5%Z
  /\ Rounded.getMoonPhaseImage
       (Rounded.moonAge (later (later ref 1913760000) lunar_cycle_ms)) = 6%Z.
Proof.
  split.
  { intros Hab. split;
      [apply rounded_lookup_monotone | apply getMoonPhaseImage_monotone];
      exact Hab. }
  split; [apply rounded_lookup_range |].
  split; [apply getMoonPhaseImage_range |].
  split; [apply rounded_lookup_ends |].
  split; [apply rounded_lookup_ends |].
  split; [| apply rounded_lookup_steps_at_22_15].
  intros date V V'.
  destruct (rounded_moonAge_period date V V') as (k & Hk & B).
  apply (rounded_lookup_neighbours _ _ k);
    try apply rounded_moonAge_range; [exact Hk |].
  pose proof (rounding_tolerance_small date V). lra.
Qed.

Lemma stepwise_lookup_monotone_witness :
  let date := later ref 1913760000 in
  7.38 <= 22.15
  /\ (Rounded.getMoonPhaseImage 7.38 <= Rounded.getMoonPhaseImage 22.15)%Z
  /\ valid date /\ valid (later date lunar_cycle_ms)
  /\ In ((Rounded.getMoonPhaseImage
            (Rounded.moonAge (later date lunar_cycle_ms))
          - Rounded.getMoonPhaseImage (Rounded.moonAge date)) mod 8)%Z
        [0; 1; 7]%Z.
Proof.
  intros date.
  assert (H : 7.38 <= 22.15) by lra.
  assert (V : valid date) by (apply valid_later_ref; vm_compute; discriminate).
  assert (V' : valid (later date lunar_cycle_ms))
    by (apply (valid_later_ref 4465202976); vm_compute; discriminate).
  split; [exact H |].
  split; [exact (proj1 (proj1 (stepwise_lookup_monotone 7.38 22.15) H)) |].
  split; [exact V |]. split; [exact V' |].
  exact (proj1 (proj2 (proj2 (proj2 (proj2 (proj2
           (stepwise_lookup_monotone 7.38 22.15)))))) date V V').
Defined.

Lemma round_of_eighths (date : Date) :
  IZR (JS.round (eighths date)) - 0.5 <= eighths date
  < IZR (JS.round (eighths date)) + 0.5
  /\ (0 <= JS.round (eighths date) <= 8)%Z.
Proof.
  pose proof (eighths_range date) as [L U].
  unfold JS.round. destruct (base_Int_part (eighths date + 0.5)) as [H1 H2].
  set (q := Int_part (eighths date + 0.5)) in *.
  split; [lra |].
  assert (-1 < q)%Z by (apply lt_IZR; lra).
  assert (q < 9)%Z by (apply lt_IZR; lra).
  lia.
Qed.

Lemma rounded_index_range (date : Date) :
  (0 <= Rounded.getMoonPhaseIndex date <= 7)%Z.
Proof.
  rewrite rounded_index_eighths.
  destruct (round_of_eighths date) as [_ H].
  rewrite Z.rem_mod_nonneg by lia.
  pose proof (Z.mod_pos_bound (JS.round (eighths date)) 8 ltac:(lia)). lia.
Qed.

Lemma rounded_index_neighbours (date : Date) :
  valid date -> valid (later date lunar_cycle_ms) ->
  In ((Rounded.getMoonPhaseIndex (later date lunar_cycle_ms)
       - Rounded.getMoonPhaseIndex date) mod 8)%Z
     [0; 1; 7]%Z.
Proof.
  intros V V'.
  destruct (rounded_moonAge_period date V V') as (k & Hk & B).
  pose proof (rounding_tolerance_small date V) as T.
  pose proof (eighths_error date) as E1.
  pose proof (eighths_error (later date lunar_cycle_ms)) as E2.
  destruct (round_of_eighths date) as [Q1 R1].
  destruct (round_of_eighths (later date lunar_cycle_ms)) as [Q2 R2].
  rewrite !rounded_index_eighths.
  set (v := eighths date) in *.
  set (v' := eighths (later date lunar_cycle_ms)) in *.
  set (q := JS.round v) in *. set (q' := JS.round v') in *.
  rewrite !Z.rem_mod_nonneg by lia.
  rewrite LUNAR_CYCLE_value in *.
  apply Rabs_bound in B, E1, E2.
  set (d := (q' - q - k * 8)%Z).
  assert (Ed : IZR d = IZR q' - IZR q - IZR k * 8).
  { unfold d. rewrite !minus_IZR, mult_IZR. reflexivity. }
  assert (Hd : (-1 <= d <= 1)%Z).
  { assert (-2 < d)%Z by (apply lt_IZR; rewrite Ed; lra).
    assert (d < 2)%Z by (apply lt_IZR; rewrite Ed; lra).
    lia. }
  rewrite <- Zminus_mod.
  replace (q' - q)%Z with (d + k * 8)%Z by (unfold d; lia).
  rewrite Z_mod_plus_full.
  assert (C : d = (-1)%Z \/ d = 0%Z \/ d = 1%Z) by lia.
  destruct C as [-> | [-> | ->]]; cbn; auto.
Qed.

Lemma rounded_moonAge_ref : Rounded.moonAge ref = 0.
Proof.
  unfold Rounded.moonAge.
  rewrite rounded_days
    by (unfold valid; rewrite ref_time; vm_compute; discriminate).
  replace (days_since_ref ref) with 0 by (unfold days_since_ref; lra).
  rewrite round_0. unfold Rounded.wrap, add. rewrite LUNAR_CYCLE_value.
  rewrite (rem_small 0) by lra.
  eval_near 4%Z 8312122132501931%Z. eval_rem 1%Z. numerals. lra.
Qed.

Lemma eighths_ref : eighths ref = 0.
Proof.
  unfold eighths, mul, div. rewrite rounded_moonAge_ref.
  replace (0 / Rounded.LUNAR_CYCLE) with 0 by (unfold Rdiv; ring).
  rewrite round_0. replace (0 * 8) with 0 by ring. apply round_0.
Qed.

(** X11.  [getMoonPhaseIndex] rounds the moon age, in eighths of the
    cycle as the engine computes them, to the nearest whole number: when
    that number of eighths is within one half of [k], the index is [k]
    modulo 8, so that from seven and a half eighths on the index is that
    of the new moon again.  The eighths computed differ from the quotient
    of the age by the period, times 8, by less than 1e-14.  The index is
    always one of 0 to 7.  One lunar cycle later it is the same or a
    neighbouring one around the cycle, and it need not be the same: three
    sixteenths of a cycle and one cycle after the reference the eighths
    are just above one and a half and the index is 2, one cycle later
    they are just below and the index is 1. *)
Theorem even_lookup_rounds_to_nearest (date : Date) :
  (forall k : Z,
      IZR k - 0.5 <= eighths date < IZR k + 0.5 ->
      Rounded.getMoonPhaseIndex date = (k mod 8)%Z /\ (0 <= k <= 8)%Z)
  /\ (0 <= Rounded.getMoonPhaseIndex date <= 7)%Z
  /\ Rabs (eighths date - Rounded.moonAge date / Rounded.LUNAR_CYCLE * 8)
     <= 1 / 10 ^ 14
  /\ (7.5 <= eighths date -> Rounded.getMoonPhaseIndex date = 0%Z)
  /\ (valid date -> valid (later date lunar_cycle_ms) ->
      In ((Rounded.getMoonPhaseIndex (later date lunar_cycle_ms)
           - Rounded.getMoonPhaseIndex date) mod 8)%Z
         [0; 1; 7]%Z)
  /\ Rounded.getMoonPhaseIndex (later ref 3029838534) = 2%Z
  /\ Rounded.getMoonPhaseIndex
       (later (later ref 3029838534) lunar_cycle_ms) = 1%Z.
Proof.
  pose proof (eighths_range date) as Hx.
  assert (Hk : forall k : Z,
             IZR k - 0.5 <= eighths date < IZR k + 0.5 ->
             Rounded.getMoonPhaseIndex date = (k mod 8)%Z /\ (0 <= k <= 8)%Z).
  { intros k H.
    assert (Hk8 : (0 <= k <= 8)%Z).
    { assert (L : -1 < IZR k) by lra. assert (U : IZR k < 9) by lra.
      apply lt_IZR in L. apply lt_IZR in U. lia. }
    split; [| exact Hk8].
    rewrite rounded_index_eighths, (round_unique _ k H).
    apply Z.rem_mod_nonneg; lia. }
  split; [exact Hk |].
  split; [apply rounded_index_range |].
  split; [apply eighths_error |].
  split; [| split; [apply rounded_index_neighbours |
                    apply rounded_index_half_eighth]].
  intros H. destruct (Hk 8%Z) as [E _]; [lra | exact E].
Qed.

Lemma even_lookup_rounds_to_nearest_witness :
  IZR 0 - 0.5 <= eighths ref < IZR 0 + 0.5
  /\ Rounded.getMoonPhaseIndex ref = 0%Z.
Proof.
  assert (H : IZR 0 - 0.5 <= eighths ref < IZR 0 + 0.5)
    by (rewrite eighths_ref; lra).
  split; [exact H |].
  exact (proj1 (proj1 (even_lookup_rounds_to_nearest ref) 0%Z H)).
Defined.

(* ================================================================== *)
(** * The first frame and the frames after it *)

Lemma firstn_repeat_app {A} (x : A) (k : nat) (rest : list A) :
  firstn k (repeat x k ++ rest) = repeat x k.
Proof.
  rewrite firstn_app, repeat_length, Nat.sub_diag, firstn_O, app_nil_r.
  rewrite <- (repeat_length x k) at 1. apply firstn_all.
Qed.

(** C9.  Two frames drawn one after the other on a context that has just
    been reset, under clocks that stand still at the same instant and with
    the same offset, flag, table and case image, issue the same calls, and
    yet do not paint the same: the batons leave the line cap square behind
    them, so the ring of the dial and the sixty ticks of the minute track,
    the first sixty-one strokes of a frame, have butt caps in the first
    frame and square caps in the second.  The ticks are stroked with the
    line cap they find; the batons set theirs outside any saved state,
    where the GMT hand and the sidereal hand, which set a round cap, leave
    the line cap as they found it. *)
Theorem first_frame_strokes_other_caps
    (tza : Z -> Z) (gmtOffset : Z) (flag : bool) (imgs : list (option Image))
    (caseImage : Image) (t : Z) (clk1 clk2 : Clock) (n1 n2 : nat)
    (H1 : frozen clk1 t) (H2 : frozen clk2 t) :
  let frame := drawWatch tza gmtOffset flag imgs caseImage in
  let first := events frame clk1 n1 in
  let second := events frame clk2 n2 in
  first = second
  /\ cap_run first fresh = ("square"%string, [])
  /\ firstn 61 (stroke_caps first fresh) = repeat "butt"%string 61
  /\ firstn 61 (stroke_caps second (cap_run first fresh))
     = repeat "square"%string 61
  /\ stroke_caps first fresh <> stroke_caps second (cap_run first fresh)
  /\ (forall cap saved clk n,
         stroke_caps (events drawMinuteTrack clk n) (cap, saved)
         = repeat cap 60)
  /\ (forall cap saved,
         moves_pen drawBatons (cap, saved) ("square"%string, saved))
  /\ (forall cap saved theta,
         moves_pen (drawGMTHand theta) (cap, saved) (cap, saved))
  /\ (forall cap saved date breathe,
         moves_pen (drawSidereal date breathe) (cap, saved) (cap, saved)).
Proof.
  intros frame first second.
  assert (E : first = second)
    by apply (drawWatch_frozen t tza gmtOffset flag imgs caseImage
                clk1 clk2 n1 n2 H1 H2).
  assert (P : cap_run first fresh = ("square"%string, []))
    by apply drawWatch_pen.
  assert (F1 : firstn 61 (stroke_caps first fresh) = repeat "butt"%string 61).
  { destruct (drawWatch_first_strokes tza gmtOffset flag imgs caseImage
                "butt" clk1 n1) as [rest R].
    unfold first, frame, fresh. rewrite R. apply firstn_repeat_app. }
  assert (F2 : firstn 61 (stroke_caps second (cap_run first fresh))
               = repeat "square"%string 61).
  { destruct (drawWatch_first_strokes tza gmtOffset flag imgs caseImage
                "square" clk2 n2) as [rest R].
    rewrite P. unfold second, frame. rewrite R. apply firstn_repeat_app. }
  split; [exact E |]. split; [exact P |]. split; [exact F1 |].
  split; [exact F2 |].
  split; [intros C; rewrite C, F2 in F1; discriminate F1 |].
  split; [intros cap saved clk n; apply drawMinuteTrack_caps |].
  split; [intros cap saved; apply drawBatons_pen |].
  split; [intros cap saved theta; apply drawGMTHand_pen |].
  intros cap saved date breathe. apply drawSidereal_pen.
Qed.

Lemma first_frame_strokes_other_caps_witness :
  let utc := fun _ : Z => 0%Z in
  let noon : Z := 1768824000000%Z in
  let img := mkImage "case" true in
  let frame := drawWatch utc 0 false [] img in
  frozen (fun _ => noon) noon
  /\ stroke_caps (events frame (fun _ => noon) 0) fresh
     <> stroke_caps (events frame (fun _ => noon) 7)
          (cap_run (events frame (fun _ => noon) 0) fresh).
Proof.
  intros utc noon img frame.
  assert (H : frozen (fun _ : nat => noon) noon) by (intros k; reflexivity).
  split; [exact H |].
  exact (proj1 (proj2 (proj2 (proj2 (proj2
           (first_frame_strokes_other_caps utc 0 false [] img noon
              (fun _ => noon) (fun _ => noon) 0 7 H H)))))).
Defined.

(* ================================================================== *)
(** * The flag the running loop sees *)

Import Loader.








